(** * hex-validator: the pipeline engine, embedded and verified

    A shallow embedding of the engine of [hex-validator]
    (orchestrator, git scope resolver, tool prober, finding aggregator and
    command-line driver) together with the properties its specification
    states about it, and of what the engine calls (the reporters, the
    end-to-end check, the walk up the directories) with further properties
    of the code.

    Conventions of the embedding:
    - JavaScript numbers that are counters or exit codes are [Z]; numbers
      that come from the command line or the environment are [JSNum]
      ([NaN], an infinity or a rational); [undefined] is [None];
    - strings are sequences of characters with codes below 256;
    - a promise that settles is the value it settles with; a computation
      whose promise never settles, or during which the process ends, has
      no value ([None]) in the monad [M] below, which keeps the trace of
      what was done until then;
    - the outside world (git, child processes, the file system, the clock,
      the order in which concurrent checks complete) is an explicit record
      of oracles, [World]. *)

From Stdlib Require Import ZArith QArith Lqa Ascii String List Sorting.Sorted.
From stdpp Require Import base tactics option list sorting strings gmap pretty.

Local Open Scope string_scope.
Local Open Scope list_scope.
Local Open Scope Z_scope.

(** ** Data model ([types]) *)

(** [Scope = 'staged' | 'changed' | 'full'] *)
Inductive Scope := ScopeStaged | ScopeChanged | ScopeFull.

(** [E2EMode = 'auto' | 'always' | 'off'] *)
Inductive E2EMode := E2EAuto | E2EAlways | E2EOff.

(** [Status = 'pass' | 'fail' | 'warn' | 'skipped'] *)
Inductive Status := StatusPass | StatusFail | StatusWarn | StatusSkipped.

(** [Message['level'] = 'info' | 'warn' | 'error'] *)
Inductive Level := LevelInfo | LevelWarn | LevelError.

(** [report: 'summary' | 'json' | 'junit'] *)
Inductive Report := ReportSummary | ReportJson | ReportJunit.

#[global] Instance Scope_eq_dec : EqDecision Scope.
Proof. solve_decision. Defined.
#[global] Instance E2EMode_eq_dec : EqDecision E2EMode.
Proof. solve_decision. Defined.
#[global] Instance Status_eq_dec : EqDecision Status.
Proof. solve_decision. Defined.
#[global] Instance Level_eq_dec : EqDecision Level.
Proof. solve_decision. Defined.
#[global] Instance Report_eq_dec : EqDecision Report.
Proof. solve_decision. Defined.

Record Message := mkMessage {
  msg_level : Level;
  msg_file : option string;
  msg_line : option Z;
  msg_col : option Z;
  msg_code : option string;
  msg_message : string;
  msg_suggestion : option string;
  msg_fixable : option bool;
}.

(** [{ level, message }], every optional field absent. *)
Definition plainMessage (lv : Level) (text : string) : Message :=
  mkMessage lv None None None None text None None.

Record PluginResult := mkPluginResult {
  res_name : string;
  res_status : Status;
  res_messages : option (list Message);
  res_stdout : option string;
  res_stderr : option string;
  res_durationMs : option Z;
  res_artifacts : option (list (string * string));
  res_stage : option string;
}.

(** The data of a [ValidatorConfig] that a check can read through
    [ctx.config]: everything but the [run] closures (a record holding both
    the closures and their own argument type would not be well founded). *)
Record StageView := mkStageView {
  sv_name : string;
  sv_parallel : option bool;
  sv_tasks : list string;
  sv_failOnWarn : option bool;
}.

Record ConfigView := mkConfigView {
  cv_stages : list StageView;
  cv_e2e : option E2EMode;
  cv_reporters : option (list string);
}.

Record PluginContext := mkPluginContext {
  ctx_cwd : string;
  ctx_ci : bool;
  ctx_scope : Scope;
  ctx_changedFiles : list string;
  ctx_stagedFiles : list string;
  ctx_targetFiles : option (list string);
  ctx_env : list (string * string);
  ctx_config : ConfigView;
}.

(** What a JavaScript [throw] (or a rejected promise) carries: an [Error]
    instance with its [name] ([Error], [TypeError], ...), [message] and
    optional [stack], or any other value, given by its rendering as text
    ([String(err)]). *)
Inductive Thrown :=
| ThrownError (name message : string) (stack : option string)
| ThrownOther (text : string).

(** How one call of [plugin.run(ctx)] ends. *)
Inductive Outcome :=
| Returned (res : PluginResult)
| Threw (err : Thrown).

(** One call of [plugin.run(ctx)]: how it ends and how many milliseconds of
    wall-clock time it took ([Date.now() - t0]). A check whose promise
    never settles is outside the model. *)
Record PluginRun := mkPluginRun {
  run_outcome : Outcome;
  run_elapsed : Z;
}.

Record Plugin := mkPlugin {
  plugin_name : string;
  plugin_run : PluginContext → PluginRun;
}.

Record TaskSpec := mkTaskSpec { task_plugin : Plugin }.

Record StageSpec := mkStageSpec {
  stage_name : string;
  stage_parallel : option bool;
  stage_tasks : list TaskSpec;
  stage_failOnWarn : option bool;
}.

Record ValidatorConfig := mkValidatorConfig {
  cfg_stages : list StageSpec;
  cfg_e2e : option E2EMode;
  cfg_reporters : option (list string);
}.

(** A JavaScript number that comes from outside ([Number(v)] of an
    argument or of an environment variable): [NaN], an infinity or a
    finite value. Finite values are rationals, and two rationals that are
    equal as fractions are the same number: the engine only compares such
    numbers, with each other and with integer counters, and selects among
    them. An integer is read as the number it is. *)
Inductive JSNum := NaN | PosInf | NegInf | Num (q : Q).

Coercion inject_Z : Z >-> Q.

(** [a < b] *)
Definition jsLt (a b : JSNum) : bool :=
  match a, b with
  | NaN, _ | _, NaN => false
  | PosInf, _ | _, NegInf => false
  | NegInf, _ | _, PosInf => true
  | Num x, Num y => match (x ?= y)%Q with Lt => true | _ => false end
  end.

(** [Math.max(a, b)] and [Math.min(a, b)] *)
Definition jsMax (a b : JSNum) : JSNum :=
  match a, b with
  | NaN, _ | _, NaN => NaN
  | _, _ => if jsLt a b then b else a
  end.

Definition jsMin (a b : JSNum) : JSNum :=
  match a, b with
  | NaN, _ | _, NaN => NaN
  | _, _ => if jsLt b a then b else a
  end.

(** Truthiness of a number: neither [NaN] nor zero. *)
Definition truthyNum (a : JSNum) : bool :=
  match a with
  | NaN => false
  | Num q => negb (Qeq_bool q 0)
  | _ => true
  end.

Record RunOptions := mkRunOptions {
  opt_scope : Scope;
  opt_ci : bool;
  opt_maxWorkers : JSNum;
  opt_report : Report;
  opt_e2e : E2EMode;
  opt_quiet : option bool;
  opt_verbose : option bool;
  opt_paths : option (list string);
  opt_cwd : option string;
}.

Definition taskName (t : TaskSpec) : string := plugin_name (task_plugin t).

Definition stageView (s : StageSpec) : StageView :=
  mkStageView (stage_name s) (stage_parallel s) (taskName <$> stage_tasks s)
    (stage_failOnWarn s).

Definition configView (c : ValidatorConfig) : ConfigView :=
  mkConfigView (stageView <$> cfg_stages c) (cfg_e2e c) (cfg_reporters c).

(** Truthiness of an optional boolean ([undefined] is falsy) and of an
    optional string ([undefined] and the empty string are falsy). *)
Definition truthyFlag (b : option bool) : bool := default false b.

Definition truthyString (s : string) : bool :=
  match s with EmptyString => false | _ => true end.

Definition truthyOptString (s : option string) : bool :=
  match s with Some t => truthyString t | None => false end.

(** ** [Array.prototype.sort] with a comparator

    The sort is stable (ECMAScript 2019). For a comparator that is a
    consistent total preorder the result is the one stable sorted
    arrangement of the array, which insertion from the right computes. *)
Section JsSort.
Context {A : Type} (cmp : A → A → Z).

Fixpoint js_insert (x : A) (l : list A) : list A :=
  match l with
  | [] => [x]
  | y :: l' => if cmp x y <=? 0 then x :: l else y :: js_insert x l'
  end.

Fixpoint js_sort (l : list A) : list A :=
  match l with
  | [] => []
  | x :: l' => js_insert x (js_sort l')
  end.
End JsSort.

(** ** [sortResultsByTaskOrder] (orchestrator) *)

(** [tasks.forEach((task, idx) => { if (!order.has(name)) order.set(name, idx) })] *)
Definition taskOrderStep (order : gmap string nat) (it : nat * TaskSpec)
    : gmap string nat :=
  match order !! taskName it.2 with
  | Some _ => order
  | None => <[taskName it.2 := it.1]> order
  end.

Definition taskOrder (tasks : list TaskSpec) : gmap string nat :=
  fold_left taskOrderStep (imap pair tasks) ∅.

(** The comparator handed to [sort]. *)
Definition compareByOrder (order : gmap string nat) (a b : PluginResult) : Z :=
  match order !! res_name a, order !! res_name b with
  | Some aIdx, Some bIdx => Z.of_nat aIdx - Z.of_nat bIdx
  | Some _, None => -1
  | None, Some _ => 1
  | None, None => 0
  end.

Definition sortResultsByTaskOrder (results : list PluginResult)
    (tasks : list TaskSpec) : list PluginResult :=
  js_sort (compareByOrder (taskOrder tasks)) results.

(** ** Effects: the outside world and the trace of a run *)

(** What the engine does to the outside world, in the order it does it. *)
Inductive Event :=
| EvGit (args : list string) (cwd : string)       (* [spawn('git', args, {cwd})] *)
| EvCheck (check : string)                        (* [plugin.run(ctx)] is called *)
| EvResolvePaths (paths : list string)
    (* the file-system walk of [--paths], its warnings included *)
| EvInit (force : bool)                           (* [initProject] *)
| EvLoadConfig (cwd : string)                     (* [loadUserConfig] *)
| EvJsonReport (results : list PluginResult)
| EvJunitReport (results : list PluginResult)
| EvTerminalReport (results : list PluginResult) (ci : bool)
    (summaryOnly verbose : option bool)
| EvStdout (text : string)
| EvStderr (text : string)
| EvExit (code : Z).                              (* [process.exit(code)] *)

(** Result of a child process as [child.on('close')] reports it: the exit
    code ([None] when the process was killed by a signal) and what it wrote. *)
Record ProcClose := mkProcClose {
  close_code : option Z;
  close_stdout : string;
  close_stderr : string;
}.

(** How a probe process started by [detectTool] ends: the first of the
    ['close'] and ['error'] events decides the promise. A probe that runs
    into the 5 second [timeout] is killed, and closes without an exit code. *)
Inductive ProbeEnd :=
| ProbeClosed (c : ProcClose)
| ProbeTimedOut (stdout stderr : string)
| ProbeSpawnError.

(** How a git process started by [git] ends: it closes, with an exit code
    ([None] when it was killed by a signal) and what it wrote, or it cannot
    be spawned (no git, or a working directory that does not exist) and
    emits ['error']. *)
Inductive GitEnd :=
| GitClosed (code : option Z) (stdout : string)
| GitSpawnError.

Record World := mkWorld {
  w_cwd : string;                                  (* [process.cwd()] *)
  w_env : list (string * string);                  (* [process.env] *)
  w_cpus : Z;                                      (* [os.cpus().length] *)
  w_git : list string → string → GitEnd;           (* git: arguments, cwd *)
  w_resolvePathsToFiles : list string → string → list string;
  w_completion : nat → list nat;
    (* for the stage at that position: which of the checks in flight
       completes next, one choice per completion *)
  w_spawn : string → list string → string → ProcClose;
  w_probe : string → string → ProbeEnd;            (* shell command, cwd *)
  w_elapsed : string → Z;
    (* milliseconds a check of that name measures with [Date.now() - start] *)
}.

(** A computation that appends to the trace and either settles with a
    value or does not ([None]): its promise never settles, or the process
    ends under it. The trace is what was done until then. *)
Definition M (A : Type) : Type := list Event → option A * list Event.

#[global] Instance M_ret : MRet M := λ A a tr, (Some a, tr).
#[global] Instance M_bind : MBind M := λ A B k m tr,
  match m tr with
  | (Some a, tr') => k a tr'
  | (None, tr') => (None, tr')
  end.

Definition emit (e : Event) : M unit := λ tr, (Some tt, tr ++ [e]).
Definition never {A : Type} : M A := λ tr, (None, tr).

(** ** Strings: [trim] and [split(/\r?\n/)]

    Strings are sequences of characters with codes below 256. The white
    space and line terminators [trim] removes are, among these, tab, line
    feed, vertical tab, form feed, carriage return, space and the
    no-break space (code 160). *)

Definition isSpace (c : ascii) : bool :=
  let n := nat_of_ascii c in
  ((9 <=? n) && (n <=? 13) || (n =? 32) || (n =? 160))%nat.

Fixpoint trimStart (s : string) : string :=
  match s with
  | EmptyString => EmptyString
  | String c s' => if isSpace c then trimStart s' else s
  end.

Fixpoint trimEnd (s : string) : string :=
  match s with
  | EmptyString => EmptyString
  | String c s' =>
      match trimEnd s' with
      | EmptyString => if isSpace c then EmptyString else String c EmptyString
      | t => String c t
      end
  end.

Definition trim (s : string) : string := trimEnd (trimStart s).

Definition isLF (c : ascii) : bool := (nat_of_ascii c =? 10)%nat.
Definition isCR (c : ascii) : bool := (nat_of_ascii c =? 13)%nat.

Definition startsWithLF (s : string) : bool :=
  match s with
  | String c _ => isLF c
  | EmptyString => false
  end.

(** [s.split(/\r?\n/)] *)
Fixpoint splitLines (s : string) : list string :=
  match s with
  | EmptyString => [EmptyString]
  | String c s' =>
      if isLF c then EmptyString :: splitLines s'
      else if isCR c && startsWithLF s' then splitLines s'
      else match splitLines s' with
           | l :: ls => String c l :: ls
           | [] => [String c EmptyString]
           end
  end.

(** [stdout.split(/\r?\n/).map((s) => s.trim()).filter(Boolean)] *)
Definition outputLines (stdout : string) : list string :=
  List.filter truthyString (trim <$> splitLines stdout).

(** ** Git scope resolver ([core/git]) *)

(** [git] listens to ['close'] only: when the process cannot be spawned
    the ['error'] event has no listener, and the process of the validator
    ends with it. *)
Definition git (w : World) (args : list string) (cwd : option string)
    : M (Z * string) :=
  let dir := default (w_cwd w) cwd in
  _ ← emit (EvGit args dir);
  match w_git w args dir with
  | GitClosed code stdout => mret (default 1 code, stdout)
  | GitSpawnError => never
  end.

Definition stagedArgs : list string :=
  ["diff"; "--name-only"; "--cached"; "--diff-filter=ACMRTUXB"].
Definition upstreamArgs : list string :=
  ["rev-parse"; "--abbrev-ref"; "--symbolic-full-name"; "@{u}"].
Definition mergeBaseArgs : list string := ["merge-base"; "HEAD"; "@{u}"].
Definition diffArgs (range : string) : list string :=
  ["diff"; "--name-only"; range].

Definition getStagedFiles (w : World) (cwd : option string) : M (list string) :=
  let cwd := default (w_cwd w) cwd in
  r ← git w stagedArgs (Some cwd);
  if bool_decide (r.1 ≠ 0) then mret [] else mret (outputLines r.2).

Definition getChangedFilesAgainstUpstream (w : World) (cwd : option string)
    : M (list string) :=
  let cwd := default (w_cwd w) cwd in
  upstream ← git w upstreamArgs (Some cwd);
  if bool_decide (upstream.1 ≠ 0) || negb (truthyString (trim upstream.2)) then
    diff ← git w (diffArgs "HEAD~1") (Some cwd);
    if bool_decide (diff.1 ≠ 0) then mret [] else mret (outputLines diff.2)
  else
    mergeBase ← git w mergeBaseArgs (Some cwd);
    let base :=
      if truthyString (trim mergeBase.2) then trim mergeBase.2 else "HEAD~1" in
    diff ← git w (diffArgs (String.append base "..HEAD")) (Some cwd);
    if bool_decide (diff.1 ≠ 0) then mret [] else mret (outputLines diff.2).

(** ** Stage scheduler ([core/orchestrator]) *)

(** A promise once settled. *)
Inductive Settled (A : Type) :=
| Fulfilled (a : A)
| Rejected (err : Thrown).
Arguments Fulfilled {A} a.
Arguments Rejected {A} err.

(** [err instanceof Error ? err.message : fallback] *)
Definition crashText (fallback : string) (err : Thrown) : string :=
  match err with
  | ThrownError _ message _ => message
  | ThrownOther _ => fallback
  end.

(** [err instanceof Error && err.stack ? err.stack : undefined] *)
Definition crashStack (err : Thrown) : option string :=
  match err with
  | ThrownError _ _ (Some stack) =>
      if truthyString stack then Some stack else None
  | _ => None
  end.

(** The [messages] array both handlers build. *)
Definition crashMessages (fallback : string) (err : Thrown) : list Message :=
  plainMessage LevelError (crashText fallback err)
  :: match crashStack err with
     | Some stack => [plainMessage LevelInfo stack]
     | None => []
     end.

(** The fail result both handlers build; [duration] is set by [runTask]
    only. *)
Definition crashResult (fallback : string) (name : string) (err : Thrown)
    (duration : option Z) : PluginResult :=
  mkPluginResult name StatusFail (Some (crashMessages fallback err)) None
    (crashStack err) duration None None.

(** [{ ...res, durationMs }] *)
Definition withDuration (res : PluginResult) (durationMs : Z) : PluginResult :=
  mkPluginResult (res_name res) (res_status res) (res_messages res)
    (res_stdout res) (res_stderr res) (Some durationMs) (res_artifacts res)
    (res_stage res).

Definition runTask (plugin : Plugin) (ctx : PluginContext)
    : M (Settled PluginResult) :=
  _ ← emit (EvCheck (plugin_name plugin));
  let r := plugin_run plugin ctx in
  match run_outcome r with
  | Returned res => mret (Fulfilled (withDuration res (run_elapsed r)))
  | Threw err =>
      mret (Fulfilled (crashResult "Plugin crashed" (plugin_name plugin) err
                         (Some (run_elapsed r))))
  end.

(** [() => runTask(t.plugin, ctx).catch((err) => ...)] *)
Definition wrappedTask (ctx : PluginContext) (t : TaskSpec) : M PluginResult :=
  settled ← runTask (task_plugin t) ctx;
  match settled with
  | Fulfilled res => mret res
  | Rejected err => mret (crashResult "Task crashed" (taskName t) err None)
  end.

(** [runSequential]: [for (const t of tasks) out.push(await t())] *)
Fixpoint runSequentialFrom {T : Type} (out : list T) (tasks : list (M T))
    : M (list T) :=
  match tasks with
  | [] => mret out
  | t :: tasks' => res ← t; runSequentialFrom (out ++ [res]) tasks'
  end.

Definition runSequential {T : Type} (tasks : list (M T)) : M (list T) :=
  runSequentialFrom [] tasks.

(** The [while (running < maxWorkers && queue.length > 0)] loop of [pump]:
    starts tasks off the queue. [running] holds, for each task in flight,
    the value its promise will settle with. *)
Fixpoint startTasks {T : Type} (maxWorkers : JSNum) (queue : list (M T))
    (running : list T) : M (list (M T) * list T) :=
  match queue with
  | [] => mret ([], running)
  | fn :: queue' =>
      if jsLt (Num (Z.of_nat (length running))) maxWorkers
      then res ← fn; startTasks maxWorkers queue' (running ++ [res])
      else mret (queue, running)
  end.

(** Which of the tasks in flight settles next: the one the world chooses,
    the oldest when the choice is out of range. [None] when nothing is in
    flight. *)
Definition settleNext {T : Type} (choice : nat) (running : list T)
    : option (T * list T) :=
  let i := if (choice <? length running)%nat then choice else 0%nat in
  match running !! i with
  | Some res => Some (res, delete i running)
  | None => None
  end.

(** [pump], called once at the start and once after each completion.
    [steps] bounds the number of completions still to come; [runParallel]
    passes the number of tasks. With nothing left in flight and a
    non-empty queue no callback is pending: the promise never resolves.
    The tasks never reject (the caller wraps each in a [catch]), so the
    defensive [.catch] of the source is not entered. *)
Fixpoint pump {T : Type} (steps : nat) (maxWorkers : JSNum)
    (completion : list nat)
    (queue : list (M T)) (running out : list T) : M (list T) :=
  match queue, running with
  | [], [] => mret out
  | _, _ =>
      st ← startTasks maxWorkers queue running;
      match steps, settleNext (hd 0%nat completion) st.2 with
      | S steps', Some (res, running') =>
          pump steps' maxWorkers (tl completion) st.1 running' (out ++ [res])
      | _, _ => never
      end
  end.

Definition runParallel {T : Type} (tasks : list (M T)) (maxWorkers : JSNum)
    (completion : list nat) : M (list T) :=
  pump (length tasks) maxWorkers completion tasks [] [].

(** [{ ...r, stage: stage.name }] *)
Definition withStage (stage : StageSpec) (r : PluginResult) : PluginResult :=
  mkPluginResult (res_name r) (res_status r) (res_messages r) (res_stdout r)
    (res_stderr r) (res_durationMs r) (res_artifacts r)
    (Some (stage_name stage)).

Definition hasStatus (s : Status) (rs : list PluginResult) : bool :=
  existsb (λ r, bool_decide (res_status r = s)) rs.

(** [failed || (stage.failOnWarn && warned)] *)
Definition stageAborts (stage : StageSpec) (rs : list PluginResult) : bool :=
  hasStatus StatusFail rs
  || (truthyFlag (stage_failOnWarn stage) && hasStatus StatusWarn rs).

(** One turn of the [for (const stage of config.stages)] loop, up to the
    stamped results of the stage. *)
Definition runStage (w : World) (ctx : PluginContext) (maxWorkers : JSNum)
    (idx : nat) (stage : StageSpec) : M (list PluginResult) :=
  let wrappedTasks := wrappedTask ctx <$> stage_tasks stage in
  stageResults ←
    (if truthyFlag (stage_parallel stage)
     then runParallel wrappedTasks maxWorkers (w_completion w idx)
     else runSequential wrappedTasks);
  let orderedStageResults :=
    if truthyFlag (stage_parallel stage)
    then sortResultsByTaskOrder stageResults (stage_tasks stage)
    else stageResults in
  mret (withStage stage <$> orderedStageResults).

Fixpoint runStages (w : World) (ctx : PluginContext) (maxWorkers : JSNum)
    (idx : nat) (stages : list StageSpec) (results : list PluginResult)
    : M (bool * list PluginResult) :=
  match stages with
  | [] => mret (true, results)
  | stage :: stages' =>
      stageResultsWithMeta ← runStage w ctx maxWorkers idx stage;
      let results' := results ++ stageResultsWithMeta in
      if stageAborts stage stageResultsWithMeta
      then mret (false, results')
      else runStages w ctx maxWorkers (S idx) stages' results'
  end.

(** [Math.max(1, Math.min(options.maxWorkers || Math.min(4, Math.max(2,
    os.cpus().length - 1)), 8))] *)
Definition maxWorkersOf (w : World) (options : RunOptions) : JSNum :=
  let fallback := Num (Z.min 4 (Z.max 2 (w_cpus w - 1))) in
  let requested :=
    if truthyNum (opt_maxWorkers options) then opt_maxWorkers options
    else fallback in
  jsMax (Num 1) (jsMin requested (Num 8)).

(** The context [runValidation] builds before the first stage. *)
Definition buildContext (w : World) (config : ValidatorConfig)
    (options : RunOptions) : M PluginContext :=
  let cwd := default (w_cwd w) (opt_cwd options) in
  targetFiles ←
    match opt_paths options with
    | Some paths =>
        _ ← emit (EvResolvePaths paths);
        mret (Some (w_resolvePathsToFiles w paths cwd))
    | None => mret None
    end;
  stagedFiles ← getStagedFiles w (Some cwd);
  changedFiles ←
    (if bool_decide (opt_scope options = ScopeStaged)
     then mret stagedFiles
     else getChangedFilesAgainstUpstream w (Some cwd));
  mret (mkPluginContext cwd (opt_ci options) (opt_scope options) changedFiles
          stagedFiles targetFiles (w_env w) (configView config)).

Definition runValidation (w : World) (config : ValidatorConfig)
    (options : RunOptions) : M (bool * list PluginResult) :=
  ctx ← buildContext w config options;
  runStages w ctx (maxWorkersOf w options) 0 (cfg_stages config) [].

(** ** Tool prober ([core/tool-detection]) *)

Record ToolInfo := mkToolInfo {
  tool_available : bool;
  tool_version : option string;
  tool_path : option string;
}.

Definition isDigit (c : ascii) : bool :=
  let n := nat_of_ascii c in ((48 <=? n) && (n <=? 57))%nat.
Definition isDot (c : ascii) : bool := (nat_of_ascii c =? 46)%nat.
Definition isLowerV (c : ascii) : bool := (nat_of_ascii c =? 118)%nat.

(** The longest run of digits at the start of [s]: what a greedy [\d+]
    first takes. *)
Fixpoint digitRun (s : string) : string :=
  match s with
  | String c s' => if isDigit c then String c (digitRun s') else EmptyString
  | EmptyString => EmptyString
  end.

(** [s] without that run. *)
Fixpoint afterDigits (s : string) : string :=
  match s with
  | String c s' => if isDigit c then afterDigits s' else s
  | EmptyString => EmptyString
  end.

(** [s] after a leading dot, when it has one. *)
Definition afterDot (s : string) : option string :=
  match s with
  | String c s' => if isDot c then Some s' else None
  | EmptyString => None
  end.

(** [\d+\.\d+\.\d+] matched at the start of [s]: the text matched. Giving
    back digits of a greedy [\d+] cannot help the match (the next character
    would be a digit, not a dot), so each run is the longest one. *)
Definition matchTriple (s : string) : option string :=
  let a := digitRun s in
  if negb (truthyString a) then None else
  match afterDot (afterDigits s) with
  | None => None
  | Some s1 =>
      let b := digitRun s1 in
      if negb (truthyString b) then None else
      match afterDot (afterDigits s1) with
      | None => None
      | Some s2 =>
          let c := digitRun s2 in
          if negb (truthyString c) then None
          else Some (String.append a (String.append "."
                       (String.append b (String.append "." c))))
      end
  end.

(** [v?(\d+\.\d+\.\d+)] matched at the start of [s]: capture group 1. *)
Definition matchVersionAt (s : string) : option string :=
  match s with
  | String c s' =>
      if isLowerV c then
        match matchTriple s' with
        | Some v => Some v
        | None => matchTriple s
        end
      else matchTriple s
  | EmptyString => None
  end.

(** [s.match(/v?(\d+\.\d+\.\d+)/)?.[1]]: the leftmost match. *)
Fixpoint matchVersion (s : string) : option string :=
  match matchVersionAt s with
  | Some v => Some v
  | None =>
      match s with
      | String _ s' => matchVersion s'
      | EmptyString => None
      end
  end.

Definition unavailable : ToolInfo := mkToolInfo false None None.

(** The ['close'] handler of [detectTool]. *)
Definition onProbeClose (command : string) (c : ProcClose) : ToolInfo :=
  if bool_decide (close_code c = Some 0) then
    let stdoutTrimmed := trim (close_stdout c) in
    let stderrTrimmed := trim (close_stderr c) in
    let versionMatch :=
      match matchVersion stdoutTrimmed with
      | Some v => Some v
      | None =>
          if truthyString stderrTrimmed then matchVersion stderrTrimmed
          else None
      end in
    mkToolInfo true versionMatch (Some command)
  else unavailable.

Definition detectTool (w : World) (command : string)
    (args : option (list string)) (cwd : option string) : ToolInfo :=
  let args := default ["--version"] args in
  let cwd := default (w_cwd w) cwd in
  let fullCommand :=
    String.append command (String.append " " (String.concat " " args)) in
  match w_probe w fullCommand cwd with
  | ProbeClosed c => onProbeClose command c
  | ProbeTimedOut out err => onProbeClose command (mkProcClose None out err)
  | ProbeSpawnError => unavailable
  end.

Definition detectPnpmTool (w : World) (toolName : string)
    (cwd : option string) : ToolInfo :=
  detectTool w (String.append "pnpm exec " toolName) (Some ["--version"])
    (Some (default (w_cwd w) cwd)).

(** [toolCache] is the module-level [Map]; the call returns the tool info
    and the cache as it leaves it. *)
Definition getCachedToolInfo (w : World) (toolCache : gmap string ToolInfo)
    (command : string) (cwd : option string)
    : ToolInfo * gmap string ToolInfo :=
  let cwd := default (w_cwd w) cwd in
  let key := String.append command (String.append ":" cwd) in
  match toolCache !! key with
  | Some cached => (cached, toolCache)
  | None =>
      let info := detectPnpmTool w command (Some cwd) in
      (info, <[key := info]> toolCache)
  end.

(** ** A subprocess check: [gitleaksPlugin] *)

Definition LF : string := String (ascii_of_nat 10) EmptyString.

(** The [run] helper of the subprocess plugins: [code ?? 1]. The command
    is taken to be spawned, so that its process closes. *)
Definition run (w : World) (cmd : string) (args : list string) (cwd : string)
    : Z * string * string :=
  let c := w_spawn w cmd args cwd in
  (default 1 (close_code c), close_stdout c, close_stderr c).




(** ** Finding aggregator ([aggregateByRule]) *)

Record Finding := mkFinding {
  f_file : string;
  f_line : option Z;
  f_level : Level;
  f_code : string;
  f_message : string;
  f_suggestion : option string;
}.

(** [{ count, lines }] *)
Record FileData := mkFileData {
  fd_count : Z;
  fd_lines : list Z;
}.

(** A [Map] keeps its keys in insertion order, and the aggregator iterates
    over it: an association list, a new key going to the end and an
    existing key keeping its place. *)
Fixpoint mapGet {V : Type} (k : string) (m : list (string * V)) : option V :=
  match m with
  | [] => None
  | (k', v) :: m' => if String.eqb k k' then Some v else mapGet k m'
  end.

Fixpoint mapSet {V : Type} (k : string) (v : V) (m : list (string * V))
    : list (string * V) :=
  match m with
  | [] => [(k, v)]
  | (k', v') :: m' =>
      if String.eqb k k' then (k, v) :: m' else (k', v') :: mapSet k v m'
  end.

Definition mapHas {V : Type} (k : string) (m : list (string * V)) : bool :=
  match mapGet k m with Some _ => true | None => false end.

Record RuleViolation := mkRuleViolation {
  rv_rule : string;
  rv_severity : Level;
  rv_count : Z;
  rv_fileViolations : list (string * FileData);
  rv_suggestion : option string;
}.

Definition SEVERITY_ORDER (l : Level) : Z :=
  match l with
  | LevelError => 0
  | LevelWarn => 1
  | LevelInfo => 2
  end.

(** Truthiness of [finding.line]: present and not [0]. *)
Definition truthyLine (line : option Z) : option Z :=
  match line with
  | Some n => if n =? 0 then None else Some n
  | None => None
  end.

(** [finding.line ? `${finding.file}:${finding.line}` : finding.file] *)
Definition fileKey (finding : Finding) : string :=
  match truthyLine (f_line finding) with
  | Some n => String.append (f_file finding) (String.append ":" (pretty n))
  | None => f_file finding
  end.

(** The group created for a code seen for the first time. *)
Definition newGroup (finding : Finding) : RuleViolation :=
  mkRuleViolation (f_code finding) (f_level finding) 0 []
    (if truthyOptString (f_suggestion finding) then f_suggestion finding
     else None).

(** The part of the loop body that records the finding under its file key. *)
Definition recordFile (finding : Finding) (fv : list (string * FileData))
    : list (string * FileData) :=
  if truthyString (f_file finding) then
    let currentFileData := default (mkFileData 0 []) (mapGet (fileKey finding) fv) in
    mapSet (fileKey finding)
      (mkFileData (fd_count currentFileData + 1)
         (match truthyLine (f_line finding) with
          | Some n => fd_lines currentFileData ++ [n]
          | None => fd_lines currentFileData
          end))
      fv
  else fv.

(** What the loop body does to the group of the finding. *)
Definition updateGroup (finding : Finding) (group : RuleViolation)
    : RuleViolation :=
  mkRuleViolation (rv_rule group)
    (if SEVERITY_ORDER (f_level finding) <? SEVERITY_ORDER (rv_severity group)
     then f_level finding else rv_severity group)
    (rv_count group + 1)
    (recordFile finding (rv_fileViolations group))
    (if negb (truthyOptString (rv_suggestion group))
        && truthyOptString (f_suggestion finding)
     then f_suggestion finding else rv_suggestion group).

(** One turn of [for (const finding of findings)]. *)
Definition addFinding (groupsMap : list (string * RuleViolation))
    (finding : Finding) : list (string * RuleViolation) :=
  let key := f_code finding in
  let groupsMap :=
    if negb (mapHas key groupsMap) then mapSet key (newGroup finding) groupsMap
    else groupsMap in
  match mapGet key groupsMap with
  | None => groupsMap
  | Some group => mapSet key (updateGroup finding group) groupsMap
  end.

Definition groupFindings (findings : list Finding)
    : list (string * RuleViolation) :=
  fold_left addFinding findings [].

Section Aggregator.
(** [String.prototype.localeCompare], the collation of the host. *)
Variable localeCompare : string → string → Z.

Definition compareFileEntries (a b : string * FileData) : Z :=
  localeCompare a.1 b.1.

(** The [.map((group) => ...)] step: the file entries sorted by key. *)
Definition toViolation (group : RuleViolation) : RuleViolation :=
  mkRuleViolation (rv_rule group) (rv_severity group) (rv_count group)
    (js_sort compareFileEntries (rv_fileViolations group))
    (if truthyOptString (rv_suggestion group) then rv_suggestion group
     else None).

Definition compareViolations (a b : RuleViolation) : Z :=
  let severityDiff :=
    SEVERITY_ORDER (rv_severity a) - SEVERITY_ORDER (rv_severity b) in
  if negb (severityDiff =? 0) then severityDiff
  else localeCompare (rv_rule a) (rv_rule b).

Definition aggregateByRule (findings : list Finding) : list RuleViolation :=
  js_sort compareViolations (toViolation <$> (snd <$> groupFindings findings)).
End Aggregator.

(** ** Driver ([cli/cli]) *)

Inductive PresetName := PresetNextjs | PresetLibrary | PresetMonorepo.

Record CLIOptions := mkCLIOptions {
  cli_scope : option Scope;
  cli_e2e : option E2EMode;
  cli_report : option Report;
  cli_maxWorkers : option JSNum;
  cli_quiet : option bool;
  cli_verbose : option bool;
  cli_help : option bool;
  cli_version : option bool;
  cli_force : option bool;
  cli_preset : option PresetName;
  cli_paths : option string;
  cli_cwd : option string;
}.

Definition noOptions : CLIOptions :=
  mkCLIOptions None None None None None None None None None None None None.

(** What the driver needs from its host besides the [World] of the engine:
    [Number(v)], [path.join], the version in [package.json], the user
    configuration loader, the built-in preset and [initProject]. *)
Record Host := mkHost {
  h_Number : string → JSNum;
  h_join : string → string → string;
  h_pkgVersion : string;
  h_loadUserConfig : string → Settled (option ValidatorConfig);
  h_nextjsPreset : ValidatorConfig;
  h_initProject : string → bool → option PresetName → Settled unit;
}.

(** [s.split(sep)] for a one-character separator. *)
Fixpoint splitOn (sep : ascii) (s : string) : list string :=
  match s with
  | EmptyString => [EmptyString]
  | String c s' =>
      if Ascii.eqb c sep then EmptyString :: splitOn sep s'
      else match splitOn sep s' with
           | l :: ls => String c l :: ls
           | [] => [String c EmptyString]
           end
  end.

(** [s.includes(c)] for a one-character [c]. *)
Fixpoint includesChar (c : ascii) (s : string) : bool :=
  match s with
  | EmptyString => false
  | String c' s' => Ascii.eqb c' c || includesChar c s'
  end.

Definition equalsSign : ascii := ascii_of_nat 61.
Definition comma : ascii := ascii_of_nat 44.
Definition hyphen : ascii := ascii_of_nat 45.

(** [a.includes('=') ? a.split('=') : [a, 'true']], destructured as [[k, v]]. *)
Definition keyValue (a : string) : string * string :=
  if includesChar equalsSign a then
    let parts := splitOn equalsSign a in
    (nth 0 parts EmptyString, nth 1 parts EmptyString)
  else (a, "true").

Definition scopeOfString (v : string) : option Scope :=
  if String.eqb v "staged" then Some ScopeStaged
  else if String.eqb v "changed" then Some ScopeChanged
  else if String.eqb v "full" then Some ScopeFull
  else None.

Definition e2eOfString (v : string) : option E2EMode :=
  if String.eqb v "auto" then Some E2EAuto
  else if String.eqb v "always" then Some E2EAlways
  else if String.eqb v "off" then Some E2EOff
  else None.

Definition reportOfString (v : string) : option Report :=
  if String.eqb v "summary" then Some ReportSummary
  else if String.eqb v "json" then Some ReportJson
  else if String.eqb v "junit" then Some ReportJunit
  else None.

Definition presetOfString (v : string) : option PresetName :=
  if String.eqb v "nextjs" then Some PresetNextjs
  else if String.eqb v "library" then Some PresetLibrary
  else if String.eqb v "monorepo" then Some PresetMonorepo
  else None.

Definition notFalse (v : string) : bool := negb (String.eqb v "false").

(** One turn of [for (const a of args)] in [parseArgs]. *)
Definition parseArg (h : Host) (opts : CLIOptions) (a : string) : CLIOptions :=
  let (k, v) := keyValue a in
  let '(mkCLIOptions scope e2e report maxWorkers quiet verbose help version
          force preset paths cwd) := opts in
  if String.eqb k "--scope" then
    match scopeOfString v with
    | Some s => mkCLIOptions (Some s) e2e report maxWorkers quiet verbose help
                  version force preset paths cwd
    | None => opts
    end
  else if String.eqb k "--e2e" then
    match e2eOfString v with
    | Some m => mkCLIOptions scope (Some m) report maxWorkers quiet verbose help
                  version force preset paths cwd
    | None => opts
    end
  else if String.eqb k "--report" then
    match reportOfString v with
    | Some r => mkCLIOptions scope e2e (Some r) maxWorkers quiet verbose help
                  version force preset paths cwd
    | None => opts
    end
  else if String.eqb k "--max-workers" then
    mkCLIOptions scope e2e report (Some (h_Number h v)) quiet verbose help
      version force preset paths cwd
  else if String.eqb k "--quiet" then
    mkCLIOptions scope e2e report maxWorkers (Some (notFalse v)) verbose help
      version force preset paths cwd
  else if String.eqb k "--force" then
    mkCLIOptions scope e2e report maxWorkers quiet verbose help version
      (Some (notFalse v)) preset paths cwd
  else if String.eqb k "--verbose" then
    mkCLIOptions scope e2e report maxWorkers quiet (Some (notFalse v)) help
      version force preset paths cwd
  else if String.eqb k "--preset" then
    match presetOfString v with
    | Some p => mkCLIOptions scope e2e report maxWorkers quiet verbose help
                  version force (Some p) paths cwd
    | None => opts
    end
  else if String.eqb k "--paths" then
    mkCLIOptions scope e2e report maxWorkers quiet verbose help version force
      preset (Some v) cwd
  else if String.eqb k "--cwd" then
    mkCLIOptions scope e2e report maxWorkers quiet verbose help version force
      preset paths (Some v)
  else if String.eqb k "--help" || String.eqb k "-h" then
    mkCLIOptions scope e2e report maxWorkers quiet verbose (Some true) version
      force preset paths cwd
  else if String.eqb k "--version" || String.eqb k "-v" then
    mkCLIOptions scope e2e report maxWorkers quiet verbose help (Some true)
      force preset paths cwd
  else opts.

(** [a.startsWith('-')] *)
Definition startsWithHyphen (a : string) : bool :=
  match a with
  | String c _ => Ascii.eqb c hyphen
  | EmptyString => false
  end.

Definition parseArgs (h : Host) (argv : list string) : string * CLIOptions :=
  let args := drop 2 argv in
  let opts := fold_left (parseArg h) args noOptions in
  let first :=
    default "full" (List.find (λ a, negb (startsWithHyphen a)) args) in
  (first, opts).

Inductive Mode := ModeFast | ModeFull | ModeCi.

(** [Boolean(process.env.CI)] *)
Definition envCI (w : World) : bool :=
  truthyOptString (mapGet "CI" (w_env w)).

Definition buildOptions (w : World) (mode : Mode) (opts : CLIOptions)
    : RunOptions :=
  let isCI := match mode with ModeCi => true | _ => envCI w end in
  mkRunOptions
    (default (match mode with ModeFast => ScopeStaged | _ => ScopeFull end)
       (cli_scope opts))
    isCI
    (jsMax (Num 1)
       (default (Num (Z.min 4 (Z.max 2 (w_cpus w - 1)))) (cli_maxWorkers opts)))
    (default ReportSummary (cli_report opts))
    (default E2EOff (cli_e2e opts))
    (Some (default false (cli_quiet opts)))
    (Some (default false (cli_verbose opts)))
    (if truthyOptString (cli_paths opts) then
       Some (List.filter truthyString
               (trim <$> splitOn comma (default EmptyString (cli_paths opts))))
     else None)
    None.

Definition helpLines : list string :=
  ["Usage: hex-validate <command> [options]";
   "";
   "Commands:";
   "  fast|full|ci    Run validation pipeline";
   "  init            Scaffold validator.config.ts and lefthook.yml";
   "";
   "Options:";
   "  --help, -h      Show this help message";
   "  --version, -v   Show version number";
   "  --scope=staged|changed|full";
   "  --e2e=auto|always|off";
   "  --report=summary|json|junit";
   "  --max-workers=n";
   "  --quiet";
   "  --verbose       Show detailed plugin durations";
   "  --paths=file1,dir1,file2  Validate specific files/folders (comma-separated)";
   "  --cwd=path       Run validation in a different directory";
   "  (init) --force   Overwrite files if they exist";
   "  (init) --preset=nextjs|library|monorepo"].

Definition printHelp : M unit :=
  emit (EvStdout (String.append (String.concat LF helpLines) LF)).

(** [String(err)]: for an [Error], what [Error.prototype.toString] gives
    from its [name] and [message]. *)
Definition stringOfThrown (err : Thrown) : string :=
  match err with
  | ThrownError name message _ =>
      if negb (truthyString name) then message
      else if negb (truthyString message) then name
      else String.append name (String.append ": " message)
  | ThrownOther text => text
  end.

Definition withCwd (options : RunOptions) (cwd : string) : RunOptions :=
  mkRunOptions (opt_scope options) (opt_ci options) (opt_maxWorkers options)
    (opt_report options) (opt_e2e options) (opt_quiet options)
    (opt_verbose options) (opt_paths options) (Some cwd).

(** The reporter chosen by [options.report]. *)
Definition report (options : RunOptions) (results : list PluginResult)
    : M unit :=
  match opt_report options with
  | ReportJson => emit (EvJsonReport results)
  | ReportJunit => emit (EvJunitReport results)
  | ReportSummary =>
      emit (EvTerminalReport results (opt_ci options) (opt_quiet options)
              (opt_verbose options))
  end.

(** The body of [async function main()]: the promise it returns. *)
Definition mainBody (w : World) (h : Host) (argv : list string)
    : M (Settled unit) :=
  let (cmd, opts) := parseArgs h argv in
  if truthyFlag (cli_help opts) then
    _ ← printHelp; mret (Fulfilled tt)
  else if truthyFlag (cli_version opts) then
    _ ← emit (EvStdout (String.append (h_pkgVersion h) LF)); mret (Fulfilled tt)
  else if String.eqb cmd "init" then
    _ ← emit (EvInit (truthyFlag (cli_force opts)));
    match h_initProject h (w_cwd w) (truthyFlag (cli_force opts)) (cli_preset opts) with
    | Rejected err => mret (Rejected err)
    | Fulfilled _ => _ ← emit (EvExit 0); mret (Fulfilled tt)
    end
  else
    let mode := if String.eqb cmd "fast" then ModeFast
                else if String.eqb cmd "ci" then ModeCi else ModeFull in
    let cwd := if truthyOptString (cli_cwd opts)
               then h_join h (w_cwd w) (default EmptyString (cli_cwd opts))
               else w_cwd w in
    let options := withCwd (buildOptions w mode opts) cwd in
    _ ← emit (EvLoadConfig cwd);
    match h_loadUserConfig h cwd with
    | Rejected err => mret (Rejected err)
    | Fulfilled loaded =>
        let config := default (h_nextjsPreset h) loaded in
        '(ok, results) ← runValidation w config options;
        _ ← report options results;
        _ ← emit (EvExit (if ok : bool then 0 else 1));
        mret (Fulfilled tt)
    end.

(** [main().catch((err) => { process.stderr.write(...); process.exit(1) })] *)
Definition main (w : World) (h : Host) (argv : list string) : M unit :=
  settled ← mainBody w h argv;
  match settled with
  | Fulfilled _ => mret tt
  | Rejected err =>
      _ ← emit (EvStderr (String.append (stringOfThrown err) LF));
      emit (EvExit 1)
  end.

(** ** Specification vocabulary *)

(** Position of the first occurrence of [n] in a list of names. *)
Fixpoint indexOf (n : string) (names : list string) : option nat :=
  match names with
  | [] => None
  | x :: names' => if decide (x = n) then Some 0%nat else S <$> indexOf n names'
  end.

(** [a] sorts no later than [b] under the comparator [cmp]. *)
Definition cmpLe {A : Type} (cmp : A → A → Z) (a b : A) : Prop := cmp a b ≤ 0.

(** The result the scheduler records for a task: what [runTask] resolves
    with. *)
Definition taskResult (ctx : PluginContext) (t : TaskSpec) : PluginResult :=
  let r := plugin_run (task_plugin t) ctx in
  match run_outcome r with
  | Returned res => withDuration res (run_elapsed r)
  | Threw err =>
      crashResult "Plugin crashed" (taskName t) err (Some (run_elapsed r))
  end.

(** The results of a stage in the order its checks are declared in. *)
Definition declaredResults (ctx : PluginContext) (stage : StageSpec)
    : list PluginResult :=
  withStage stage <$> (taskResult ctx <$> stage_tasks stage).

(** The stamped results [runStage] returns for a stage ([[]] if it were not
    to return). *)
Definition stageRun (w : World) (ctx : PluginContext) (maxWorkers : JSNum)
    (idx : nat) (stage : StageSpec) : list PluginResult :=
  default [] (runStage w ctx maxWorkers idx stage []).1.

(** A stage passes its policy. *)
Definition stagePasses (w : World) (ctx : PluginContext) (maxWorkers : JSNum)
    (idx : nat) (stage : StageSpec) : Prop :=
  stageAborts stage (stageRun w ctx maxWorkers idx stage) = false.


(** The git commands a trace shows, in order. *)
Definition gitCalls (tr : list Event) : list (list string * string) :=
  omap (λ e, match e with EvGit args cwd => Some (args, cwd) | _ => None end) tr.

(** The names of the checks of some stages, in declaration order. *)
Definition checkNames (stages : list StageSpec) : list string :=
  concat ((λ s, taskName <$> stage_tasks s) <$> stages).

(** The events of starting the given tasks, in order. *)
Definition startEvents (tasks : list TaskSpec) : list Event :=
  (λ t, EvCheck (taskName t)) <$> tasks.

(** The computation [m] adds the events [evs] to whatever trace it starts
    from and ends as [out]: settled with a value, or not settled. *)
Definition runs {A : Type} (m : M A) (out : option A) (evs : list Event)
    : Prop :=
  ∀ tr, m tr = (out, tr ++ evs).

(** The computation [m] settles with [a], adding the events [evs] to
    whatever trace it starts from. *)
Definition settles {A : Type} (m : M A) (a : A) (evs : list Event) : Prop :=
  runs m (Some a) evs.

(** There is a worker: [0 < maxWorkers]. *)
Definition hasWorker (maxWorkers : JSNum) : Prop :=
  jsLt (Num 0) maxWorkers = true.


(** The git command can be spawned in the directory; git can be spawned
    there whatever the command. *)
Definition gitSpawns (w : World) (args : list string) (cwd : string) : bool :=
  match w_git w args cwd with
  | GitClosed _ _ => true
  | GitSpawnError => false
  end.

Definition gitAvailable (w : World) (cwd : string) : Prop :=
  ∀ args, gitSpawns w args cwd = true.

(** The git command with its exit code ([code ?? 1]) and output, where it
    can be spawned. *)
Definition gitCode (w : World) (args : list string) (cwd : string) : Z :=
  match w_git w args cwd with
  | GitClosed code _ => default 1 code
  | GitSpawnError => 1
  end.
Definition gitStdout (w : World) (args : list string) (cwd : string) : string :=
  match w_git w args cwd with
  | GitClosed _ stdout => stdout
  | GitSpawnError => EmptyString
  end.

(** Whether [getChangedFilesAgainstUpstream] finds an upstream. *)
Definition hasUpstream (w : World) (cwd : string) : bool :=
  bool_decide (gitCode w upstreamArgs cwd = 0)
  && truthyString (trim (gitStdout w upstreamArgs cwd)).

(** The range [getChangedFilesAgainstUpstream] hands to [git diff]. *)
Definition changedRange (w : World) (cwd : string) : string :=
  if hasUpstream w cwd then
    String.append
      (if truthyString (trim (gitStdout w mergeBaseArgs cwd))
       then trim (gitStdout w mergeBaseArgs cwd) else "HEAD~1")
      "..HEAD"
  else "HEAD~1".

(** The git commands [getChangedFilesAgainstUpstream] runs, in order. *)
Definition changedCommands (w : World) (cwd : string) : list (list string) :=
  if hasUpstream w cwd
  then [upstreamArgs; mergeBaseArgs; diffArgs (changedRange w cwd)]
  else [upstreamArgs; diffArgs (changedRange w cwd)].

(** The file list a [git diff --name-only] yields. *)
Definition diffFiles (w : World) (args : list string) (cwd : string)
    : list string :=
  if bool_decide (gitCode w args cwd ≠ 0) then []
  else outputLines (gitStdout w args cwd).

(** Of git commands to be run in order, those that are run: the commands up
    to the first that cannot be spawned, with which the process ends. *)
Fixpoint issued (w : World) (cwd : string) (cmds : list (list string))
    : list (list string) :=
  match cmds with
  | [] => []
  | c :: cs => c :: (if gitSpawns w c cwd then issued w cwd cs else [])
  end.

Definition allSpawn (w : World) (cwd : string) (cmds : list (list string))
    : bool :=
  forallb (λ c, gitSpawns w c cwd) cmds.

(** The git commands [buildContext] has to run, in order. *)
Definition contextCommands (w : World) (options : RunOptions)
    : list (list string) :=
  let cwd := default (w_cwd w) (opt_cwd options) in
  stagedArgs
  :: (if bool_decide (opt_scope options = ScopeStaged) then []
      else changedCommands w cwd).

(** The git commands of [buildContext] can be spawned. *)
Definition contextSpawns (w : World) (options : RunOptions) : Prop :=
  allSpawn w (default (w_cwd w) (opt_cwd options)) (contextCommands w options)
  = true.

(** The context [buildContext] settles with when its git commands can be
    spawned, and the events it adds. *)
Definition contextOf (w : World) (config : ValidatorConfig)
    (options : RunOptions) : PluginContext :=
  let cwd := default (w_cwd w) (opt_cwd options) in
  let staged := diffFiles w stagedArgs cwd in
  mkPluginContext cwd (opt_ci options) (opt_scope options)
    (if bool_decide (opt_scope options = ScopeStaged) then staged
     else diffFiles w (diffArgs (changedRange w cwd)) cwd)
    staged
    ((λ paths, w_resolvePathsToFiles w paths cwd) <$> opt_paths options)
    (w_env w) (configView config).

Definition contextEvents (w : World) (options : RunOptions) : list Event :=
  let cwd := default (w_cwd w) (opt_cwd options) in
  match opt_paths options with
  | Some paths => [EvResolvePaths paths]
  | None => []
  end
  ++ ((λ args, EvGit args cwd) <$> issued w cwd (contextCommands w options)).

(** The events of running the checks of some stages, in order. *)
Definition stageEvents (stages : list StageSpec) : list Event :=
  concat ((λ s, startEvents (stage_tasks s)) <$> stages).

(** The text of an error: the [message] of an [Error], or the thrown value
    as text. *)
Definition errorText (err : Thrown) : string :=
  match err with
  | ThrownError _ message _ => message
  | ThrownOther text => text
  end.

(** The findings of a result ([messages ?? []]). *)
Definition findings (r : PluginResult) : list Message :=
  default [] (res_messages r).



(** ** Example data *)

(** A machine outside any git repository, with four processors, where no
    tool is installed and the first check in flight always completes
    first. *)
Definition quietWorld : World :=
  mkWorld "/repo" [] 4 (λ _ _, GitClosed (Some 128) EmptyString) (λ _ _, [])
    (λ _, []) (λ _ _ _, mkProcClose (Some 0) EmptyString EmptyString)
    (λ _ _, ProbeClosed (mkProcClose (Some 127) EmptyString EmptyString))
    (λ _, 0).

Definition emptyConfig : ValidatorConfig := mkValidatorConfig [] None None.

Definition fullOptions : RunOptions :=
  mkRunOptions ScopeFull false (Num 2) ReportSummary E2EOff None None None None.

Definition quietContext : PluginContext :=
  contextOf quietWorld emptyConfig fullOptions.

(** A check that returns the given status and no findings. *)
Definition constantPlugin (name : string) (status : Status) : Plugin :=
  mkPlugin name
    (λ _, mkPluginRun
            (Returned (mkPluginResult name status None None None None None None))
            0).

(** A check that throws a value that is not an [Error]: [throw 'boom']. *)
Definition boomPlugin : Plugin :=
  mkPlugin "boom" (λ _, mkPluginRun (Threw (ThrownOther "boom")) 0).

Definition boomStage : StageSpec :=
  mkStageSpec "checks" None [mkTaskSpec boomPlugin] None.

(** A check that throws an [Error] with a stack. *)
Definition errorPlugin : Plugin :=
  mkPlugin "broken"
    (λ _, mkPluginRun (Threw (ThrownError "Error" "no such file" (Some "at run"))) 0).

Definition errorStage : StageSpec :=
  mkStageSpec "checks" None
    [mkTaskSpec errorPlugin; mkTaskSpec (constantPlugin "after" StatusPass)]
    None.

(** A parallel stage whose two checks share a display name. *)
Definition dupStage : StageSpec :=
  mkStageSpec "checks" (Some true)
    [mkTaskSpec (constantPlugin "dup" StatusPass);
     mkTaskSpec (constantPlugin "dup" StatusSkipped)]
    None.

(** A parallel stage of two checks with names of their own. *)
Definition pairStage : StageSpec :=
  mkStageSpec "checks" (Some true)
    [mkTaskSpec (constantPlugin "first" StatusPass);
     mkTaskSpec (constantPlugin "second" StatusSkipped)]
    None.

(** A world in which, of two checks in flight, the younger completes
    first. *)
Definition youngestFirst : World :=
  mkWorld "/repo" [] 4 (λ _ _, GitClosed (Some 128) EmptyString) (λ _ _, [])
    (λ _, [1%nat]) (λ _ _ _, mkProcClose (Some 0) EmptyString EmptyString)
    (λ _ _, ProbeClosed (mkProcClose (Some 127) EmptyString EmptyString))
    (λ _, 0).



(** A pipeline of one check that passes without findings. *)
Definition passingConfig : ValidatorConfig :=
  mkValidatorConfig
    [mkStageSpec "checks" None [mkTaskSpec (constantPlugin "lint" StatusPass)] None]
    None None.

(** ** The version pattern, in the words of the specification *)

Fixpoint digitsOnly (s : string) : bool :=
  match s with
  | EmptyString => true
  | String c s' => isDigit c && digitsOnly s'
  end.

(** [\d+] *)
Definition digits (s : string) : Prop := s ≠ EmptyString ∧ digitsOnly s = true.

(** [\d+\.\d+\.\d+] *)
Definition versionNumber (v : string) : Prop :=
  ∃ a b c, digits a ∧ digits b ∧ digits c ∧
           v = String.append a (String.append "."
                 (String.append b (String.append "." c))).

(** [m] matches [v?(\d+\.\d+\.\d+)] with [v] as its group 1. *)
Definition patternMatch (m v : string) : Prop :=
  versionNumber v ∧ (m = v ∨ m = String.append "v" v).

(** [m] occurs in [s] at offset [n]. *)
Definition occursAt (s : string) (n : nat) (m : string) : Prop :=
  ∃ pre post, s = String.append pre (String.append m post)
              ∧ String.length pre = n.

(** [m] is the first occurrence of the pattern in [s], the longest at its
    offset, and [v] its version number. *)
Definition firstOccurrence (s m v : string) : Prop :=
  ∃ n, occursAt s n m ∧ patternMatch m v ∧
       ∀ n' m' v', occursAt s n' m' → patternMatch m' v' →
                   (n ≤ n')%nat
                   ∧ (n' = n → (String.length m' ≤ String.length m)%nat).

Definition noOccurrence (s : string) : Prop :=
  ∀ n m v, occursAt s n m → ¬ patternMatch m v.

(** A world in which the probe of a tool prints [v1.2.3]. *)
Definition versionWorld : World :=
  mkWorld "/repo" [] 4 (λ _ _, GitClosed (Some 128) EmptyString) (λ _ _, [])
    (λ _, []) (λ _ _ _, mkProcClose (Some 0) EmptyString EmptyString)
    (λ _ _, ProbeClosed (mkProcClose (Some 0) "v1.2.3" EmptyString))
    (λ _, 0).

(** A host whose user configuration is the pipeline of one passing check. *)
Definition plainHost : Host :=
  mkHost (λ _, NaN) (λ a b, String.append a (String.append "/" b)) "1.0.0"
    (λ _, Fulfilled (Some passingConfig)) emptyConfig (λ _ _ _, Fulfilled tt).

(** The argument [a] is a [--report] flag whose value is none of summary,
    json and junit. *)
Definition unknownReporter (a : string) : Prop :=
  (keyValue a).1 = "--report" ∧ reportOfString (keyValue a).2 = None.

(** ** The aggregation, in the words of the specification *)

(** The findings with rule code [c]. *)
Definition membersOf (c : string) (findings : list Finding) : list Finding :=
  filter (λ f, f_code f = c) findings.

(** The findings recorded under the key [k]: those that name a file and
    whose file key is [k]. *)
Definition recordedUnder (k : string) (findings : list Finding) : list Finding :=
  filter (λ f, f_file f ≠ EmptyString ∧ fileKey f = k) findings.

(** [level] is the most severe level among [findings]. *)
Definition mostSevere (level : Level) (findings : list Finding) : Prop :=
  (∃ f, f ∈ findings ∧ f_level f = level)
  ∧ ∀ f, f ∈ findings → SEVERITY_ORDER level ≤ SEVERITY_ORDER (f_level f).

(** Group [a] comes no later than group [b]: by severity, error before warn
    before info, then by code. *)
Definition violationLe (localeCompare : string → string → Z)
    (a b : RuleViolation) : Prop :=
  SEVERITY_ORDER (rv_severity a) < SEVERITY_ORDER (rv_severity b)
  ∨ (rv_severity a = rv_severity b ∧ localeCompare (rv_rule a) (rv_rule b) ≤ 0).

(** Entry [a] comes no later than entry [b]: by key. *)
Definition entryLe (localeCompare : string → string → Z)
    (a b : string * FileData) : Prop :=
  localeCompare a.1 b.1 ≤ 0.

(** The comparison of strings by character codes, a collation a host may
    have. *)
Definition ordinalCompare (a b : string) : Z :=
  if String.eqb a b then 0 else if String.leb a b then -1 else 1.

(** What the loop has made of the findings recorded so far in the file
    entries of a group. *)
Definition FilesRecorded (members : list Finding)
    (fv : list (string * FileData)) : Prop :=
  NoDup (fst <$> fv)
  ∧ ∀ k, match mapGet k fv with
         | Some d => fd_count d = Z.of_nat (length (recordedUnder k members))
                     ∧ recordedUnder k members ≠ []
         | None => recordedUnder k members = []
         end.

(** What the loop has made of the findings seen so far in the group of
    code [c]. *)
Definition GroupOf (findings : list Finding) (c : string)
    (g : RuleViolation) : Prop :=
  rv_rule g = c
  ∧ rv_count g = Z.of_nat (length (membersOf c findings))
  ∧ mostSevere (rv_severity g) (membersOf c findings)
  ∧ FilesRecorded (membersOf c findings) (rv_fileViolations g).

(** The invariant of the loop of [aggregateByRule]. *)
Definition Grouped (findings : list Finding)
    (groupsMap : list (string * RuleViolation)) : Prop :=
  NoDup (fst <$> groupsMap)
  ∧ ∀ c, match mapGet c groupsMap with
         | Some g => GroupOf findings c g
         | None => membersOf c findings = []
         end.

(** Two findings of one rule in one file, on different lines. *)
Definition twoLines : list Finding :=
  [mkFinding "a.ts" (Some 3) LevelWarn "x/y" "first" None;
   mkFinding "a.ts" (Some 7) LevelError "x/y" "second" None].

(** ** Further example data *)

Definition threeTasks : list TaskSpec :=
  [mkTaskSpec boomPlugin; mkTaskSpec errorPlugin;
   mkTaskSpec (constantPlugin "lint" StatusPass)].

(** The stage names a result list should carry when the given stages have
    run: the name of each stage, once per check of the stage. *)
Definition stageStamps (stages : list StageSpec) : list (option string) :=
  concat ((λ s, replicate (length (stage_tasks s)) (Some (stage_name s)))
            <$> stages).

(** ** Further vocabulary: git output and the command line *)

Definition lineFeed : ascii := ascii_of_nat 10.

(** The first character of [s] is white space. *)
Definition headSpace (s : string) : bool :=
  match s with
  | String c _ => isSpace c
  | EmptyString => false
  end.

(** The text that lists the given paths one per line, as git prints it. *)
Definition printedLines (files : list string) : string :=
  foldr (λ f out, String.append f (String.append LF out)) EmptyString files.

(** A line as [outputLines] returns it: not empty, without white space
    around it, and without a line feed. *)
Definition cleanLine (l : string) : Prop :=
  l ≠ EmptyString ∧ trim l = l ∧ includesChar lineFeed l = false.

(** [k=v] *)
Definition assignment (k v : string) : string :=
  String.append k (String equalsSign v).

(** The key of a command-line argument, and the flags that ask for the
    help text or the version. *)
Definition argKey (a : string) : string := (keyValue a).1.
Definition argValue (a : string) : string := (keyValue a).2.

Definition helpFlag (a : string) : Prop := argKey a = "--help" ∨ argKey a = "-h".
Definition versionFlag (a : string) : Prop :=
  argKey a = "--version" ∨ argKey a = "-v".

Definition helpText : string := String.append (String.concat LF helpLines) LF.

(** What [main] computes from the command line before it loads the
    configuration: the command, the flags, the directory and the options. *)
Definition cliCommand (h : Host) (argv : list string) : string :=
  (parseArgs h argv).1.
Definition cliFlags (h : Host) (argv : list string) : CLIOptions :=
  (parseArgs h argv).2.

Definition cliMode (cmd : string) : Mode :=
  if String.eqb cmd "fast" then ModeFast
  else if String.eqb cmd "ci" then ModeCi else ModeFull.

Definition cliCwd (w : World) (h : Host) (argv : list string) : string :=
  if truthyOptString (cli_cwd (cliFlags h argv))
  then h_join h (w_cwd w) (default EmptyString (cli_cwd (cliFlags h argv)))
  else w_cwd w.

Definition cliOptions (w : World) (h : Host) (argv : list string) : RunOptions :=
  withCwd (buildOptions w (cliMode (cliCommand h argv)) (cliFlags h argv))
    (cliCwd w h argv).

(** The command line asks for a run of the pipeline: neither help nor
    version nor [init]. *)
Definition runsPipeline (h : Host) (argv : list string) : Prop :=
  truthyFlag (cli_help (cliFlags h argv)) = false ∧
  truthyFlag (cli_version (cliFlags h argv)) = false ∧
  cliCommand h argv ≠ "init".

(** The one event of the reporter [options.report] selects. *)
Definition reportEvent (options : RunOptions) (results : list PluginResult)
    : Event :=
  match opt_report options with
  | ReportJson => EvJsonReport results
  | ReportJunit => EvJunitReport results
  | ReportSummary =>
      EvTerminalReport results (opt_ci options) (opt_quiet options)
        (opt_verbose options)
  end.

(** A host whose configuration loader rejects. *)
Definition brokenHost : Host :=
  mkHost (λ _, NaN) (λ a b, String.append a (String.append "/" b)) "1.0.0"
    (λ _, Rejected (ThrownError "TypeError" "Invalid validator config" None)) emptyConfig
    (λ _ _ _, Fulfilled tt).

Definition fullRun : list string := ["node"; "hex-validate"; "full"].

(** ** Further vocabulary: the tool cache *)

Definition colon : ascii := ascii_of_nat 58.

(** The key of the tool cache: [`${command}:${cwd}`]. *)
Definition cacheKey (command cwd : string) : string :=
  String.append command (String.append ":" cwd).

(** A world in which no tool can be started. *)
Definition bareWorld : World :=
  mkWorld "/repo" [] 4 (λ _ _, GitClosed (Some 128) EmptyString) (λ _ _, [])
    (λ _, []) (λ _ _ _, mkProcClose (Some 0) EmptyString EmptyString)
    (λ _ _, ProbeSpawnError) (λ _, 0).

(** ** Canonical messages ([buildCanonicalMessages])

    Counts are small non-negative integers, which JavaScript prints in
    decimal. *)

Definition doubleQuote : string := String (ascii_of_nat 34) EmptyString.

(** The line of one entry of [fileViolations]. *)
Definition fileLine (entry : string * FileData) : string :=
  if 1 <? fd_count entry.2
  then "    - " +:+ entry.1 +:+ " [" +:+ pretty (fd_count entry.2) +:+ "]"
  else "    - " +:+ entry.1.

(** The message pushed by one turn of [for (const violation of violations)]. *)
Definition canonicalMessage (violation : RuleViolation) : Message :=
  let fileCount := Z.of_nat (length (rv_fileViolations violation)) in
  let suggestion :=
    default ("Review the " +:+ doubleQuote +:+ rv_rule violation +:+ doubleQuote
             +:+ " rule for remediation guidance.")
      (rv_suggestion violation) in
  let filesList :=
    if 0 <? fileCount
    then String.concat LF (fileLine <$> rv_fileViolations violation)
    else "    (no files recorded)" in
  let messageParts :=
    [rv_rule violation +:+ " [" +:+ pretty (rv_count violation) +:+ " | "
       +:+ pretty fileCount +:+ "]";
     "  Fix: " +:+ suggestion;
     "  List:";
     filesList] in
  plainMessage (rv_severity violation) (String.concat LF messageParts).

Definition buildCanonicalMessages (violations : list RuleViolation)
    : list Message :=
  fold_left (λ messages violation, messages ++ [canonicalMessage violation])
    violations [].

(** ** Further vocabulary: the aggregation *)

(** The sum of the counts of some groups. *)
Definition totalCount (violations : list RuleViolation) : Z :=
  foldr (λ g n, rv_count g + n) 0 violations.

(** The suggestion of a finding, when it is not empty. *)
Definition suggestionOf (f : Finding) : option string :=
  if truthyOptString (f_suggestion f) then f_suggestion f else None.

(** The first suggestion among some findings. *)
Definition firstSuggestion (findings : list Finding) : option string :=
  head (omap suggestionOf findings).

(** The lines of the findings that have one, in order. *)
Definition linesOf (findings : list Finding) : list Z :=
  omap (λ f, truthyLine (f_line f)) findings.

(** Message [a] is at least as severe as message [b]. *)
Definition levelLe (a b : Message) : Prop :=
  SEVERITY_ORDER (msg_level a) ≤ SEVERITY_ORDER (msg_level b).

(** Three findings of two rules; the second rule has the error. *)
Definition mixedFindings : list Finding :=
  [mkFinding "a.ts" (Some 3) LevelWarn "x/y" "first" None;
   mkFinding "b.ts" None LevelError "z" "second" (Some "Remove it");
   mkFinding "a.ts" (Some 3) LevelInfo "x/y" "third" (Some "Rename it")].

(** ** Reporters ([core/reporters])

    What a reporter writes to standard output, one string per
    [process.stdout.write]. *)

(** *** JUnit *)

Definition lessThan : ascii := ascii_of_nat 60.
Definition greaterThan : ascii := ascii_of_nat 62.
Definition ampersand : ascii := ascii_of_nat 38.

(** [map[c] ?? c] for a character that [[<&>]] matches; any other character
    is left as it is. *)
Definition escChar (c : ascii) : string :=
  if Ascii.eqb c lessThan then "&lt;"
  else if Ascii.eqb c greaterThan then "&gt;"
  else if Ascii.eqb c ampersand then "&amp;"
  else String c EmptyString.

(** [s.replace(/[<&>]/g, (c) => map[c] ?? c)] *)
Fixpoint esc (s : string) : string :=
  match s with
  | EmptyString => EmptyString
  | String c s' => escChar c +:+ esc s'
  end.

Definition levelText (lv : Level) : string :=
  match lv with
  | LevelInfo => "info"
  | LevelWarn => "warn"
  | LevelError => "error"
  end.

(** [`${m.level}: ${m.file ?? ''} ${m.message}`] *)
Definition junitMessageLine (m : Message) : string :=
  levelText (msg_level m) +:+ ": " +:+ default EmptyString (msg_file m)
  +:+ " " +:+ msg_message m.

(** [esc((r.messages ?? []).map(...).join('\n'))] *)
Definition junitMessages (r : PluginResult) : string :=
  esc (String.concat LF (junitMessageLine <$> default [] (res_messages r))).

Definition testcase (r : PluginResult) : string :=
  let name := esc (res_name r) in
  match res_status r with
  | StatusFail =>
      "<testcase name=" +:+ doubleQuote +:+ name +:+ doubleQuote
      +:+ "><failure message=" +:+ doubleQuote +:+ name +:+ doubleQuote
      +:+ "><![CDATA[" +:+ junitMessages r +:+ "]]></failure></testcase>"
  | StatusWarn =>
      "<testcase name=" +:+ doubleQuote +:+ name +:+ doubleQuote
      +:+ "><skipped message=" +:+ doubleQuote +:+ "warning" +:+ doubleQuote
      +:+ "><![CDATA[" +:+ junitMessages r +:+ "]]></skipped></testcase>"
  | _ => "<testcase name=" +:+ doubleQuote +:+ name +:+ doubleQuote +:+ "/>"
  end.

(** [failures], [tests] and [testcases] *)
Record JunitState := mkJunitState {
  junit_failures : Z;
  junit_tests : Z;
  junit_testcases : list string;
}.

(** One turn of [for (const r of results)]. *)
Definition junitStep (st : JunitState) (r : PluginResult) : JunitState :=
  mkJunitState
    (if bool_decide (res_status r = StatusFail) then junit_failures st + 1
     else junit_failures st)
    (junit_tests st + 1)
    (junit_testcases st ++ [testcase r]).

Definition junitDocument (st : JunitState) : string :=
  "<?xml version=" +:+ doubleQuote +:+ "1.0" +:+ doubleQuote
  +:+ " encoding=" +:+ doubleQuote +:+ "UTF-8" +:+ doubleQuote +:+ "?>" +:+ LF
  +:+ "<testsuite name=" +:+ doubleQuote +:+ "hex-validator" +:+ doubleQuote
  +:+ " tests=" +:+ doubleQuote +:+ pretty (junit_tests st) +:+ doubleQuote
  +:+ " failures=" +:+ doubleQuote +:+ pretty (junit_failures st) +:+ doubleQuote
  +:+ ">" +:+ LF
  +:+ String.concat LF (junit_testcases st) +:+ LF +:+ "</testsuite>".

Definition junitXml (results : list PluginResult) : string :=
  junitDocument (fold_left junitStep results (mkJunitState 0 0 [])).

Definition junitReporter (results : list PluginResult) : list string :=
  [junitXml results +:+ LF].

(** *** Terminal *)

Definition noCodeKey : string := "general/no-code".

(** One turn of the loop of [groupMessages]. *)
Definition groupMessage (groups : list (string * list Message)) (msg : Message)
    : list (string * list Message) :=
  let key := default noCodeKey (msg_code msg) in
  let groups :=
    if negb (mapHas key groups) then mapSet key [] groups else groups in
  match mapGet key groups with
  | Some msgs => mapSet key (msgs ++ [msg]) groups
  | None => groups
  end.

Definition groupMessages (messages : list Message)
    : list (string * list Message) :=
  fold_left groupMessage messages [].

(** One turn of the loop of [groupFiles]. *)
Definition groupFile (files : list (string * list Z)) (msg : Message)
    : list (string * list Z) :=
  if negb (truthyOptString (msg_file msg)) then files
  else
    let file := default EmptyString (msg_file msg) in
    let files :=
      if negb (mapHas file files) then mapSet file [] files else files in
    match msg_line msg, mapGet file files with
    | Some line, Some lines => mapSet file (lines ++ [line]) files
    | _, _ => files
    end.

Definition groupFiles (messages : list Message) : list (string * list Z) :=
  fold_left groupFile messages [].

(** [[...new Set(lines)]]: each line once, in the order of first
    occurrence. *)
Definition setOf (lines : list Z) : list Z :=
  fold_left (λ seen x, if bool_decide (x ∈ seen) then seen else seen ++ [x])
    lines [].

(** [[...new Set(lines)].sort((a, b) => a - b)] *)
Definition sortedLines (lines : list Z) : list Z :=
  js_sort (λ a b, a - b) (setOf lines).

(** [c.repeat(n)] *)
Definition repeatString (c : string) (n : nat) : string :=
  String.concat EmptyString (replicate n c).

Definition statusIs (s : Status) (r : PluginResult) : bool :=
  bool_decide (res_status r = s).

Definition summaryWrites (results : list PluginResult) : list string :=
  let failed := List.filter (statusIs StatusFail) results in
  let warned := List.filter (statusIs StatusWarn) results in
  let passed := List.filter (statusIs StatusPass) results in
  let skipped := List.filter (statusIs StatusSkipped) results in
  [LF +:+ "Validation Pipeline Results" +:+ LF;
   "===========================" +:+ LF;
   "Tasks:    " +:+ pretty (length results) +:+ LF;
   "Passed:   " +:+ pretty (length passed) +:+ LF;
   "Skipped:  " +:+ pretty (length skipped) +:+ LF;
   "Warnings: " +:+ pretty (length warned) +:+ LF;
   "Failed:   " +:+ pretty (length failed) +:+ LF].

(** The line of one file of a violation. *)
Definition fileWrite (entry : string * list Z) : string :=
  let sorted := sortedLines entry.2 in
  let lineStr :=
    if (0 <? length sorted)%nat
    then ":" +:+ String.concat ", " (pretty <$> sorted) else EmptyString in
  "  - " +:+ entry.1 +:+ lineStr +:+ LF.

(** One turn of [for (const [code, msgs] of groups)]. *)
Definition groupWrites (group : string * list Message) : list string :=
  match group.2 with
  | [] => []
  | first :: _ =>
      let code := group.1 in
      let msgs := group.2 in
      let title :=
        if String.eqb code noCodeKey then "General Issue" else msg_message first in
      let fileMap := groupFiles msgs in
      [LF +:+ "Violation: " +:+ title +:+ LF;
       repeatString "-" (11 + String.length title) +:+ LF]
      ++ (if negb (String.eqb code noCodeKey)
          then ["Code:   " +:+ code +:+ LF] else [])
      ++ ["Impact: " +:+ pretty (length msgs) +:+ " instances across "
          +:+ pretty (length fileMap) +:+ " files" +:+ LF]
      ++ (if truthyOptString (msg_suggestion first)
          then ["Action: " +:+ default EmptyString (msg_suggestion first) +:+ LF]
          else [])
      ++ (if (0 <? length fileMap)%nat
          then (LF +:+ "Files:" +:+ LF) :: (fileWrite <$> fileMap) else [])
  end.

(** One turn of [for (const result of reportPlugins)]. *)
Definition resultWrites (result : PluginResult) : list string :=
  let isFail := bool_decide (res_status result = StatusFail) in
  let label := if isFail then "[FAIL]" else "[WARN]" in
  let header := label +:+ " " +:+ res_name result in
  [LF +:+ header +:+ LF; repeatString "=" (String.length header) +:+ LF]
  ++ match res_messages result with
     | Some (m :: ms) => concat (groupWrites <$> groupMessages (m :: ms))
     | _ =>
         (if truthyOptString (res_stdout result)
          then [LF +:+ default EmptyString (res_stdout result) +:+ LF] else [])
         ++ (if truthyOptString (res_stderr result)
             then [LF +:+ "stderr:" +:+ LF
                   +:+ default EmptyString (res_stderr result) +:+ LF]
             else [])
     end.

Definition terminalReporter (results : list PluginResult)
    (summaryOnly : option bool) : list string :=
  let failed := List.filter (statusIs StatusFail) results in
  let warned := List.filter (statusIs StatusWarn) results in
  summaryWrites results
  ++ (if truthyFlag summaryOnly then []
      else
        let reportPlugins := failed ++ warned in
        if (length reportPlugins =? 0)%nat then []
        else concat (resultWrites <$> reportPlugins) ++ [LF]).

(** ** Further vocabulary: the reporters *)

(** [s] has none of the characters [<], [>] and [&]. *)
Definition plainText (s : string) : Prop :=
  includesChar lessThan s = false ∧ includesChar greaterThan s = false
  ∧ includesChar ampersand s = false.

(** The key under which [groupMessages] files a message. *)
Definition messageKey (msg : Message) : string :=
  default noCodeKey (msg_code msg).

(** Position [i] of [s] starts an occurrence of [t]. *)
Definition startsAt (t s : string) (i : nat) : Prop :=
  ∃ pre post, s = pre +:+ t +:+ post ∧ String.length pre = i.

(** ** Subprocess checks that retry: [playwrightPlugin]

    The runs of the command are an oracle of their own, since a retry may
    end differently: [runs args n] is how the [n]-th run with these
    arguments ends, counting from 0; the command is taken to be spawned
    each time, so that its process closes. The wait between two attempts
    ([VALIDATOR_RETRY_DELAY_MS]) only takes time. The loop need not end:
    it is given [fuel], the number of turns it may take, and has no result
    ([None]) when it needs more. *)

(** What [run] resolves with: [{ code: code ?? 1, stdout, stderr }]. *)
Definition procResult (c : ProcClose) : Z * string * string :=
  (default 1 (close_code c), close_stdout c, close_stderr c).

(** [Number(process.env[name] ?? 0) || 0] *)
Definition envNumber (Number : string → JSNum) (env : list (string * string))
    (name : string) : JSNum :=
  let n :=
    match mapGet name env with
    | None => Num 0
    | Some text => Number text
    end in
  if truthyNum n then n else Num 0.

(** [attempt + 1] for the counter [attempt]: the sum is exact up to 2^53,
    and from 2^53 on it is rounded back to 2^53. *)
Definition maxCount : Z := 2 ^ 53.

Definition jsIncr (attempt : Z) : Z :=
  if attempt <? maxCount then attempt + 1 else attempt.

(** [while (res.code !== 0 && attempt < retries) { attempt += 1; res = await
    run(...) }], from the given [attempt] and [res], the outcome of the run
    number [n]: the number of the last run and the value of [res] after the
    loop. *)
Fixpoint retryLoop (run : nat → ProcClose) (retries : JSNum) (fuel : nat)
    (attempt : Z) (n : nat) (res : Z * string * string)
    : option (nat * (Z * string * string)) :=
  if negb (res.1.1 =? 0) && jsLt (Num attempt) retries then
    match fuel with
    | O => None
    | S fuel' =>
        retryLoop run retries fuel' (jsIncr attempt) (S n)
          (procResult (run (S n)))
    end
  else Some (n, res).

(** [let attempt = 0; let res = await run(...)] and the loop. *)
Definition runWithRetries (run : nat → ProcClose) (retries : JSNum)
    (fuel : nat) : option (nat * (Z * string * string)) :=
  retryLoop run retries fuel 0 0%nat (procResult (run 0%nat)).

(** [s] without the prefix [p], when it starts with it. *)
Fixpoint afterPrefix (p s : string) : option string :=
  match p, s with
  | EmptyString, _ => Some s
  | String a p', String b s' => if Ascii.eqb a b then afterPrefix p' s' else None
  | String _ _, EmptyString => None
  end.

Definition startsWith (p s : string) : bool :=
  match afterPrefix p s with Some _ => true | None => false end.

Definition slash : ascii := ascii_of_nat 47.

(** [s] after its longest prefix without a slash. *)
Fixpoint afterSegment (s : string) : string :=
  match s with
  | String c s' => if Ascii.eqb c slash then s else afterSegment s'
  | EmptyString => EmptyString
  end.

(** [/^src\/modules\/[^/]+\/(ui|server)\//.test(f)]: a run of [[^/]+]
    ends where the first slash is. *)
Definition modulesPattern (f : string) : bool :=
  match afterPrefix "src/modules/" f with
  | Some rest =>
      negb (startsWith "/" rest)
      && (startsWith "/ui/" (afterSegment rest)
          || startsWith "/server/" (afterSegment rest))
  | None => false
  end.

Definition e2ePatterns : list (string → bool) :=
  [startsWith "src/app/";
   modulesPattern;
   startsWith "src/styles/";
   String.eqb "next.config.ts";
   String.eqb "playwright.config.ts";
   startsWith "tests/e2e/"].

(** [files.some((f) => patterns.some((re) => re.test(f)))] *)
Definition anyMatch (files : list string) (patterns : list (string → bool))
    : bool :=
  existsb (λ f, existsb (λ re, re f) patterns) files.

Definition shouldRunE2E (ctx : PluginContext) (mode : E2EMode) : bool :=
  match mode with
  | E2EOff => false
  | E2EAlways => true
  | E2EAuto =>
      let files :=
        if bool_decide (ctx_scope ctx = ScopeStaged) then ctx_stagedFiles ctx
        else ctx_changedFiles ctx in
      anyMatch files e2ePatterns
  end.

Definition playwrightName : string := "E2E (playwright)".

(** [playwrightPlugin.run(ctx)]: the result, or [None] when the retry loop
    needs more than [fuel] turns. *)
Definition playwrightRun (w : World) (Number : string → JSNum)
    (toolCache : gmap string ToolInfo) (runs : list string → nat → ProcClose)
    (fuel : nat) (ctx : PluginContext) : option PluginResult :=
  let e2eMode := default E2EAuto (cv_e2e (ctx_config ctx)) in
  if negb (shouldRunE2E ctx e2eMode) then
    Some (mkPluginResult playwrightName StatusSkipped None None None None None None)
  else
    let toolInfo :=
      (getCachedToolInfo w toolCache "playwright" (Some (ctx_cwd ctx))).1 in
    if negb (tool_available toolInfo) then
      Some (mkPluginResult playwrightName StatusSkipped None
              (Some (String.concat LF
                       ["Playwright not found.";
                        "Install it with: pnpm add -D playwright";
                        ""; "This check is skipped for now."]))
              None (Some (w_elapsed w playwrightName)) None None)
    else
      let args := if ctx_ci ctx then ["run"; "test:e2e:ci"]
                  else ["run"; "test:e2e"] in
      let retries := envNumber Number (w_env w) "VALIDATOR_RETRIES" in
      match runWithRetries (runs args) retries fuel with
      | None => None
      | Some (_, res) =>
          Some (mkPluginResult playwrightName
                  (if bool_decide (res.1.1 = 0) then StatusPass else StatusFail)
                  None (Some res.1.2) (Some res.2) None None None)
      end.

(** ** Further vocabulary: retries and end-to-end files *)

(** The value of [attempt] after [n] runs have been added to the first. *)
Definition attemptAt (n : nat) : Z := Z.min (Z.of_nat n) maxCount.

(** After the run number [n] the loop may run the command again. *)
Definition canRetry (retries : JSNum) (n : nat) : bool :=
  jsLt (Num (attemptAt n)) retries.

(** The run number [n] is within the retries allowed. *)
Definition reachable (retries : JSNum) (n : nat) : Prop :=
  ∀ j, (j < n)%nat → canRetry retries j = true.

(** The loop ends with the run number [n]: the first run that exits with
    code 0 or after which no retry is allowed. *)
Definition stopsAt (run : nat → ProcClose) (retries : JSNum) (n : nat) : Prop :=
  (default 1 (close_code (run n)) = 0 ∨ canRetry retries n = false) ∧
  ∀ j, (j < n)%nat →
       default 1 (close_code (run j)) ≠ 0 ∧ canRetry retries j = true.

(** The exit code of the [n]-th run. *)
Definition runCode (run : nat → ProcClose) (n : nat) : Z :=
  default 1 (close_code (run n)).

(** A file whose change calls for the end-to-end tests. *)
Definition e2eFile (f : string) : Prop :=
  (∃ rest, f = "src/app/" +:+ rest)
  ∨ (∃ name rest, name ≠ EmptyString ∧ includesChar slash name = false
       ∧ (f = "src/modules/" +:+ name +:+ "/ui/" +:+ rest
          ∨ f = "src/modules/" +:+ name +:+ "/server/" +:+ rest))
  ∨ (∃ rest, f = "src/styles/" +:+ rest)
  ∨ f = "next.config.ts"
  ∨ f = "playwright.config.ts"
  ∨ (∃ rest, f = "tests/e2e/" +:+ rest).

(** The files [shouldRunE2E] looks at. *)
Definition filesInScope (ctx : PluginContext) : list string :=
  if bool_decide (ctx_scope ctx = ScopeStaged) then ctx_stagedFiles ctx
  else ctx_changedFiles ctx.

(** The end-to-end tests are called for: always, or by a file in scope. *)
Definition e2eWanted (ctx : PluginContext) : Prop :=
  let mode := default E2EAuto (cv_e2e (ctx_config ctx)) in
  mode = E2EAlways
  ∨ (mode = E2EAuto ∧ ∃ f, f ∈ filesInScope ctx ∧ e2eFile f).

(** ** Walking up the directories ([utils/fs-utils])

    Paths are absolute and normalized, a path being the list of its
    segments from the root ([/a/b] is [["a"; "b"]], the root is [[]]):
    [path.join(dir, name)] adds a segment and [path.dirname] removes the
    last one, the root being its own parent. [existsSync] is an oracle. *)

Definition Path := list string.

Definition joinPath (dir : Path) (name : string) : Path := dir ++ [name].
Definition dirname (p : Path) : Path := removelast p.

(** The loop of [findUpwards] from [current]: [Some None] is [null], and
    [None] a loop cut off after [fuel] turns. *)
Fixpoint findUpwardsFrom (existsSync : Path → bool) (fuel : nat)
    (current : Path) (filename : string) : option (option Path) :=
  let candidate := joinPath current filename in
  if existsSync candidate then Some (Some candidate)
  else
    let parent := dirname current in
    if bool_decide (parent = current) then Some None
    else
      match fuel with
      | O => None
      | S fuel' => findUpwardsFrom existsSync fuel' parent filename
      end.

(** One turn per segment of [start] is all the loop can take. *)
Definition findUpwards (existsSync : Path → bool) (start : Path)
    (filename : string) : option (option Path) :=
  findUpwardsFrom existsSync (length start) start filename.

Definition resolveWorkspaceRoot (existsSync : Path → bool) (cwd : Path)
    : option Path :=
  workspace ← findUpwards existsSync cwd "pnpm-workspace.yaml";
  match workspace with
  | Some found => Some (dirname found)
  | None =>
      rootPackage ← findUpwards existsSync cwd "package.json";
      match rootPackage with
      | Some found => Some (dirname found)
      | None => Some cwd
      end
  end.

(** The directory [dir] is [start] or above it and holds [filename]. *)
Definition holds (existsSync : Path → bool) (filename : string) (dir : Path)
    : Prop :=
  existsSync (joinPath dir filename) = true.

(** [dir] is the nearest of the directories from [start] upwards that
    holds [filename]. *)
Definition nearestHolder (existsSync : Path → bool) (start : Path)
    (filename : string) (dir : Path) : Prop :=
  dir `prefix_of` start ∧ holds existsSync filename dir ∧
  ∀ d, d `prefix_of` start → holds existsSync filename d →
       (length d ≤ length dir)%nat.

(** ** Worlds for the git scope resolver *)

(** A world in which git cannot be spawned: the working directory is gone,
    or no git is installed. *)
Definition noGitWorld : World :=
  mkWorld "/gone" [] 4 (λ _ _, GitSpawnError) (λ _ _, [])
    (λ _, []) (λ _ _ _, mkProcClose (Some 0) EmptyString EmptyString)
    (λ _ _, ProbeClosed (mkProcClose (Some 127) EmptyString EmptyString))
    (λ _, 0).

(** A repository with an upstream in which [git merge-base] exits with
    code 1 and no output, and [git diff --name-only HEAD~1..HEAD] lists one
    file. *)
Definition mergeBaseFailsWorld : World :=
  mkWorld "/repo" [] 4
    (λ args _,
       if bool_decide (args = upstreamArgs)
       then GitClosed (Some 0) (String.append "origin/main" LF)
       else if bool_decide (args = mergeBaseArgs)
       then GitClosed (Some 1) EmptyString
       else if bool_decide (args = diffArgs "HEAD~1..HEAD")
       then GitClosed (Some 0) (String.append "a.ts" LF)
       else GitClosed (Some 0) EmptyString)
    (λ _ _, [])
    (λ _, []) (λ _ _ _, mkProcClose (Some 0) EmptyString EmptyString)
    (λ _ _, ProbeClosed (mkProcClose (Some 127) EmptyString EmptyString))
    (λ _, 0).

(** A repository without an upstream: the lookup exits with code 128, and
    [git diff --name-only HEAD~1] lists one file. *)
Definition noUpstreamWorld : World :=
  mkWorld "/repo" [] 4
    (λ args _,
       if bool_decide (args = upstreamArgs)
       then GitClosed (Some 128) EmptyString
       else if bool_decide (args = diffArgs "HEAD~1")
       then GitClosed (Some 0) (String.append "a.ts" LF)
       else GitClosed (Some 0) EmptyString)
    (λ _ _, [])
    (λ _, []) (λ _ _ _, mkProcClose (Some 0) EmptyString EmptyString)
    (λ _ _, ProbeClosed (mkProcClose (Some 127) EmptyString EmptyString))
    (λ _, 0).

(** A pipeline of two stages of which the first has a crashed check. *)
Definition abortingConfig : ValidatorConfig :=
  mkValidatorConfig
    [errorStage;
     mkStageSpec "later" None [mkTaskSpec (constantPlugin "lint" StatusPass)] None]
    None None.

(** A check that reports under another name than its own, as [tscPlugin]
    (['Types (tsc)']) does when the compiler is missing: its result is
    named ['TypeScript']. *)
Definition renamingPlugin : Plugin :=
  mkPlugin "Types (tsc)"
    (λ _, mkPluginRun
            (Returned (mkPluginResult "TypeScript" StatusSkipped None
                         (Some "TypeScript (tsc) not found.") None (Some 0)
                         None None))
            0).

(** A parallel stage of two checks with names of their own, of which the
    first reports under another name. *)
Definition renamingStage : StageSpec :=
  mkStageSpec "checks" (Some true)
    [mkTaskSpec renamingPlugin; mkTaskSpec (constantPlugin "Biome" StatusPass)]
    None.

(** * Part II: properties *)

(** ** The monad *)

Lemma bind_run {A B : Type} (m : M A) (k : A → M B) (tr : list Event) :
  (m ≫= k) tr =
  match m tr with
  | (Some a, tr') => k a tr'
  | (None, tr') => (None, tr')
  end.
Proof. reflexivity. Qed.

Lemma ret_run {A : Type} (a : A) (tr : list Event) :
  (mret a : M A) tr = (Some a, tr).
Proof. reflexivity. Qed.

(** ** Numbers *)

Lemma jsLt_int (a b : Z) : jsLt (Num a) (Num b) = (a <? b).
Proof.
  unfold jsLt, Qcompare, Z.ltb. simpl. by rewrite !Z.mul_1_r.
Qed.

Lemma jsLt_Num (x y : Q) : jsLt (Num x) (Num y) = true ↔ (x < y)%Q.
Proof.
  unfold jsLt. rewrite Qlt_alt. by destruct (x ?= y)%Q.
Qed.

Lemma jsLt_Num_false (x y : Q) : jsLt (Num x) (Num y) = false ↔ (y <= x)%Q.
Proof.
  rewrite <-not_true_iff_false, jsLt_Num. split.
  - apply Qnot_lt_le.
  - apply Qle_not_lt.
Qed.

(** A smaller counter is below what a larger one is below. *)
Lemma jsLt_counter (a b : Z) (m : JSNum) :
  a ≤ b → jsLt (Num b) m = true → jsLt (Num a) m = true.
Proof.
  intros Hab. destruct m as [| | |q]; try done.
  rewrite !jsLt_Num. intros Hb.
  apply Qle_lt_trans with (y := inject_Z b); [|done].
  by rewrite <-Zle_Qle.
Qed.

Lemma truthyNum_false (a : JSNum) :
  truthyNum a = false ↔ a = NaN ∨ ∃ q, a = Num q ∧ (q == 0)%Q.
Proof.
  destruct a as [| | |q]; simpl.
  - split; [by left|done].
  - split; [done|]. by intros [|(? & ? & _)].
  - split; [done|]. by intros [|(? & ? & _)].
  - rewrite negb_false_iff, Qeq_bool_iff. split.
    + intros Hq. right. by exists q.
    + by intros [|(? & [= <-] & ?)].
Qed.

(** ** Stable sorting *)

Section JsSortFacts.
Context {A : Type} (cmp : A → A → Z).

Local Abbreviation cmpLe := (cmpLe cmp).

Lemma js_insert_perm x l : js_insert cmp x l ≡ₚ x :: l.
Proof.
  induction l as [|y l IH]; simpl; [done|].
  destruct (cmp x y <=? 0); [done|].
  rewrite IH. apply Permutation_swap.
Qed.

Lemma js_sort_perm l : js_sort cmp l ≡ₚ l.
Proof.
  induction l as [|x l IH]; simpl; [done|].
  by rewrite js_insert_perm, IH.
Qed.

Lemma js_sort_length l : length (js_sort cmp l) = length l.
Proof. by rewrite js_sort_perm. Qed.

Lemma elem_of_js_sort x l : x ∈ js_sort cmp l ↔ x ∈ l.
Proof. by rewrite js_sort_perm. Qed.

(** Elements with the same rank keep their relative order. *)
Lemma js_insert_filter (p : A → bool) x l :
  (∀ a b, p a = true → p b = true → cmp a b ≤ 0) →
  List.filter p (js_insert cmp x l) = List.filter p (x :: l).
Proof.
  intros Hp. induction l as [|y l IH]; simpl; [done|].
  destruct (cmp x y <=? 0) eqn:Hxy; simpl; [done|].
  apply Z.leb_gt in Hxy. simpl in IH. rewrite IH.
  destruct (p x) eqn:Hx, (p y) eqn:Hy; try done.
  specialize (Hp x y Hx Hy). lia.
Qed.

Lemma js_sort_stable (p : A → bool) l :
  (∀ a b, p a = true → p b = true → cmp a b ≤ 0) →
  List.filter p (js_sort cmp l) = List.filter p l.
Proof.
  intros Hp. induction l as [|x l IH]; simpl; [done|].
  rewrite js_insert_filter by done. simpl. by rewrite IH.
Qed.

Section Consistent.
Hypothesis cmp_total : ∀ a b, 0 < cmp a b → cmp b a ≤ 0.
Hypothesis cmp_trans : ∀ a b c, cmp a b ≤ 0 → cmp b c ≤ 0 → cmp a c ≤ 0.

Lemma js_insert_sorted x l :
  StronglySorted cmpLe l → StronglySorted cmpLe (js_insert cmp x l).
Proof.
  induction 1 as [|y l Hl IH Hy]; simpl.
  { repeat constructor. }
  destruct (cmp x y <=? 0) eqn:Hxy.
  - apply Z.leb_le in Hxy. constructor; [by constructor|].
    constructor; [done|].
    eapply Forall_impl; [exact Hy|]. intros z Hz. by eapply cmp_trans.
  - apply Z.leb_gt in Hxy. constructor; [done|].
    rewrite js_insert_perm. constructor; [|done].
    by apply cmp_total.
Qed.

Lemma js_sort_sorted l : StronglySorted cmpLe (js_sort cmp l).
Proof.
  induction l as [|x l IH]; simpl; [constructor|].
  by apply js_insert_sorted.
Qed.

(** A list that is already in strictly increasing order is what the
    sort returns for each of its permutations. *)
Lemma js_sort_unique l rs :
  l ≡ₚ rs →
  StronglySorted cmpLe rs →
  (∀ a b, a ∈ rs → b ∈ rs → cmp a b ≤ 0 → cmp b a ≤ 0 → a = b) →
  js_sort cmp l = rs.
Proof.
  intros Hperm Hrs Hanti.
  apply (StronglySorted_unique_strong cmpLe).
  - intros a b Ha Hb. apply Hanti; [|done].
    by rewrite elem_of_js_sort, Hperm in Ha.
  - apply js_sort_sorted.
  - done.
  - by rewrite js_sort_perm.
Qed.
End Consistent.
End JsSortFacts.

(** ** [sortResultsByTaskOrder] *)

Lemma indexOf_lookup n names i :
  indexOf n names = Some i → names !! i = Some n.
Proof.
  revert i. induction names as [|x names IH]; intros i; simpl; [done|].
  case_decide as Hx.
  - intros [= <-]. by subst.
  - destruct (indexOf n names) as [j|]; simpl; [|done].
    intros [= <-]. by apply IH.
Qed.

Lemma indexOf_first n names i j :
  indexOf n names = Some i → (j < i)%nat → names !! j ≠ Some n.
Proof.
  revert i j. induction names as [|x names IH]; intros i j; simpl; [done|].
  case_decide as Hx.
  - intros [= <-]. lia.
  - destruct (indexOf n names) as [k|] eqn:Hk; simpl; [|done].
    intros [= <-] Hj. destruct j as [|j]; simpl.
    + congruence.
    + eapply IH; [done|lia].
Qed.

Lemma indexOf_None n names : indexOf n names = None ↔ n ∉ names.
Proof.
  induction names as [|x names IH]; simpl.
  - split; [intros _; apply not_elem_of_nil|done].
  - rewrite not_elem_of_cons. case_decide as Hx.
    + split; [done|]. intros [? _]. congruence.
    + destruct (indexOf n names); simpl.
      * split; [done|]. intros [_ Hn]. by apply IH in Hn.
      * split; [|done]. intros _. split; [congruence|]. by apply IH.
Qed.

(** In a list without duplicates every name sits at its own index. *)
Lemma indexOf_NoDup names i n :
  NoDup names → names !! i = Some n → indexOf n names = Some i.
Proof.
  intros Hnd Hi.
  destruct (indexOf n names) as [j|] eqn:Hj.
  - apply indexOf_lookup in Hj. f_equal.
    by eapply NoDup_lookup.
  - apply indexOf_None in Hj. exfalso. apply Hj.
    by eapply list_elem_of_lookup_2.
Qed.

Lemma taskOrder_fold (k : nat) tasks (m : gmap string nat) n :
  fold_left taskOrderStep (imap (λ i, pair (k + i)%nat) tasks) m !! n =
  match m !! n with
  | Some v => Some v
  | None => (λ i, (k + i)%nat) <$> indexOf n (taskName <$> tasks)
  end.
Proof.
  revert k m. induction tasks as [|t tasks IH]; intros k m.
  { simpl. by destruct (m !! n). }
  rewrite fmap_cons. cbn [imap fold_left indexOf].
  rewrite (imap_ext _ (λ i, pair (S k + i)%nat)); last first.
  { intros i x _. simpl. f_equal. lia. }
  rewrite IH. unfold taskOrderStep. cbn [fst snd].
  assert (∀ o : option nat,
            (λ i, (S k + i)%nat) <$> o = (λ i, (k + i)%nat) <$> (S <$> o))
    as Hshift.
  { intros [i|]; simpl; [f_equal; lia|done]. }
  destruct (m !! taskName t) as [v|] eqn:Ht.
  - destruct (m !! n) as [v'|] eqn:Hn; [done|].
    case_decide as Hx; [congruence|]. apply Hshift.
  - case_decide as Hx.
    + subst n. rewrite lookup_insert_eq, Ht. simpl. f_equal; lia.
    + rewrite lookup_insert_ne by done.
      destruct (m !! n); [done|]. apply Hshift.
Qed.

(** The index recorded for a name is the position of the first task that
    carries it. *)
Lemma taskOrder_lookup tasks n :
  taskOrder tasks !! n = indexOf n (taskName <$> tasks).
Proof.
  unfold taskOrder.
  rewrite (imap_ext _ (λ i, pair (0 + i)%nat)) by done.
  rewrite taskOrder_fold, lookup_empty.
  by destruct (indexOf n (taskName <$> tasks)).
Qed.

Lemma compareByOrder_total order a b :
  0 < compareByOrder order a b → compareByOrder order b a ≤ 0.
Proof.
  unfold compareByOrder.
  destruct (order !! res_name a), (order !! res_name b); lia.
Qed.

Lemma compareByOrder_trans order a b c :
  compareByOrder order a b ≤ 0 → compareByOrder order b c ≤ 0 →
  compareByOrder order a c ≤ 0.
Proof.
  unfold compareByOrder.
  destruct (order !! res_name a), (order !! res_name b),
    (order !! res_name c); lia.
Qed.

Lemma compareByOrder_same_name order a b :
  res_name a = res_name b → compareByOrder order a b ≤ 0.
Proof.
  unfold compareByOrder. intros ->.
  destruct (order !! res_name b); lia.
Qed.

Lemma compareByOrder_antisym order a b :
  compareByOrder order a b ≤ 0 → compareByOrder order b a ≤ 0 →
  order !! res_name a = order !! res_name b.
Proof.
  unfold compareByOrder.
  destruct (order !! res_name a), (order !! res_name b); try lia; [|done].
  intros. f_equal. lia.
Qed.

Lemma StronglySorted_lookup_2 {A : Type} (R : relation A) (l : list A) :
  (∀ i j a b, l !! i = Some a → l !! j = Some b → (i < j)%nat → R a b) →
  StronglySorted R l.
Proof.
  induction l as [|x l IH]; intros H; constructor.
  - apply IH. intros i j a b Ha Hb Hij.
    apply (H (S i) (S j)); [done|done|lia].
  - apply Forall_forall. intros y Hy.
    apply list_elem_of_lookup_1 in Hy as [j Hj].
    apply (H 0%nat (S j)); [done|done|lia].
Qed.

(** With pairwise distinct task names, the result that carries the name of
    the task at position [i] has sort key [i]. *)
Lemma declared_key tasks rs i r :
  NoDup (taskName <$> tasks) →
  res_name <$> rs = taskName <$> tasks →
  rs !! i = Some r →
  taskOrder tasks !! res_name r = Some i.
Proof.
  intros Hnd Hnames Hi. rewrite taskOrder_lookup.
  apply indexOf_NoDup; [done|].
  by rewrite <-Hnames, list_lookup_fmap, Hi.
Qed.

Lemma declared_order_sorted tasks rs :
  NoDup (taskName <$> tasks) →
  res_name <$> rs = taskName <$> tasks →
  StronglySorted (cmpLe (compareByOrder (taskOrder tasks))) rs.
Proof.
  intros Hnd Hnames. apply StronglySorted_lookup_2.
  intros i j a b Ha Hb Hij. unfold cmpLe, compareByOrder.
  rewrite (declared_key tasks rs i a), (declared_key tasks rs j b) by done.
  lia.
Qed.

Lemma declared_order_antisym tasks rs a b :
  NoDup (taskName <$> tasks) →
  res_name <$> rs = taskName <$> tasks →
  a ∈ rs → b ∈ rs →
  compareByOrder (taskOrder tasks) a b ≤ 0 →
  compareByOrder (taskOrder tasks) b a ≤ 0 →
  a = b.
Proof.
  intros Hnd Hnames Ha Hb Hab Hba.
  apply list_elem_of_lookup_1 in Ha as [i Hi].
  apply list_elem_of_lookup_1 in Hb as [j Hj].
  pose proof (compareByOrder_antisym _ _ _ Hab Hba) as Hkey.
  rewrite (declared_key tasks rs i a), (declared_key tasks rs j b) in Hkey
    by done.
  congruence.
Qed.

(** Whatever order the results arrive in, with pairwise distinct task
    names the sort puts them in the order of the tasks. *)
Lemma sort_restores_declared_order tasks results rs :
  NoDup (taskName <$> tasks) →
  res_name <$> rs = taskName <$> tasks →
  results ≡ₚ rs →
  sortResultsByTaskOrder results tasks = rs.
Proof.
  intros Hnd Hnames Hperm. unfold sortResultsByTaskOrder.
  apply js_sort_unique.
  - apply compareByOrder_total.
  - apply compareByOrder_trans.
  - done.
  - by apply declared_order_sorted.
  - intros a b. by apply declared_order_antisym.
Qed.

Lemma StronglySorted_lookup_1 {A : Type} (R : relation A) (l : list A) i j a b :
  StronglySorted R l →
  l !! i = Some a → l !! j = Some b → (i < j)%nat → R a b.
Proof.
  intros Hs. revert i j.
  induction Hs as [|x l Hl IH Hx]; intros i j Ha Hb Hij; [done|].
  destruct i as [|i], j as [|j]; try lia; simpl in *.
  - injection Ha as <-. rewrite Forall_forall in Hx.
    apply Hx. by eapply list_elem_of_lookup_2.
  - apply (IH i j); [done|done|lia].
Qed.

(** C9, as the code has it. The re-sort of a parallel stage keys results
    by display name: the key of a result is the position of the first task
    with its name; the sorted list is a rearrangement of the results in the
    order of those keys; results with one name stay in the order they
    completed in; a result whose name is the name of no task has no key and
    comes behind the results that have one; and when the task names are
    pairwise distinct and the results carry them, the sorted list is the
    list of results in declaration order. *)
Theorem sortResultsByTaskOrder_keys_by_name tasks results :
  (∀ n, taskOrder tasks !! n = indexOf n (taskName <$> tasks)) ∧
  sortResultsByTaskOrder results tasks ≡ₚ results ∧
  StronglySorted (cmpLe (compareByOrder (taskOrder tasks)))
    (sortResultsByTaskOrder results tasks) ∧
  (∀ n, List.filter (λ r, String.eqb (res_name r) n)
          (sortResultsByTaskOrder results tasks)
        = List.filter (λ r, String.eqb (res_name r) n) results) ∧
  (∀ i j a b,
     sortResultsByTaskOrder results tasks !! i = Some a →
     sortResultsByTaskOrder results tasks !! j = Some b →
     (i < j)%nat →
     res_name a ∉ taskName <$> tasks → res_name b ∉ taskName <$> tasks) ∧
  (NoDup (taskName <$> tasks) →
   ∀ rs, res_name <$> rs = taskName <$> tasks → results ≡ₚ rs →
         sortResultsByTaskOrder results tasks = rs).
Proof.
  assert (StronglySorted (cmpLe (compareByOrder (taskOrder tasks)))
            (sortResultsByTaskOrder results tasks)) as Hsorted.
  { apply js_sort_sorted;
      [apply compareByOrder_total|apply compareByOrder_trans]. }
  split_and!.
  - apply taskOrder_lookup.
  - apply js_sort_perm.
  - done.
  - intros n. apply js_sort_stable. intros a b Ha Hb.
    apply String.eqb_eq in Ha, Hb. apply compareByOrder_same_name. congruence.
  - intros i j a b Ha Hb Hij Hnone.
    pose proof (StronglySorted_lookup_1 _ _ _ _ _ _ Hsorted Ha Hb Hij) as Hle.
    unfold cmpLe, compareByOrder in Hle.
    rewrite !taskOrder_lookup in Hle. apply indexOf_None in Hnone.
    rewrite Hnone in Hle. apply indexOf_None.
    destruct (indexOf (res_name b) (taskName <$> tasks)); [lia|done].
  - intros Hnd rs Hnames Hperm. by apply sort_restores_declared_order.
Qed.

(** The theorem at the stage of two checks, the results in the order of
    completion, the second check first. *)
Lemma sortResultsByTaskOrder_witness :
  sortResultsByTaskOrder
    (reverse (taskResult quietContext <$> stage_tasks pairStage))
    (stage_tasks pairStage)
  = taskResult quietContext <$> stage_tasks pairStage.
Proof.
  destruct (sortResultsByTaskOrder_keys_by_name (stage_tasks pairStage)
              (reverse (taskResult quietContext <$> stage_tasks pairStage)))
    as (_ & _ & _ & _ & _ & Hdeclared).
  apply Hdeclared.
  - simpl. apply NoDup_cons_2; [|apply NoDup_singleton].
    intros H%list_elem_of_singleton. discriminate H.
  - reflexivity.
  - apply reverse_Permutation.
Defined.

(** C9 as stated fails for a stage whose check names are pairwise distinct
    when a check reports under another name than its own: the name of the
    result is no key of the order, so the result goes behind those of the
    other checks. The first check of the stage is ['Types (tsc)'] and
    reports as ['TypeScript']; the results come back with its result
    last. *)
Lemma sortResultsByTaskOrder_renamed_result_last :
  let tasks := stage_tasks renamingStage in
  let results := taskResult quietContext <$> tasks in
  taskName <$> tasks = ["Types (tsc)"; "Biome"] ∧
  NoDup (taskName <$> tasks) ∧
  res_name <$> results = ["TypeScript"; "Biome"] ∧
  res_name <$> sortResultsByTaskOrder results tasks = ["Biome"; "TypeScript"] ∧
  sortResultsByTaskOrder results tasks ≠ results ∧
  runStage quietWorld quietContext (Num 2) 0 renamingStage []
  = (Some (reverse (declaredResults quietContext renamingStage)),
     [EvCheck "Types (tsc)"; EvCheck "Biome"]).
Proof.
  split_and!; try by vm_compute.
  simpl. apply NoDup_cons_2; [|apply NoDup_singleton].
  intros H%list_elem_of_singleton. discriminate H.
Qed.

(** ** The scheduler: one stage *)

Lemma runTask_run plugin ctx tr :
  runTask plugin ctx tr =
  (Some (Fulfilled (taskResult ctx (mkTaskSpec plugin))),
   tr ++ [EvCheck (plugin_name plugin)]).
Proof.
  unfold runTask, taskResult, taskName. simpl.
  rewrite bind_run. unfold emit.
  by destruct (run_outcome (plugin_run plugin ctx)).
Qed.

(** [runTask] never rejects, so the wrapper's handler is never entered. *)
Lemma wrappedTask_run ctx t tr :
  wrappedTask ctx t tr = (Some (taskResult ctx t), tr ++ [EvCheck (taskName t)]).
Proof.
  unfold wrappedTask. rewrite bind_run, runTask_run. by destruct t.
Qed.

Lemma runSequentialFrom_run ctx tasks out tr :
  runSequentialFrom out (wrappedTask ctx <$> tasks) tr =
  (Some (out ++ (taskResult ctx <$> tasks)), tr ++ startEvents tasks).
Proof.
  revert out tr. induction tasks as [|t tasks IH]; intros out tr.
  - simpl. by rewrite ret_run, !app_nil_r.
  - rewrite fmap_cons. cbn [runSequentialFrom].
    rewrite bind_run, wrappedTask_run, IH.
    unfold startEvents. rewrite !fmap_cons, <-!app_assoc. done.
Qed.

Lemma runSequential_run ctx tasks tr :
  runSequential (wrappedTask ctx <$> tasks) tr =
  (Some (taskResult ctx <$> tasks), tr ++ startEvents tasks).
Proof. unfold runSequential. by rewrite runSequentialFrom_run. Qed.

(** Starting tasks takes a prefix off the queue, in order; with a worker
    to spare and work to do, at least one task is started. *)
Lemma startTasks_run ctx maxWorkers tasks running :
  ∃ started waiting,
    tasks = started ++ waiting ∧
    (∀ tr, startTasks maxWorkers (wrappedTask ctx <$> tasks) running tr =
      (Some (wrappedTask ctx <$> waiting,
             running ++ (taskResult ctx <$> started)),
       tr ++ startEvents started)) ∧
    (hasWorker maxWorkers → running = [] → tasks ≠ [] → started ≠ []).
Proof.
  revert running. induction tasks as [|t tasks IH]; intros running.
  { exists [], []. split; [done|]. split; [|done].
    intros tr. simpl. by rewrite ret_run, !app_nil_r. }
  rewrite fmap_cons. cbn [startTasks].
  destruct (jsLt (Num (Z.of_nat (length running))) maxWorkers) eqn:Hfree.
  - destruct (IH (running ++ [taskResult ctx t]))
      as (started & waiting & -> & Hrun & _).
    exists (t :: started), waiting. split; [done|]. split; [|done].
    intros tr. rewrite bind_run, wrappedTask_run, Hrun.
    unfold startEvents. by rewrite !fmap_cons, <-!app_assoc.
  - exists [], (t :: tasks). split; [done|]. split.
    + intros tr. simpl. by rewrite ret_run, !app_nil_r.
    + intros Hmw ->. unfold hasWorker in Hmw.
      change (jsLt (Num 0) maxWorkers = false) in Hfree. congruence.
Qed.

Lemma settleNext_Some {T : Type} choice (running : list T) :
  running ≠ [] →
  ∃ res rest, settleNext choice running = Some (res, rest) ∧
              running ≡ₚ res :: rest.
Proof.
  intros Hne. unfold settleNext.
  set (i := if (choice <? length running)%nat then choice else 0%nat).
  assert (i < length running)%nat as Hi.
  { unfold i. destruct (choice <? length running)%nat eqn:Hc.
    - by apply Nat.ltb_lt.
    - destruct running; [done|simpl; lia]. }
  apply lookup_lt_is_Some_2 in Hi as [res Hres]. rewrite Hres.
  exists res, (delete i running). split; [done|].
  by apply delete_Permutation.
Qed.

(** With at least one worker, [pump] drains the queue: every task is
    started, in queue order, and every started task is collected. The
    results do not depend on the trace the run starts from. *)
Lemma pump_run ctx maxWorkers steps completion tasks running out :
  hasWorker maxWorkers →
  (length tasks + length running ≤ steps)%nat →
  ∃ out',
    (∀ tr, pump steps maxWorkers completion (wrappedTask ctx <$> tasks)
             running out tr = (Some out', tr ++ startEvents tasks)) ∧
    out' ≡ₚ out ++ running ++ (taskResult ctx <$> tasks).
Proof.
  intros Hmw. revert completion tasks running out.
  induction steps as [|steps IH]; intros completion tasks running out Hlen.
  { destruct tasks, running; simpl in Hlen; try lia.
    exists out. split; [|by rewrite !app_nil_r].
    intros tr. simpl. by rewrite ret_run, !app_nil_r. }
  destruct (decide (tasks = [] ∧ running = [])) as [[-> ->]|Hwork].
  { exists out. split; [|by rewrite !app_nil_r].
    intros tr. simpl. by rewrite ret_run, !app_nil_r. }
  assert (∀ tr, pump (S steps) maxWorkers completion (wrappedTask ctx <$> tasks)
            running out tr =
          (st ← startTasks maxWorkers (wrappedTask ctx <$> tasks) running;
           match settleNext (hd 0%nat completion) st.2 with
           | Some (res, running') =>
               pump steps maxWorkers (tl completion) st.1 running' (out ++ [res])
           | None => never
           end) tr) as Hstep.
  { intros tr. destruct tasks, running; try done. naive_solver. }
  destruct (startTasks_run ctx maxWorkers tasks running)
    as (started & waiting & -> & Hstart & Hsome).
  assert (running ++ (taskResult ctx <$> started) ≠ []) as Hflight.
  { destruct running as [|r running]; [|done].
    destruct started as [|t started]; [|done].
    exfalso. simpl in Hwork.
    destruct waiting; [naive_solver|]. by apply Hsome. }
  destruct (settleNext_Some (hd 0%nat completion) _ Hflight)
    as (res & rest & Hnext & Hperm).
  destruct (IH (tl completion) waiting rest (out ++ [res]))
    as (out' & Hpump & Hout).
  { apply Permutation_length in Hperm.
    rewrite length_app, length_fmap in Hperm. simpl in Hperm.
    rewrite length_app in Hlen. lia. }
  exists out'. split.
  - intros tr. rewrite Hstep, bind_run, Hstart. cbn [fst snd].
    rewrite Hnext, Hpump. unfold startEvents. by rewrite fmap_app, app_assoc.
  - rewrite Hout, fmap_app, <-!app_assoc. simpl.
    apply Permutation_app_head.
    rewrite (app_assoc running), Hperm. simpl.
    by rewrite Permutation_middle.
Qed.

Lemma runParallel_run ctx maxWorkers completion tasks :
  hasWorker maxWorkers →
  ∃ out,
    (∀ tr, runParallel (wrappedTask ctx <$> tasks) maxWorkers completion tr
             = (Some out, tr ++ startEvents tasks)) ∧
    out ≡ₚ taskResult ctx <$> tasks.
Proof.
  intros Hmw. unfold runParallel. rewrite length_fmap.
  destruct (pump_run ctx maxWorkers (length tasks) completion tasks [] [])
    as (out & Hrun & Hout); [done|simpl; lia|].
  exists out. by split.
Qed.

(** A stage returns: it runs each of its checks once, in declaration
    order, and its results are the stamped results of its checks, in
    declaration order when the stage is sequential. *)
Lemma runStage_run w ctx maxWorkers idx stage tr :
  hasWorker maxWorkers →
  runStage w ctx maxWorkers idx stage tr =
    (Some (stageRun w ctx maxWorkers idx stage),
     tr ++ startEvents (stage_tasks stage)) ∧
  stageRun w ctx maxWorkers idx stage ≡ₚ declaredResults ctx stage ∧
  (truthyFlag (stage_parallel stage) = false →
   stageRun w ctx maxWorkers idx stage = declaredResults ctx stage).
Proof.
  intros Hmw. unfold stageRun, runStage, declaredResults.
  rewrite !bind_run.
  destruct (truthyFlag (stage_parallel stage)) eqn:Hpar.
  - destruct (runParallel_run ctx maxWorkers (w_completion w idx)
                (stage_tasks stage) Hmw) as (out & Hrun & Hout).
    rewrite !Hrun, !ret_run. cbn [fst from_option id].
    split_and!; [done| |done].
    unfold sortResultsByTaskOrder. by rewrite js_sort_perm, Hout.
  - rewrite !runSequential_run, !ret_run. done.
Qed.

(** ** Settling computations *)

Lemma settles_ret {A : Type} (a : A) : settles (mret a) a [].
Proof. intros tr. by rewrite ret_run, app_nil_r. Qed.

Lemma settles_emit e : settles (emit e) tt [e].
Proof. by intros tr. Qed.

Lemma settles_bind {A B : Type} (m : M A) (k : A → M B) a evs b evs' :
  settles m a evs → settles (k a) b evs' → settles (m ≫= k) b (evs ++ evs').
Proof. intros Hm Hk tr. by rewrite bind_run, Hm, Hk, app_assoc. Qed.

Lemma runs_bind {A B : Type} (m : M A) (k : A → M B) a evs out evs' :
  settles m a evs → runs (k a) out evs' → runs (m ≫= k) out (evs ++ evs').
Proof. intros Hm Hk tr. by rewrite bind_run, Hm, Hk, app_assoc. Qed.

Lemma runs_bind_None {A B : Type} (m : M A) (k : A → M B) evs :
  runs m None evs → runs (m ≫= k) None evs.
Proof. intros Hm tr. by rewrite bind_run, Hm. Qed.

Lemma runs_inj {A : Type} (m : M A) out evs out' evs' :
  runs m out evs → runs m out' evs' → out = out' ∧ evs = evs'.
Proof.
  intros H1 H2. specialize (H1 []). rewrite (H2 []) in H1.
  by injection H1 as <- <-.
Qed.

(** ** Git scope resolver *)

Lemma issued_all w cwd cmds : allSpawn w cwd cmds = true → issued w cwd cmds = cmds.
Proof.
  induction cmds as [|c cmds IH]; simpl; [done|].
  intros [-> Hall]%andb_true_iff. by rewrite IH.
Qed.

Lemma gitAvailable_allSpawn w cwd cmds : gitAvailable w cwd → allSpawn w cwd cmds = true.
Proof.
  intros Hgit. unfold allSpawn. apply forallb_forall. intros c _. apply Hgit.
Qed.

Lemma git_runs w args cwd :
  runs (git w args (Some cwd))
    (if gitSpawns w args cwd
     then Some (gitCode w args cwd, gitStdout w args cwd) else None)
    [EvGit args cwd].
Proof.
  intros tr. unfold git, gitSpawns, gitCode, gitStdout. cbn [default from_option id].
  rewrite bind_run. unfold emit. by destruct (w_git w args cwd).
Qed.

Lemma git_settles w args cwd :
  gitSpawns w args cwd = true →
  settles (git w args (Some cwd))
    (gitCode w args cwd, gitStdout w args cwd) [EvGit args cwd].
Proof. intros Hspawn tr. by rewrite git_runs, Hspawn. Qed.

Lemma git_stops w args cwd :
  gitSpawns w args cwd = false → runs (git w args (Some cwd)) None [EvGit args cwd].
Proof. intros Hspawn tr. by rewrite git_runs, Hspawn. Qed.

Lemma getStagedFiles_runs w cwd :
  let dir := default (w_cwd w) cwd in
  runs (getStagedFiles w cwd)
    (if gitSpawns w stagedArgs dir then Some (diffFiles w stagedArgs dir)
     else None)
    [EvGit stagedArgs dir].
Proof.
  intros dir tr. unfold getStagedFiles, diffFiles. fold dir.
  rewrite bind_run, git_runs.
  destruct (gitSpawns w stagedArgs dir); [|done]. cbn [fst snd].
  case_bool_decide; by rewrite ret_run.
Qed.

Lemma getStagedFiles_settles w cwd :
  gitSpawns w stagedArgs (default (w_cwd w) cwd) = true →
  settles (getStagedFiles w cwd)
    (diffFiles w stagedArgs (default (w_cwd w) cwd))
    [EvGit stagedArgs (default (w_cwd w) cwd)].
Proof. intros Hspawn tr. by rewrite getStagedFiles_runs, Hspawn. Qed.

(** Without an upstream the merge base is not asked for. *)
Lemma hasUpstream_spawns w cwd :
  hasUpstream w cwd = true → gitSpawns w upstreamArgs cwd = true.
Proof.
  unfold hasUpstream, gitCode, gitSpawns.
  by destruct (w_git w upstreamArgs cwd).
Qed.

Lemma getChangedFilesAgainstUpstream_runs w cwd :
  let dir := default (w_cwd w) cwd in
  runs (getChangedFilesAgainstUpstream w cwd)
    (if allSpawn w dir (changedCommands w dir)
     then Some (diffFiles w (diffArgs (changedRange w dir)) dir) else None)
    ((λ args, EvGit args dir) <$> issued w dir (changedCommands w dir)).
Proof.
  intros dir tr. unfold getChangedFilesAgainstUpstream. fold dir.
  rewrite bind_run, git_runs.
  destruct (gitSpawns w upstreamArgs dir) eqn:Hup.
  2: { assert (hasUpstream w dir = false) as Hno.
       { destruct (hasUpstream w dir) eqn:Hhas; [|done].
         apply hasUpstream_spawns in Hhas. congruence. }
       unfold changedCommands. rewrite Hno.
       cbn [allSpawn forallb issued fmap list_fmap]. by rewrite Hup. }
  cbn [fst snd].
  unfold changedCommands, changedRange, diffFiles.
  assert ((bool_decide (gitCode w upstreamArgs dir ≠ 0)
           || negb (truthyString (trim (gitStdout w upstreamArgs dir))))
          = negb (hasUpstream w dir)) as ->.
  { unfold hasUpstream. rewrite negb_andb. f_equal.
    by repeat case_bool_decide. }
  destruct (hasUpstream w dir); cbn [negb].
  - rewrite bind_run, git_runs.
    cbn [allSpawn forallb issued]. rewrite Hup. cbn [andb].
    destruct (gitSpawns w mergeBaseArgs dir); [|by rewrite <-app_assoc].
    cbn [fst snd andb]. rewrite bind_run, git_runs.
    destruct (gitSpawns w (diffArgs _) dir); [|by rewrite <-!app_assoc].
    cbn [fst snd andb].
    case_bool_decide; rewrite ret_run, <-!app_assoc; done.
  - rewrite bind_run, git_runs.
    cbn [allSpawn forallb issued]. rewrite Hup. cbn [andb].
    destruct (gitSpawns w (diffArgs _) dir); [|by rewrite <-!app_assoc].
    cbn [fst snd andb].
    case_bool_decide; rewrite ret_run, <-!app_assoc; done.
Qed.

Lemma getChangedFilesAgainstUpstream_settles w cwd :
  let dir := default (w_cwd w) cwd in
  allSpawn w dir (changedCommands w dir) = true →
  settles (getChangedFilesAgainstUpstream w cwd)
    (diffFiles w (diffArgs (changedRange w dir)) dir)
    ((λ args, EvGit args dir) <$> changedCommands w dir).
Proof.
  intros dir Hall tr.
  rewrite getChangedFilesAgainstUpstream_runs. fold dir.
  by rewrite Hall, issued_all.
Qed.

(** ** The scheduler: the pipeline *)

Lemma emit_run e tr : emit e tr = (Some tt, tr ++ [e]).
Proof. reflexivity. Qed.

Lemma gitAvailable_contextSpawns w options :
  gitAvailable w (default (w_cwd w) (opt_cwd options)) → contextSpawns w options.
Proof. apply gitAvailable_allSpawn. Qed.

Lemma buildContext_runs w config options :
  runs (buildContext w config options)
    (if allSpawn w (default (w_cwd w) (opt_cwd options))
          (contextCommands w options)
     then Some (contextOf w config options) else None)
    (contextEvents w options).
Proof.
  intros tr. unfold buildContext, contextOf, contextEvents, contextCommands.
  set (cwd := default (w_cwd w) (opt_cwd options)).
  set (paths := match opt_paths options with
                | Some paths => [EvResolvePaths paths]
                | None => []
                end).
  rewrite bind_run.
  assert (∀ k : option (list string) → M PluginContext,
            match (match opt_paths options with
                   | Some paths =>
                       _ ← emit (EvResolvePaths paths);
                       mret (Some (w_resolvePathsToFiles w paths cwd))
                   | None => mret None
                   end) tr with
            | (Some a, tr') => k a tr'
            | (None, tr') => (None, tr')
            end
            = k ((λ paths, w_resolvePathsToFiles w paths cwd) <$> opt_paths options)
                (tr ++ paths)) as ->.
  { intros k. unfold paths. destruct (opt_paths options); simpl.
    - done.
    - by rewrite app_nil_r. }
  rewrite bind_run, (getStagedFiles_runs w (Some cwd)). cbn [default from_option id].
  cbn [allSpawn forallb issued fmap list_fmap].
  destruct (gitSpawns w stagedArgs cwd); [|by rewrite <-!app_assoc].
  cbn [andb]. rewrite bind_run.
  case_bool_decide.
  - rewrite !ret_run, <-!app_assoc. done.
  - rewrite (getChangedFilesAgainstUpstream_runs w (Some cwd)).
    cbn [default from_option id]. fold (allSpawn w cwd (changedCommands w cwd)).
    destruct (allSpawn w cwd (changedCommands w cwd)).
    + rewrite ret_run, <-!app_assoc. done.
    + rewrite <-!app_assoc. done.
Qed.

Lemma buildContext_settles w config options :
  contextSpawns w options →
  settles (buildContext w config options) (contextOf w config options)
    (contextEvents w options).
Proof. intros Hspawn tr. by rewrite buildContext_runs, Hspawn. Qed.

(** What the clamp of [runValidation] leaves of a request. *)
Lemma clamp_range (requested : JSNum) :
  requested ≠ NaN →
  ∃ q, jsMax (Num 1) (jsMin requested (Num 8)) = Num q
       ∧ (1 <= q)%Q ∧ (q <= 8)%Q
       ∧ (∀ x, requested = Num x → (1 <= x)%Q → (x <= 8)%Q → (q == x)%Q)
       ∧ (∀ x, requested = Num x → (8 <= x)%Q → (q == 8)%Q)
       ∧ (∀ x, requested = Num x → (x <= 1)%Q → q = 1%Q)
       ∧ (requested = PosInf → q = 8%Q)
       ∧ (requested = NegInf → q = 1%Q).
Proof.
  intros Hnan. destruct requested as [| | |x]; [done| | |].
  - exists 8%Q. cbn. split_and!; try done; lra.
  - exists 1%Q. cbn. split_and!; try done; lra.
  - unfold jsMin. destruct (jsLt (Num 8) (Num x)) eqn:H8.
    + apply jsLt_Num in H8. exists 8%Q. cbn.
      split; [done|]. split; [lra|]. split; [lra|]. split.
      { intros y [= <-] ? ?. lra. }
      split. { intros y _ _. lra. }
      split. { intros y [= <-] ?. lra. }
      by split.
    + apply jsLt_Num_false in H8. unfold jsMax.
      destruct (jsLt (Num 1) (Num x)) eqn:H1.
      * apply jsLt_Num in H1. exists x.
        split; [done|]. split; [lra|]. split; [lra|]. split.
        { intros y [= <-] ? ?. lra. }
        split. { intros y [= <-] ?. lra. }
        split. { intros y [= <-] ?. lra. }
        by split.
      * apply jsLt_Num_false in H1. exists 1%Q.
        split; [done|]. split; [lra|]. split; [lra|]. split.
        { intros y [= <-] ? ?. lra. }
        split. { intros y [= <-] ?. lra. }
        split. { by intros y _ _. }
        by split.
Qed.

Lemma requested_not_NaN w options :
  (if truthyNum (opt_maxWorkers options) then opt_maxWorkers options
   else Num (Z.min 4 (Z.max 2 (w_cpus w - 1)))) ≠ NaN.
Proof. by destruct (opt_maxWorkers options) as [| | |q]; simpl; try destruct (Qeq_bool q 0). Qed.

Lemma maxWorkersOf_range w options :
  ∃ q, maxWorkersOf w options = Num q ∧ (1 <= q)%Q ∧ (q <= 8)%Q.
Proof.
  destruct (clamp_range _ (requested_not_NaN w options))
    as (q & Hq & H1 & H8 & _).
  by exists q.
Qed.

Lemma maxWorkersOf_hasWorker w options : hasWorker (maxWorkersOf w options).
Proof.
  destruct (maxWorkersOf_range w options) as (q & -> & H1 & _).
  apply jsLt_Num. lra.
Qed.




(** The loop over the stages returns. It runs the stages up to and
    including the first that fails its policy, and no other. *)
Lemma runStages_run w ctx maxWorkers stages idx acc :
  hasWorker maxWorkers →
  ∃ ok n,
    (∀ tr, runStages w ctx maxWorkers idx stages acc tr =
       (Some (ok, acc ++ concat (imap (λ i, stageRun w ctx maxWorkers (idx + i))
                                    (take n stages))),
        tr ++ stageEvents (take n stages))) ∧
    ((ok = true ∧ n = length stages ∧
      ∀ i s, stages !! i = Some s → stagePasses w ctx maxWorkers (idx + i) s)
     ∨ (ok = false ∧ ∃ i s,
          n = S i ∧ stages !! i = Some s ∧
          ¬ stagePasses w ctx maxWorkers (idx + i) s ∧
          ∀ j s', (j < i)%nat → stages !! j = Some s' →
                  stagePasses w ctx maxWorkers (idx + j) s')).
Proof.
  intros Hmw. revert idx acc.
  induction stages as [|stage stages IH]; intros idx acc.
  { exists true, 0%nat. split.
    - intros tr. simpl. by rewrite ret_run, !app_nil_r.
    - left. by split_and!. }
  destruct (stageAborts stage (stageRun w ctx maxWorkers idx stage)) eqn:Habort.
  - exists false, 1%nat. split.
    + intros tr. cbn [runStages]. rewrite bind_run.
      destruct (runStage_run w ctx maxWorkers idx stage tr Hmw) as (-> & _ & _).
      rewrite Habort, ret_run. simpl. unfold stageEvents. simpl.
      by rewrite Nat.add_0_r, !app_nil_r.
    + right. split; [done|]. exists 0%nat, stage. split_and!; [done|done| |lia].
      unfold stagePasses. rewrite Nat.add_0_r. congruence.
  - destruct (IH (S idx) (acc ++ stageRun w ctx maxWorkers idx stage))
      as (ok & n & Hrun & Hcase).
    exists ok, (S n). split.
    + intros tr. cbn [runStages]. rewrite bind_run.
      destruct (runStage_run w ctx maxWorkers idx stage tr Hmw) as (-> & _ & _).
      rewrite Habort, Hrun. cbn [take imap concat].
      rewrite Nat.add_0_r, <-!app_assoc. unfold stageEvents.
      rewrite fmap_cons. cbn [concat]. rewrite <-?app_assoc.
      rewrite (imap_ext (_ ∘ S) (λ i, stageRun w ctx maxWorkers (S idx + i)));
        [done|].
      intros i s _. simpl. f_equal. lia.
    + destruct Hcase as [(-> & -> & Hall)|(-> & i & s & -> & Hs & Hfail & Hbefore)].
      * left. split_and!; [done|done|].
        intros [|i] s Hs; simpl in Hs.
        -- injection Hs as <-. by rewrite Nat.add_0_r.
        -- replace (idx + S i)%nat with (S idx + i)%nat by lia. by apply Hall.
      * right. split; [done|]. exists (S i), s. split_and!; [done|done| |].
        -- by replace (idx + S i)%nat with (S idx + i)%nat by lia.
        -- intros [|j] s' Hj Hs'; simpl in Hs'.
           ++ injection Hs' as <-. by rewrite Nat.add_0_r.
           ++ replace (idx + S j)%nat with (S idx + j)%nat by lia.
              apply Hbefore; [lia|done].
Qed.





(** [runValidation] in any world: when the git commands of the context can
    be spawned it returns, with the context it built and the stages it
    ran; when one cannot, the process ends with that command. *)
Lemma runValidation_runs w config options :
  let ctx := contextOf w config options in
  let mw := maxWorkersOf w options in
  let stages := cfg_stages config in
  let spawn :=
    allSpawn w (default (w_cwd w) (opt_cwd options)) (contextCommands w options) in
  ∃ ok n,
    runs (runValidation w config options)
      (if spawn then Some (ok, concat (imap (stageRun w ctx mw) (take n stages)))
       else None)
      (contextEvents w options
       ++ (if spawn then stageEvents (take n stages) else [])) ∧
    ((ok = true ∧ n = length stages ∧
      ∀ i s, stages !! i = Some s → stagePasses w ctx mw i s)
     ∨ (ok = false ∧ ∃ i s,
          n = S i ∧ stages !! i = Some s ∧ ¬ stagePasses w ctx mw i s ∧
          ∀ j s', (j < i)%nat → stages !! j = Some s' →
                  stagePasses w ctx mw j s')).
Proof.
  intros ctx mw stages spawn.
  destruct (runStages_run w ctx mw stages 0 [] (maxWorkersOf_hasWorker w options))
    as (ok & n & Hrun & Hcase).
  exists ok, n. split; [|done].
  intros tr. unfold runValidation.
  rewrite bind_run, buildContext_runs. fold spawn.
  destruct spawn.
  - fold ctx mw stages. by rewrite Hrun, app_assoc.
  - by rewrite app_nil_r.
Qed.

(** [runValidation] returns when the git commands of the context can be
    spawned. *)
Lemma runValidation_run w config options :
  let ctx := contextOf w config options in
  let mw := maxWorkersOf w options in
  let stages := cfg_stages config in
  contextSpawns w options →
  ∃ ok n,
    settles (runValidation w config options)
      (ok, concat (imap (stageRun w ctx mw) (take n stages)))
      (contextEvents w options ++ stageEvents (take n stages)) ∧
    ((ok = true ∧ n = length stages ∧
      ∀ i s, stages !! i = Some s → stagePasses w ctx mw i s)
     ∨ (ok = false ∧ ∃ i s,
          n = S i ∧ stages !! i = Some s ∧ ¬ stagePasses w ctx mw i s ∧
          ∀ j s', (j < i)%nat → stages !! j = Some s' →
                  stagePasses w ctx mw j s')).
Proof.
  intros ctx mw stages Hspawn.
  destruct (runValidation_runs w config options) as (ok & n & Hrun & Hcase).
  exists ok, n. split; [|done].
  intros tr. rewrite Hrun. unfold contextSpawns in Hspawn. by rewrite Hspawn.
Qed.





(** ** Crashed checks *)

Lemma elem_of_declaredResults ctx stage r :
  r ∈ declaredResults ctx stage ↔
  ∃ t, t ∈ stage_tasks stage ∧ r = withStage stage (taskResult ctx t).
Proof.
  unfold declaredResults. rewrite <-list_fmap_compose, list_elem_of_fmap.
  split; intros (t & H1 & H2); exists t; by split.
Qed.

Lemma runStage_settles w ctx maxWorkers idx stage :
  hasWorker maxWorkers →
  settles (runStage w ctx maxWorkers idx stage)
    (stageRun w ctx maxWorkers idx stage) (startEvents (stage_tasks stage)).
Proof. intros Hmw tr. by apply runStage_run. Qed.

Lemma stageRun_length w ctx maxWorkers idx stage :
  hasWorker maxWorkers →
  length (stageRun w ctx maxWorkers idx stage) = length (stage_tasks stage).
Proof.
  intros Hmw.
  destruct (runStage_run w ctx maxWorkers idx stage [] Hmw) as (_ & Hperm & _).
  rewrite Hperm. unfold declaredResults. by rewrite !length_fmap.
Qed.

(** C2, as the code has it. A check whose run throws is given a result by
    the scheduler, in its place among the results of the stage: status
    fail, first finding at error level, carrying the message of the thrown
    [Error], or the fixed text "Plugin crashed" when the thrown value is
    not an [Error]; the only other finding there can be is the stack of
    the [Error], at info level. The stage goes on: every check of the stage
    is run and every check has its result. *)
Theorem crashed_check_fails_and_stage_continues (w : World)
    (options : RunOptions) (ctx : PluginContext) (idx : nat)
    (stage : StageSpec) (t : TaskSpec) (err : Thrown) :
  t ∈ stage_tasks stage →
  run_outcome (plugin_run (task_plugin t) ctx) = Threw err →
  ∃ rs crash,
    settles (runStage w ctx (maxWorkersOf w options) idx stage) rs
      (startEvents (stage_tasks stage)) ∧
    length rs = length (stage_tasks stage) ∧
    crash ∈ rs ∧
    res_name crash = taskName t ∧
    res_status crash = StatusFail ∧
    res_messages crash =
      Some (plainMessage LevelError
              match err with
              | ThrownError _ message _ => message
              | ThrownOther _ => "Plugin crashed"
              end
            :: match err with
               | ThrownError _ _ (Some stack) =>
                   if truthyString stack then [plainMessage LevelInfo stack]
                   else []
               | _ => []
               end).
Proof.
  intros Ht Herr.
  pose proof (maxWorkersOf_hasWorker w options) as Hmw.
  exists (stageRun w ctx (maxWorkersOf w options) idx stage),
    (withStage stage (taskResult ctx t)).
  split_and!.
  - by apply runStage_settles.
  - by apply stageRun_length.
  - destruct (runStage_run w ctx (maxWorkersOf w options) idx stage [] Hmw)
      as (_ & Hperm & _).
    rewrite Hperm. apply elem_of_declaredResults. by exists t.
  - unfold taskResult. by rewrite Herr.
  - unfold taskResult. by rewrite Herr.
  - unfold taskResult. rewrite Herr. simpl.
    unfold crashMessages, crashText, crashStack.
    destruct err as [name message [stack|]|text]; try done.
    by destruct (truthyString stack).
Qed.

(** The theorem at a stage whose first check throws an [Error]. *)
Lemma crashed_check_witness :
  ∃ rs crash,
    settles (runStage quietWorld quietContext (maxWorkersOf quietWorld fullOptions)
               0 errorStage) rs (startEvents (stage_tasks errorStage)) ∧
    length rs = length (stage_tasks errorStage) ∧
    crash ∈ rs ∧
    res_name crash = "broken" ∧
    res_status crash = StatusFail ∧
    res_messages crash =
      Some [plainMessage LevelError "no such file";
            plainMessage LevelInfo "at run"].
Proof.
  apply (crashed_check_fails_and_stage_continues quietWorld fullOptions
           quietContext 0 errorStage (mkTaskSpec errorPlugin)
           (ThrownError "Error" "no such file" (Some "at run"))).
  - simpl. apply list_elem_of_here.
  - reflexivity.
Defined.

(** C2 as stated fails when the thrown value is not an [Error]: for
    [throw 'boom'] the error-level finding reads "Plugin crashed", not the
    text of the error. *)
Lemma crash_of_non_error_loses_text :
  ∃ r,
    runStage quietWorld quietContext (Num 1) 0 boomStage []
    = (Some [r], [EvCheck "boom"]) ∧
    res_status r = StatusFail ∧
    ¬ ∃ m, m ∈ findings r ∧ msg_level m = LevelError ∧
           msg_message m = errorText (ThrownOther "boom").
Proof.
  exists (withStage boomStage (taskResult quietContext (mkTaskSpec boomPlugin))).
  split; [by vm_compute|]. split; [reflexivity|].
  intros (m & Hm & _ & Htext). unfold findings in Hm. simpl in Hm.
  apply list_elem_of_singleton in Hm. subst m. discriminate Htext.
Qed.

(** ** Parallel stages *)

(** C3, as the code has it. In a parallel stage whose checks have pairwise
    distinct display names and report under them, the stamped results are
    in declaration order, whatever order the checks complete in. *)
Theorem parallel_stage_in_declaration_order (w : World) (options : RunOptions)
    (ctx : PluginContext) (idx : nat) (stage : StageSpec) :
  truthyFlag (stage_parallel stage) = true →
  NoDup (taskName <$> stage_tasks stage) →
  (∀ t, t ∈ stage_tasks stage → res_name (taskResult ctx t) = taskName t) →
  settles (runStage w ctx (maxWorkersOf w options) idx stage)
    (declaredResults ctx stage) (startEvents (stage_tasks stage)).
Proof.
  intros Hpar Hnd Hnames tr.
  unfold runStage, declaredResults. rewrite Hpar, bind_run.
  destruct (runParallel_run ctx (maxWorkersOf w options) (w_completion w idx)
              (stage_tasks stage) (maxWorkersOf_hasWorker w options))
    as (out & -> & Hout).
  rewrite ret_run. do 3 f_equal.
  apply sort_restores_declared_order; [done| |done].
  rewrite <-list_fmap_compose. apply list_fmap_ext.
  intros i t Hi. apply Hnames. by eapply list_elem_of_lookup_2.
Qed.

(** The theorem at a stage of two checks of which the second completes
    first. *)
Lemma parallel_stage_witness :
  settles (runStage youngestFirst quietContext
             (maxWorkersOf youngestFirst fullOptions) 0 pairStage)
    (declaredResults quietContext pairStage) (startEvents (stage_tasks pairStage)).
Proof.
  apply (parallel_stage_in_declaration_order youngestFirst fullOptions
           quietContext 0 pairStage).
  - reflexivity.
  - simpl. apply NoDup_cons_2; [|apply NoDup_singleton].
    intros H%list_elem_of_singleton. discriminate H.
  - intros t Ht. simpl in Ht.
    apply elem_of_cons in Ht as [->|Ht]; [reflexivity|].
    apply list_elem_of_singleton in Ht as ->. reflexivity.
Defined.

(** C3 as stated fails for a parallel stage in which two checks share a
    display name: when the second completes first, its result comes first. *)
Lemma parallel_stage_duplicate_names_completion_order :
  truthyFlag (stage_parallel dupStage) = true ∧
  ∃ rs evs,
    runStage youngestFirst quietContext (Num 2) 0 dupStage [] = (Some rs, evs) ∧
    rs = reverse (declaredResults quietContext dupStage) ∧
    rs ≠ declaredResults quietContext dupStage.
Proof.
  split; [reflexivity|].
  exists (reverse (declaredResults quietContext dupStage)),
    (startEvents (stage_tasks dupStage)).
  split; [by vm_compute|]. split; [reflexivity|]. by vm_compute.
Qed.

(** ** Status and findings *)







(** ** The scope of a run *)

Lemma gitCalls_app tr1 tr2 : gitCalls (tr1 ++ tr2) = gitCalls tr1 ++ gitCalls tr2.
Proof. unfold gitCalls. apply omap_app. Qed.

Lemma gitCalls_stageEvents stages : gitCalls (stageEvents stages) = [].
Proof.
  unfold stageEvents.
  induction stages as [|s stages IH]; csimpl; [done|].
  rewrite gitCalls_app, IH, app_nil_r. unfold startEvents.
  induction (stage_tasks s) as [|t ts IHt]; csimpl; done.
Qed.

Lemma gitCalls_git_events (cwd : string) (cmds : list (list string)) :
  gitCalls ((λ args, EvGit args cwd) <$> cmds) = (λ args, (args, cwd)) <$> cmds.
Proof. induction cmds as [|c cmds IH]; csimpl; [done|]. by rewrite IH. Qed.

Lemma gitCalls_contextEvents w options :
  gitCalls (contextEvents w options) =
  (λ args, (args, default (w_cwd w) (opt_cwd options)))
    <$> issued w (default (w_cwd w) (opt_cwd options)) (contextCommands w options).
Proof.
  unfold contextEvents. rewrite !gitCalls_app.
  assert (gitCalls match opt_paths options with
                   | Some paths => [EvResolvePaths paths]
                   | None => []
                   end = []) as -> by (by destruct (opt_paths options)).
  by rewrite gitCalls_git_events.
Qed.

(** C10. With scope staged the context's changed files are its staged
    files, and the only git command of the whole run is the staged diff:
    the upstream is never asked for. With any other scope, changed or
    full, the changed files are those [getChangedFilesAgainstUpstream]
    returns, and its commands, the upstream query first, follow the staged
    diff. The git commands are those of the context also where one of them
    cannot be spawned: the run then ends with that command. *)
Theorem staged_scope_skips_upstream_diff (w : World) (config : ValidatorConfig)
    (options : RunOptions) :
  let cwd := default (w_cwd w) (opt_cwd options) in
  ∃ ctx evs r evs',
    runs (buildContext w config options) ctx evs ∧
    runs (runValidation w config options) r evs' ∧
    gitCalls evs' = gitCalls evs ∧
    (contextSpawns w options → is_Some ctx ∧ is_Some r) ∧
    (opt_scope options = ScopeStaged →
       gitCalls evs' = [(stagedArgs, cwd)] ∧
       ∀ c, ctx = Some c → ctx_changedFiles c = ctx_stagedFiles c) ∧
    (opt_scope options ≠ ScopeStaged →
       (opt_scope options = ScopeChanged ∨ opt_scope options = ScopeFull) ∧
       (gitSpawns w stagedArgs cwd = false → gitCalls evs' = [(stagedArgs, cwd)]) ∧
       (gitSpawns w stagedArgs cwd = true →
        ∃ changed cmds,
          runs (getChangedFilesAgainstUpstream w (Some cwd)) changed
            ((λ args, EvGit args cwd) <$> (upstreamArgs :: cmds)) ∧
          gitCalls evs' =
            (stagedArgs, cwd) :: (upstreamArgs, cwd)
            :: ((λ args, (args, cwd)) <$> cmds) ∧
          ∀ c, ctx = Some c → changed = Some (ctx_changedFiles c))).
Proof.
  intros cwd.
  destruct (runValidation_runs w config options) as (ok & n & Hrun & _).
  eexists _, _, _, _. split; [apply buildContext_runs|].
  split; [exact Hrun|]. fold cwd.
  assert (gitCalls (contextEvents w options
                    ++ (if allSpawn w cwd (contextCommands w options)
                        then stageEvents (take n (cfg_stages config)) else []))
          = gitCalls (contextEvents w options)) as ->.
  { rewrite gitCalls_app.
    destruct (allSpawn _ _ _); [rewrite gitCalls_stageEvents|]; by rewrite app_nil_r. }
  clear Hrun. split; [done|]. split.
  { unfold contextSpawns. fold cwd. by intros ->. }
  rewrite gitCalls_contextEvents. fold cwd. unfold contextCommands. fold cwd.
  split.
  - intros Hscope. rewrite !bool_decide_eq_true_2 by done.
    split; [by destruct (gitSpawns w stagedArgs cwd) eqn:E; simpl; rewrite E|].
    intros c Hc. destruct (allSpawn _ _ _); [|done]. injection Hc as <-.
    unfold contextOf. simpl. by rewrite !bool_decide_eq_true_2 by done.
  - intros Hscope. split; [by destruct (opt_scope options); auto|].
    rewrite !bool_decide_eq_false_2 by done.
    cbn [issued allSpawn forallb fmap list_fmap].
    split; [by intros ->|]. intros ->. cbn [andb].
    pose proof (getChangedFilesAgainstUpstream_runs w (Some cwd)) as Hchanged.
    cbn [default from_option id] in Hchanged.
    assert (∃ cmds, issued w cwd (changedCommands w cwd) = upstreamArgs :: cmds)
      as [cmds Hcmds].
    { unfold changedCommands. destruct (hasUpstream w cwd); simpl; eauto. }
    rewrite Hcmds in Hchanged |- *.
    eexists _, cmds. split; [exact Hchanged|]. split; [done|].
    intros c Hc. fold (allSpawn w cwd (changedCommands w cwd)) in Hc |- *.
    destruct (allSpawn w cwd (changedCommands w cwd)); [|done].
    injection Hc as <-. unfold contextOf. simpl. fold cwd.
    by rewrite bool_decide_eq_false_2 by done.
Qed.

(** ** Git failures *)

(** C5, as the code has it. Where git can be spawned in the working
    directory both operations of the git scope resolver return, whatever
    the exit codes. [getStagedFiles] returns the empty list when its diff
    exits with a non-zero code, and the lines of the output otherwise.
    [getChangedFilesAgainstUpstream] asks for the upstream first; when that
    command exits non-zero or prints nothing it lists [git diff HEAD~1];
    otherwise it asks for the merge base, whose exit code it does not read,
    and lists the diff from the merge base printed, or from [HEAD~1] when
    nothing is printed. It returns the empty list when the diff that lists
    the files exits with a non-zero code, and the lines of the output
    otherwise. Both are empty where every git command fails, as outside a
    repository. *)
Theorem git_failure_yields_empty_list (w : World) (cwd : option string) :
  let dir := default (w_cwd w) cwd in
  let upstream := trim (gitStdout w upstreamArgs dir) in
  let base := trim (gitStdout w mergeBaseArgs dir) in
  gitAvailable w dir →
  ∃ staged changed cmds range,
    settles (getStagedFiles w cwd) staged [EvGit stagedArgs dir] ∧
    settles (getChangedFilesAgainstUpstream w cwd) changed
      ((λ args, EvGit args dir) <$> (upstreamArgs :: cmds ++ [diffArgs range])) ∧
    (gitCode w stagedArgs dir ≠ 0 → staged = []) ∧
    (gitCode w stagedArgs dir = 0 →
       staged = outputLines (gitStdout w stagedArgs dir)) ∧
    (gitCode w upstreamArgs dir ≠ 0 ∨ upstream = EmptyString →
       cmds = [] ∧ range = "HEAD~1") ∧
    (gitCode w upstreamArgs dir = 0 → upstream ≠ EmptyString →
       cmds = [mergeBaseArgs] ∧
       range = String.append (if truthyString base then base else "HEAD~1") "..HEAD") ∧
    (gitCode w (diffArgs range) dir ≠ 0 → changed = []) ∧
    (gitCode w (diffArgs range) dir = 0 →
       changed = outputLines (gitStdout w (diffArgs range) dir)) ∧
    ((∀ args, gitCode w args dir ≠ 0) → staged = [] ∧ changed = []).
Proof.
  intros dir upstream base Hgit.
  exists (diffFiles w stagedArgs dir),
    (diffFiles w (diffArgs (changedRange w dir)) dir),
    (if hasUpstream w dir then [mergeBaseArgs] else []),
    (changedRange w dir).
  assert (∀ args, gitCode w args dir ≠ 0 → diffFiles w args dir = []) as Hempty.
  { intros args Hcode. unfold diffFiles. by rewrite bool_decide_eq_true_2. }
  assert (∀ args, gitCode w args dir = 0 →
            diffFiles w args dir = outputLines (gitStdout w args dir)) as Hlines.
  { intros args Hcode. unfold diffFiles. rewrite bool_decide_eq_false_2; [done|].
    by intros []. }
  split_and!.
  - apply getStagedFiles_settles, Hgit.
  - pose proof (getChangedFilesAgainstUpstream_settles w cwd
                  (gitAvailable_allSpawn w dir _ Hgit)) as Hchanged.
    fold dir in Hchanged. unfold changedCommands in Hchanged.
    by destruct (hasUpstream w dir).
  - apply Hempty.
  - apply Hlines.
  - intros Hno.
    assert (hasUpstream w dir = false) as Hup.
    { unfold hasUpstream. destruct Hno as [Hcode|Hout].
      - by rewrite bool_decide_eq_false_2.
      - fold upstream. by rewrite Hout, andb_false_r. }
    unfold changedRange. by rewrite Hup.
  - intros Hcode Hout.
    assert (hasUpstream w dir = true) as Hup.
    { unfold hasUpstream. rewrite bool_decide_eq_true_2 by done.
      unfold upstream in Hout.
      by destruct (trim (gitStdout w upstreamArgs dir)). }
    unfold changedRange. by rewrite Hup.
  - apply Hempty.
  - apply Hlines.
  - intros Hall. split; apply Hempty, Hall.
Qed.

(** The theorem in a directory that is no repository: every git command
    exits with code 128, and both lists are empty. *)
Lemma git_failure_witness :
  ∃ staged changed cmds range,
    settles (getStagedFiles quietWorld None) staged [EvGit stagedArgs "/repo"] ∧
    settles (getChangedFilesAgainstUpstream quietWorld None) changed
      ((λ args, EvGit args "/repo")
         <$> (upstreamArgs :: cmds ++ [diffArgs range])) ∧
    staged = [] ∧ changed = [] ∧ cmds = [] ∧ range = "HEAD~1".
Proof.
  assert (gitAvailable quietWorld "/repo") as Hgit by (intros args; reflexivity).
  destruct (git_failure_yields_empty_list quietWorld None Hgit)
    as (staged & changed & cmds & range & Hs & Hc & _ & _ & Hno & _ & _ & _ & Hall).
  exists staged, changed, cmds, range.
  destruct Hall as [-> ->]; [done|].
  destruct Hno as [-> ->]; [by left|]. done.
Defined.

(** C5 as stated fails in two ways. A git command of
    [getChangedFilesAgainstUpstream] can exit with a non-zero code and the
    list be non-empty: [git merge-base] exits with code 1 and the files of
    [HEAD~1..HEAD] are returned, and the upstream lookup exits with code
    128 and the files of [git diff HEAD~1] are returned. And it is not for
    every working directory that the operations return: where git cannot
    be spawned the process ends with the first command. *)
Lemma git_failure_with_files :
  gitCode mergeBaseFailsWorld mergeBaseArgs "/repo" = 1 ∧
  getChangedFilesAgainstUpstream mergeBaseFailsWorld None []
  = (Some ["a.ts"],
     [EvGit upstreamArgs "/repo"; EvGit mergeBaseArgs "/repo";
      EvGit (diffArgs "HEAD~1..HEAD") "/repo"]) ∧
  gitCode noUpstreamWorld upstreamArgs "/repo" = 128 ∧
  getChangedFilesAgainstUpstream noUpstreamWorld None []
  = (Some ["a.ts"],
     [EvGit upstreamArgs "/repo"; EvGit (diffArgs "HEAD~1") "/repo"]) ∧
  getStagedFiles noGitWorld None [] = (None, [EvGit stagedArgs "/gone"]) ∧
  getChangedFilesAgainstUpstream noGitWorld None []
  = (None, [EvGit upstreamArgs "/gone"]).
Proof. by vm_compute. Qed.

(** ** Strings *)

Lemma append_nil (b : string) : String.append EmptyString b = b.
Proof. reflexivity. Qed.

Lemma append_cons x (a b : string) :
  String.append (String x a) b = String x (String.append a b).
Proof. reflexivity. Qed.

Ltac str_simpl := rewrite ?append_cons, ?append_nil in *; simpl in *.

Lemma append_assoc (a b c : string) :
  String.append (String.append a b) c = String.append a (String.append b c).
Proof. induction a as [|x a IH]; str_simpl; congruence. Qed.

Lemma length_append (a b : string) :
  String.length (String.append a b) = (String.length a + String.length b)%nat.
Proof. induction a as [|x a IH]; str_simpl; congruence. Qed.

Lemma append_empty_r (a : string) : String.append a EmptyString = a.
Proof. induction a as [|x a IH]; str_simpl; congruence. Qed.

Lemma length_zero (a : string) : String.length a = 0%nat → a = EmptyString.
Proof. by destruct a. Qed.

(** ** The version matcher *)

Lemma digitRun_split s : s = String.append (digitRun s) (afterDigits s).
Proof.
  induction s as [|c s IH]; simpl; [done|].
  destruct (isDigit c); str_simpl; [by rewrite <-IH|done].
Qed.

Lemma digitRun_digitsOnly s : digitsOnly (digitRun s) = true.
Proof.
  induction s as [|c s IH]; simpl; [done|].
  destruct (isDigit c) eqn:Hc; simpl; [by rewrite Hc|done].
Qed.

Lemma digitRun_append a r :
  digitsOnly a = true →
  digitRun (String.append a r) = String.append a (digitRun r)
  ∧ afterDigits (String.append a r) = afterDigits r.
Proof.
  induction a as [|c a IH]; [done|].
  intros [Hc Ha]%andb_true_iff. str_simpl. rewrite Hc.
  destruct (IH Ha) as [-> ->]. done.
Qed.

Lemma digitRun_nondigit c r :
  isDigit c = false →
  digitRun (String c r) = EmptyString ∧ afterDigits (String c r) = String c r.
Proof. intros Hc. simpl. by rewrite Hc. Qed.

Lemma truthyString_false s : truthyString s = false ↔ s = EmptyString.
Proof. by destruct s. Qed.

Lemma truthyString_true s : truthyString s = true ↔ s ≠ EmptyString.
Proof. by destruct s. Qed.

Lemma afterDot_Some s s' : afterDot s = Some s' → s = String.append "." s'.
Proof.
  destruct s as [|c s]; simpl; [done|].
  destruct (isDot c) eqn:Hc; [|done]. intros [= ->].
  unfold isDot in Hc. apply Nat.eqb_eq in Hc.
  f_equal. rewrite <-(ascii_nat_embedding c), Hc. done.
Qed.

Lemma matchTriple_sound s v :
  matchTriple s = Some v → versionNumber v ∧ ∃ post, s = String.append v post.
Proof.
  unfold matchTriple.
  destruct (truthyString (digitRun s)) eqn:Ha; simpl; [|done].
  destruct (afterDot (afterDigits s)) as [s1|] eqn:H1; [|done].
  destruct (truthyString (digitRun s1)) eqn:Hb; simpl; [|done].
  destruct (afterDot (afterDigits s1)) as [s2|] eqn:H2; [|done].
  destruct (truthyString (digitRun s2)) eqn:Hc; simpl; [|done].
  intros [= <-]. split.
  - exists (digitRun s), (digitRun s1), (digitRun s2).
    split_and!; try done; split;
      try (by apply truthyString_true); apply digitRun_digitsOnly.
  - exists (afterDigits s2).
    apply afterDot_Some in H1, H2.
    rewrite !append_assoc, <-(digitRun_split s2).
    rewrite <-H2, <-(digitRun_split s1).
    by rewrite <-H1, <-digitRun_split.
Qed.

Lemma dot_not_digit : isDigit "."%char = false.
Proof. reflexivity. Qed.

(** The match at the start of [s] is the longest version number there. *)
Lemma matchTriple_longest s v' post' :
  versionNumber v' → s = String.append v' post' →
  ∃ v, matchTriple s = Some v ∧ (String.length v' ≤ String.length v)%nat.
Proof.
  intros (a & b & c & [Ha Da] & [Hb Db] & [Hc Dc] & ->) ->.
  unfold matchTriple. rewrite !append_assoc, !append_cons, !append_nil.
  destruct (digitRun_append a (String "." (String.append b
              (String "." (String.append c post')))) Da) as [-> ->].
  simpl. rewrite append_empty_r.
  rewrite (proj2 (truthyString_true a) Ha). simpl.
  destruct (digitRun_append b (String "." (String.append c post')) Db)
    as [-> ->].
  simpl. rewrite append_empty_r.
  rewrite (proj2 (truthyString_true b) Hb). simpl.
  destruct (digitRun_append c post' Dc) as [-> _].
  assert (truthyString (String.append c (digitRun post')) = true) as ->.
  { apply truthyString_true. by destruct c. }
  simpl. eexists. split; [done|].
  rewrite !append_cons, !append_nil, !length_append. simpl.
  rewrite !length_append. simpl. rewrite !length_append. lia.
Qed.

Lemma versionNumber_starts_with_digit v :
  versionNumber v → ∃ c r, v = String c r ∧ isDigit c = true.
Proof.
  intros (a & b & c & [Ha Da] & _ & _ & ->).
  destruct a as [|x a]; [done|]. simpl in Da.
  apply andb_true_iff in Da as [Hx _].
  eexists _, _. split; [apply append_cons|done].
Qed.

Lemma isLowerV_eq c : isLowerV c = true → c = "v"%char.
Proof.
  unfold isLowerV. intros Hc%Nat.eqb_eq.
  by rewrite <-(ascii_nat_embedding c), Hc.
Qed.

Lemma isLowerV_not_digit c : isLowerV c = true → isDigit c = false.
Proof. intros ->%isLowerV_eq. reflexivity. Qed.

Lemma v_not_digit : isDigit "v"%char = false.
Proof. reflexivity. Qed.

(** At the start of [s] the matcher finds the longest match of the
    pattern, when there is one. *)
Lemma matchVersionAt_Some s v :
  matchVersionAt s = Some v →
  ∃ m post, s = String.append m post ∧ patternMatch m v ∧
    ∀ m' v' post', s = String.append m' post' → patternMatch m' v' →
                   (String.length m' ≤ String.length m)%nat.
Proof.
  destruct s as [|c s]; simpl; [done|].
  destruct (isLowerV c) eqn:Hc.
  - apply isLowerV_eq in Hc as ->.
    destruct (matchTriple s) as [v0|] eqn:Hs.
    + intros [= ->]. destruct (matchTriple_sound _ _ Hs) as (Hv & post & ->).
      exists (String.append "v" v), post. split_and!; [done|by split; [|right]|].
      intros m' v' post' Heq [Hv' [->| ->]].
      * destruct (versionNumber_starts_with_digit _ Hv') as (x & r & -> & Hx).
        simpl in Heq. injection Heq as <- _. done.
      * simpl in Heq. injection Heq as Heq.
        destruct (matchTriple_longest _ v' post' Hv' Heq) as (v1 & Hv1 & Hlen).
        rewrite Hs in Hv1. injection Hv1 as <-.
        rewrite !append_cons, !append_nil. simpl. lia.
    + unfold matchTriple. simpl. done.
  - intros Hs. destruct (matchTriple_sound _ _ Hs) as (Hv & post & Heq).
    exists v, post. split_and!; [done|by split; [|left]|].
    intros m' v' post' Heq' [Hv' [->| ->]].
    + destruct (matchTriple_longest _ v' post' Hv' Heq') as (v1 & Hv1 & Hlen).
      rewrite Hs in Hv1. by injection Hv1 as <-.
    + simpl in Heq'. injection Heq' as -> _. done.
Qed.

Lemma matchVersionAt_None s m v post :
  matchVersionAt s = None → s = String.append m post → ¬ patternMatch m v.
Proof.
  intros Hnone -> [Hv [->| ->]].
  - destruct (matchTriple_longest _ v post Hv eq_refl) as (v1 & Hv1 & _).
    destruct (versionNumber_starts_with_digit _ Hv) as (x & r & -> & Hx).
    simpl in Hnone, Hv1.
    destruct (isLowerV x) eqn:Hlow.
    + apply isLowerV_not_digit in Hlow. congruence.
    + congruence.
  - rewrite !append_cons, !append_nil in Hnone. simpl in Hnone.
    destruct (matchTriple_longest _ v post Hv eq_refl) as (v1 & Hv1 & _).
    by rewrite Hv1 in Hnone.
Qed.

Lemma matchVersion_unfold s :
  matchVersion s =
  match matchVersionAt s with
  | Some v => Some v
  | None => match s with
            | String _ s' => matchVersion s'
            | EmptyString => None
            end
  end.
Proof. by destruct s. Qed.

Lemma occursAt_zero s m :
  occursAt s 0 m ↔ ∃ post, s = String.append m post.
Proof.
  split.
  - intros (pre & post & -> & Hlen). apply length_zero in Hlen as ->.
    by exists post.
  - intros (post & ->). by exists EmptyString, post.
Qed.

Lemma occursAt_succ c s n m :
  occursAt (String c s) (S n) m ↔ occursAt s n m.
Proof.
  split.
  - intros (pre & post & Heq & Hlen).
    destruct pre as [|x pre]; [done|].
    rewrite append_cons in Heq. injection Heq as -> ->.
    exists pre, post. split; [done|]. simpl in Hlen. lia.
  - intros (pre & post & -> & Hlen).
    exists (String c pre), post. split; [done|]. simpl. lia.
Qed.

(** The leftmost match the matcher returns is the first occurrence of the
    pattern, and the matcher finds one whenever the pattern occurs. *)
Lemma matchVersion_Some s v :
  matchVersion s = Some v → ∃ m, firstOccurrence s m v.
Proof.
  induction s as [|c s IH]; rewrite matchVersion_unfold.
  { done. }
  destruct (matchVersionAt (String c s)) as [v0|] eqn:Hat.
  - intros [= ->].
    destruct (matchVersionAt_Some _ _ Hat) as (m & post & Heq & Hm & Hlong).
    exists m, 0%nat. split_and!.
    + apply occursAt_zero. by exists post.
    + done.
    + intros n' m' v' Hocc Hm'. split; [lia|]. intros ->.
      apply occursAt_zero in Hocc as (post' & Heq'). by eapply Hlong.
  - intros Hs. destruct (IH Hs) as (m & n & Hocc & Hm & Hfirst).
    exists m, (S n). split_and!.
    + by apply occursAt_succ.
    + done.
    + intros [|n'] m' v' Hocc' Hm'.
      * apply occursAt_zero in Hocc' as (post' & Heq').
        by destruct (matchVersionAt_None _ _ v' _ Hat Heq').
      * apply occursAt_succ in Hocc'.
        destruct (Hfirst n' m' v' Hocc' Hm') as [Hle Hlen].
        split; [lia|]. intros [= ->]. by apply Hlen.
Qed.

Lemma matchVersion_None s : matchVersion s = None → noOccurrence s.
Proof.
  induction s as [|c s IH]; rewrite matchVersion_unfold.
  - intros _ n m v (pre & post & Heq & _) [Hv Hm].
    destruct (versionNumber_starts_with_digit _ Hv) as (x & r & -> & _).
    destruct pre; [|done]. by destruct Hm as [->| ->].
  - destruct (matchVersionAt (String c s)) as [v0|] eqn:Hat; [done|].
    intros Hs [|n] m v Hocc.
    + apply occursAt_zero in Hocc as (post & Heq).
      by apply (matchVersionAt_None _ _ v _ Hat Heq).
    + apply occursAt_succ in Hocc. by apply (IH Hs n).
Qed.

(** Trimming cannot touch an occurrence of the pattern. *)

Lemma isSpace_not_pattern c :
  isSpace c = true → isDigit c = false ∧ isLowerV c = false ∧ isDot c = false.
Proof.
  unfold isSpace, isDigit, isLowerV, isDot. cbv zeta.
  generalize (nat_of_ascii c). intros n.
  rewrite !orb_true_iff, andb_true_iff, !Nat.leb_le, !Nat.eqb_eq. intros Hc.
  rewrite andb_false_iff, !Nat.leb_gt, !Nat.eqb_neq. lia.
Qed.

Lemma matchVersionAt_space c s : isSpace c = true → matchVersionAt (String c s) = None.
Proof.
  intros (Hd & Hv & _)%isSpace_not_pattern.
  simpl. rewrite Hv. unfold matchTriple. simpl. by rewrite Hd.
Qed.

Lemma matchVersion_trimStart s : matchVersion (trimStart s) = matchVersion s.
Proof.
  induction s as [|c s IH]; [done|]. cbn [trimStart].
  destruct (isSpace c) eqn:Hc; [|done].
  rewrite IH, (matchVersion_unfold (String c s)).
  by rewrite matchVersionAt_space.
Qed.

Lemma trimEnd_cons c s :
  trimEnd (String c s) =
  if isSpace c && negb (truthyString (trimEnd s)) then EmptyString
  else String c (trimEnd s).
Proof.
  cbn [trimEnd]. destruct (trimEnd s); simpl; by destruct (isSpace c).
Qed.

Lemma digitRun_trimEnd s : digitRun (trimEnd s) = digitRun s.
Proof.
  induction s as [|c s IH]; [done|]. rewrite trimEnd_cons.
  destruct (isSpace c && negb (truthyString (trimEnd s))) eqn:Hc; simpl.
  - apply andb_true_iff in Hc as [(-> & _ & _)%isSpace_not_pattern _]. done.
  - by rewrite IH.
Qed.

Lemma afterDigits_trimEnd s : afterDigits (trimEnd s) = trimEnd (afterDigits s).
Proof.
  induction s as [|c s IH]; [done|]. rewrite trimEnd_cons.
  destruct (isSpace c && negb (truthyString (trimEnd s))) eqn:Hc; simpl.
  - apply andb_true_iff in Hc as [Hsp Hs].
    destruct (isSpace_not_pattern _ Hsp) as (-> & _ & _).
    by rewrite trimEnd_cons, Hsp, Hs.
  - destruct (isDigit c); [done|]. by rewrite trimEnd_cons, Hc.
Qed.

Lemma afterDot_trimEnd s : afterDot (trimEnd s) = trimEnd <$> afterDot s.
Proof.
  destruct s as [|c s]; [done|]. rewrite trimEnd_cons.
  destruct (isSpace c && negb (truthyString (trimEnd s))) eqn:Hc; simpl.
  - apply andb_true_iff in Hc as [(_ & _ & ->)%isSpace_not_pattern _]. done.
  - by destruct (isDot c).
Qed.

Lemma matchTriple_trimEnd s : matchTriple (trimEnd s) = matchTriple s.
Proof.
  unfold matchTriple.
  rewrite digitRun_trimEnd, afterDigits_trimEnd, afterDot_trimEnd.
  destruct (afterDot (afterDigits s)) as [s1|]; simpl; [|done].
  rewrite digitRun_trimEnd, afterDigits_trimEnd, afterDot_trimEnd.
  destruct (afterDot (afterDigits s1)) as [s2|]; simpl; [|done].
  by rewrite digitRun_trimEnd.
Qed.

Lemma matchVersionAt_trimEnd s : matchVersionAt (trimEnd s) = matchVersionAt s.
Proof.
  destruct s as [|c s]; [done|].
  pose proof (matchTriple_trimEnd (String c s)) as Htriple.
  rewrite trimEnd_cons in *.
  destruct (isSpace c && negb (truthyString (trimEnd s))) eqn:Hc.
  - apply andb_true_iff in Hc as [Hsp _].
    by rewrite matchVersionAt_space.
  - simpl. by rewrite Htriple, matchTriple_trimEnd.
Qed.

Lemma matchVersion_trimEnd s : matchVersion (trimEnd s) = matchVersion s.
Proof.
  induction s as [|c s IH]; [done|].
  rewrite (matchVersion_unfold (String c s)), <-matchVersionAt_trimEnd, <-IH.
  rewrite trimEnd_cons.
  destruct (isSpace c && negb (truthyString (trimEnd s))) eqn:Hc.
  - apply andb_true_iff in Hc as [_ Hs].
    apply negb_true_iff, truthyString_false in Hs. by rewrite Hs.
  - by rewrite matchVersion_unfold.
Qed.

Lemma matchVersion_trim s : matchVersion (trim s) = matchVersion s.
Proof. unfold trim. by rewrite matchVersion_trimEnd, matchVersion_trimStart. Qed.

(** ** Tool prober *)

(** C6, as the code has it. [detectTool] never raises. It reports the tool
    as unavailable when the probe exits with a non-zero code, is killed at
    the timeout, or cannot be spawned. When the probe exits with code 0 the
    tool is available, and the version reported is the version number of
    the first occurrence of the pattern in stdout, without the [v] the
    occurrence may start with; when the pattern does not occur in stdout,
    that of its first occurrence in stderr; and none when it occurs in
    neither. *)
Theorem detectTool_availability_and_version (w : World) (command : string)
    (args : option (list string)) (cwd : option string) :
  let info := detectTool w command args cwd in
  let fullCommand :=
    String.append command
      (String.append " " (String.concat " " (default ["--version"] args))) in
  match w_probe w fullCommand (default (w_cwd w) cwd) with
  | ProbeSpawnError => info = mkToolInfo false None None
  | ProbeTimedOut _ _ => info = mkToolInfo false None None
  | ProbeClosed c =>
      if bool_decide (close_code c = Some 0) then
        tool_available info = true ∧
        tool_path info = Some command ∧
        match tool_version info with
        | Some v =>
            (∃ m, firstOccurrence (close_stdout c) m v)
            ∨ (noOccurrence (close_stdout c)
               ∧ ∃ m, firstOccurrence (close_stderr c) m v)
        | None => noOccurrence (close_stdout c) ∧ noOccurrence (close_stderr c)
        end
      else info = mkToolInfo false None None
  end.
Proof.
  intros info fullCommand. unfold info, detectTool. fold fullCommand.
  destruct (w_probe w fullCommand (default (w_cwd w) cwd)) as [c|out err|];
    [|done|done].
  unfold onProbeClose. case_bool_decide as Hcode; [|done].
  simpl. split; [done|]. split; [done|].
  destruct (matchVersion (trim (close_stdout c))) as [v|] eqn:Hout;
    rewrite matchVersion_trim in Hout.
  { left. by apply matchVersion_Some. }
  apply matchVersion_None in Hout.
  assert (matchVersion (close_stderr c) = None → noOccurrence (close_stderr c))
    as Hnone by apply matchVersion_None.
  destruct (truthyString (trim (close_stderr c))) eqn:Herr.
  - destruct (matchVersion (trim (close_stderr c))) as [v|] eqn:Hv;
      rewrite matchVersion_trim in Hv.
    + right. split; [done|]. by apply matchVersion_Some.
    + by split; [|apply Hnone].
  - split; [done|]. apply Hnone. apply truthyString_false in Herr.
    by rewrite <-matchVersion_trim, Herr.
Qed.

(** C6 as stated fails where the occurrence starts with [v]: for a probe
    that prints [v1.2.3] the first occurrence of the pattern is [v1.2.3],
    and the version reported is [1.2.3]. *)
Lemma detectTool_drops_leading_v :
  let info := detectTool versionWorld "node" None None in
  tool_available info = true ∧
  firstOccurrence "v1.2.3" "v1.2.3" "1.2.3" ∧
  tool_version info = Some "1.2.3" ∧
  tool_version info ≠ Some "v1.2.3".
Proof.
  split; [reflexivity|]. split; [|split; [reflexivity|discriminate]].
  exists 0%nat. split_and!.
  - by exists EmptyString, EmptyString.
  - split; [|by right]. exists "1", "2", "3". by split_and!.
  - intros n' m' v' (pre & post & Heq & _) _. split; [lia|]. intros _.
    apply (f_equal String.length) in Heq.
    rewrite !length_append in Heq. lia.
Qed.

(** ** Driver *)



(** An unknown reporter leaves the options as they are. *)
Lemma parseArg_unknownReporter h opts a :
  unknownReporter a → parseArg h opts a = opts.
Proof.
  intros [Hk Hv]. unfold parseArg.
  destruct (keyValue a) as [k v]. simpl in Hk, Hv. subst k.
  destruct opts. simpl. by rewrite Hv.
Qed.


(** One step of the case analysis [parseArg] makes on the key. *)
Ltac parseArg_key k s :=
  let Hk := fresh "Hk" in
  destruct (String.eqb k s) eqn:Hk;
  [apply String.eqb_eq in Hk|apply String.eqb_neq in Hk].

Ltac parseArg_keys k tac :=
  parseArg_key k "--scope"; [tac|];
  parseArg_key k "--e2e"; [tac|];
  parseArg_key k "--report"; [tac|];
  parseArg_key k "--max-workers"; [tac|];
  parseArg_key k "--quiet"; [tac|];
  parseArg_key k "--force"; [tac|];
  parseArg_key k "--verbose"; [tac|];
  parseArg_key k "--preset"; [tac|];
  parseArg_key k "--paths"; [tac|];
  parseArg_key k "--cwd"; [tac|];
  parseArg_key k "--help"; [tac|];
  parseArg_key k "-h"; [tac|];
  parseArg_key k "--version"; [tac|];
  parseArg_key k "-v"; [tac|].

(** Each flag writes its own field only. *)
Lemma parseArg_frame h opts a :
  (argKey a ≠ "--scope" → cli_scope (parseArg h opts a) = cli_scope opts) ∧
  (argKey a ≠ "--report" → cli_report (parseArg h opts a) = cli_report opts) ∧
  (¬ helpFlag a → cli_help (parseArg h opts a) = cli_help opts) ∧
  (¬ versionFlag a → cli_version (parseArg h opts a) = cli_version opts) ∧
  (cli_help opts = Some true → cli_help (parseArg h opts a) = Some true) ∧
  (cli_version opts = Some true → cli_version (parseArg h opts a) = Some true).
Proof.
  unfold helpFlag, versionFlag, argKey, parseArg.
  destruct (keyValue a) as [k v]. destruct opts. cbn [fst snd].
  parseArg_keys k ltac:(by repeat case_match; simpl; split_and!; intros; try tauto);
  simpl; split_and!; intros; tauto || done.
Qed.

Lemma parseArg_help h opts a : helpFlag a → cli_help (parseArg h opts a) = Some true.
Proof.
  unfold helpFlag, argKey, parseArg.
  destruct (keyValue a) as [k v]. destruct opts. simpl.
  by intros [-> | ->].
Qed.

Lemma parseArg_version h opts a :
  versionFlag a → cli_version (parseArg h opts a) = Some true.
Proof.
  unfold versionFlag, argKey, parseArg.
  destruct (keyValue a) as [k v]. destruct opts. simpl.
  by intros [-> | ->].
Qed.

Lemma parseArg_report h opts a r :
  argKey a = "--report" → reportOfString (argValue a) = Some r →
  cli_report (parseArg h opts a) = Some r.
Proof.
  unfold argKey, argValue, parseArg.
  destruct (keyValue a) as [k v]. destruct opts. simpl.
  by intros -> ->.
Qed.

Lemma parseArg_report_invalid h opts a :
  reportOfString (argValue a) = None →
  cli_report (parseArg h opts a) = cli_report opts.
Proof.
  intros Hv. destruct (decide (argKey a = "--report")) as [Hk|Hk].
  - by rewrite parseArg_unknownReporter.
  - by apply parseArg_frame.
Qed.

Lemma fold_parseArg_unchanged {A : Type} (f : CLIOptions → A)
    (P : string → Prop) h :
  (∀ opts a, ¬ P a → f (parseArg h opts a) = f opts) →
  ∀ args opts, (∀ a, a ∈ args → ¬ P a) →
    f (fold_left (parseArg h) args opts) = f opts.
Proof.
  intros Hstep args. induction args as [|a args IH]; intros opts Hargs; [done|].
  cbn [fold_left]. rewrite IH, Hstep; [done|..].
  - apply Hargs. left.
  - intros b Hb. apply Hargs. by right.
Qed.

Lemma fold_parseArg_sticky {A : Type} (f : CLIOptions → A) (x : A)
    (P : string → Prop) h :
  (∀ opts a, f opts = x → f (parseArg h opts a) = x) →
  (∀ opts a, P a → f (parseArg h opts a) = x) →
  ∀ args opts, (f opts = x ∨ ∃ a, a ∈ args ∧ P a) →
    f (fold_left (parseArg h) args opts) = x.
Proof.
  intros Hkeep Hset args.
  induction args as [|a args IH]; intros opts Hargs; cbn [fold_left].
  - destruct Hargs as [Hx|(a & Ha & _)]; [done|]. by apply elem_of_nil in Ha.
  - apply IH. destruct Hargs as [Hx|(b & Hb & HP)]; [left; by apply Hkeep|].
    apply elem_of_cons in Hb as [<-|Hb]; [left; by apply Hset|].
    right. by exists b.
Qed.

(** A run of the pipeline, step by step: the configuration is loaded, then
    the pipeline run, its results reported and the process ended with the
    exit code. *)
Lemma main_pipeline_run w h argv tr :
  runsPipeline h argv →
  main w h argv tr =
  match h_loadUserConfig h (cliCwd w h argv) with
  | Rejected err =>
      (Some tt, tr ++ [EvLoadConfig (cliCwd w h argv);
                       EvStderr (String.append (stringOfThrown err) LF);
                       EvExit 1])
  | Fulfilled loaded =>
      match runValidation w (default (h_nextjsPreset h) loaded)
              (cliOptions w h argv) (tr ++ [EvLoadConfig (cliCwd w h argv)]) with
      | (Some (ok, results), tr') =>
          (Some tt, tr' ++ [reportEvent (cliOptions w h argv) results;
                            EvExit (if ok : bool then 0 else 1)])
      | (None, tr') => (None, tr')
      end
  end.
Proof.
  unfold runsPipeline, cliOptions, cliCwd, cliMode, cliFlags, cliCommand.
  unfold main, mainBody.
  destruct (parseArgs h argv) as [cmd opts]. cbn [fst snd].
  intros (-> & -> & Hcmd).
  apply String.eqb_neq in Hcmd. rewrite Hcmd.
  rewrite !bind_run, emit_run.
  destruct (h_loadUserConfig h _) as [loaded|err].
  - rewrite bind_run.
    destruct (runValidation _ _ _ _) as [[[ok results]|] tr']; [|done].
    rewrite !bind_run. unfold report, reportEvent.
    destruct (opt_report _); rewrite emit_run, bind_run, emit_run, ret_run;
      by rewrite <-app_assoc.
  - rewrite ret_run, bind_run, emit_run, emit_run. by rewrite <-!app_assoc.
Qed.






(** ** Insertion-ordered maps *)

Section MapFacts.
Context {V : Type}.
Implicit Types (m : list (string * V)) (k : string) (v : V).

Lemma mapGet_mapSet_eq k v m : mapGet k (mapSet k v m) = Some v.
Proof.
  induction m as [|[k' v'] m IH]; simpl.
  - by rewrite String.eqb_refl.
  - destruct (String.eqb k k') eqn:Hk; simpl; by rewrite ?String.eqb_refl, ?Hk.
Qed.

Lemma mapGet_mapSet_ne k k' v m :
  k ≠ k' → mapGet k' (mapSet k v m) = mapGet k' m.
Proof.
  intros Hne. induction m as [|[k0 v0] m IH]; simpl.
  - by rewrite (proj2 (String.eqb_neq k' k)).
  - destruct (String.eqb k k0) eqn:Hk; simpl.
    + apply String.eqb_eq in Hk as <-.
      by rewrite (proj2 (String.eqb_neq k' k)).
    + by rewrite IH.
Qed.

Lemma mapGet_None k m : mapGet k m = None ↔ k ∉ fst <$> m.
Proof.
  induction m as [|[k' v'] m IH]; csimpl.
  - split; [intros _; apply not_elem_of_nil|done].
  - rewrite not_elem_of_cons. destruct (String.eqb_spec k k') as [->|Hne].
    + split; [done|]. by intros [? _].
    + rewrite IH. split; [by split|by intros [_ ?]].
Qed.

Lemma mapGet_elem_of k v m : mapGet k m = Some v → (k, v) ∈ m.
Proof.
  induction m as [|[k' v'] m IH]; simpl; [done|].
  destruct (String.eqb_spec k k') as [->|Hne].
  - intros [= ->]. apply list_elem_of_here.
  - intros Hm. apply list_elem_of_further. by apply IH.
Qed.

Lemma elem_of_mapGet k v m :
  NoDup (fst <$> m) → (k, v) ∈ m → mapGet k m = Some v.
Proof.
  induction m as [|[k' v'] m IH]; csimpl.
  - intros _ Hin. by apply not_elem_of_nil in Hin.
  - intros [Hk' Hnd]%NoDup_cons [[= -> ->]|Hin]%elem_of_cons.
    + by rewrite String.eqb_refl.
    + destruct (String.eqb_spec k k') as [->|Hne]; [|by apply IH].
      exfalso. apply Hk'. apply list_elem_of_fmap. by exists (k', v).
Qed.

Lemma mapSet_keys k v m :
  fst <$> mapSet k v m =
  if mapHas k m then fst <$> m else (fst <$> m) ++ [k].
Proof.
  unfold mapHas. induction m as [|[k' v'] m IH]; csimpl; [done|].
  destruct (String.eqb_spec k k') as [->|Hne]; csimpl; [done|].
  rewrite IH. by destruct (mapGet k m).
Qed.

Lemma mapSet_NoDup k v m : NoDup (fst <$> m) → NoDup (fst <$> mapSet k v m).
Proof.
  intros Hnd. rewrite mapSet_keys. unfold mapHas.
  destruct (mapGet k m) eqn:Hk; [done|].
  apply NoDup_app. split_and!; [done| |apply NoDup_singleton].
  intros x Hx ->%list_elem_of_singleton. by apply mapGet_None in Hk.
Qed.
End MapFacts.

(** ** The loop of the aggregator *)

Lemma membersOf_snoc c l x :
  membersOf c (l ++ [x]) =
  membersOf c l ++ (if decide (f_code x = c) then [x] else []).
Proof.
  unfold membersOf. by rewrite filter_app.
Qed.

Lemma recordedUnder_snoc k l x :
  recordedUnder k (l ++ [x]) =
  recordedUnder k l
  ++ (if decide (f_file x ≠ EmptyString ∧ fileKey x = k) then [x] else []).
Proof.
  unfold recordedUnder. by rewrite filter_app.
Qed.

Lemma FilesRecorded_nil : FilesRecorded [] [].
Proof. split; [constructor|done]. Qed.

Lemma recordFile_recorded ms fv x :
  FilesRecorded ms fv → FilesRecorded (ms ++ [x]) (recordFile x fv).
Proof.
  intros [Hnd Hfv]. unfold recordFile.
  destruct (truthyString (f_file x)) eqn:Hfile.
  - apply truthyString_true in Hfile. split; [by apply mapSet_NoDup|].
    intros k. rewrite recordedUnder_snoc.
    destruct (decide (fileKey x = k)) as [<-|Hne].
    + rewrite mapGet_mapSet_eq. simpl.
      rewrite decide_True by done. rewrite length_app. simpl.
      split; [|by destruct (recordedUnder _ ms)].
      specialize (Hfv (fileKey x)).
      destruct (mapGet (fileKey x) fv) as [d|]; simpl.
      * destruct Hfv as [-> _]. lia.
      * rewrite Hfv. simpl. lia.
    + rewrite mapGet_mapSet_ne by done.
      rewrite decide_False by (by intros [_ ?]). rewrite app_nil_r.
      apply Hfv.
  - apply truthyString_false in Hfile. split; [done|].
    intros k. rewrite recordedUnder_snoc.
    rewrite decide_False by (by intros [? _]). rewrite app_nil_r.
    apply Hfv.
Qed.

Lemma mostSevere_singleton x : mostSevere (f_level x) [x].
Proof.
  split.
  - exists x. split; [apply list_elem_of_here|done].
  - intros f ->%list_elem_of_singleton. lia.
Qed.

Lemma mostSevere_snoc level ms x :
  mostSevere level ms →
  mostSevere (if SEVERITY_ORDER (f_level x) <? SEVERITY_ORDER level
              then f_level x else level) (ms ++ [x]).
Proof.
  intros [(f & Hf & Hlevel) Hmin].
  destruct (SEVERITY_ORDER (f_level x) <? SEVERITY_ORDER level) eqn:Hlt.
  - apply Z.ltb_lt in Hlt. split.
    + exists x. split; [|done]. apply elem_of_app. right.
      apply list_elem_of_here.
    + intros f' [Hf'| ->%list_elem_of_singleton]%elem_of_app; [|lia].
      specialize (Hmin f' Hf'). lia.
  - apply Z.ltb_ge in Hlt. split.
    + exists f. split; [|done]. apply elem_of_app. by left.
    + intros f' [Hf'| ->%list_elem_of_singleton]%elem_of_app; [|done].
      by apply Hmin.
Qed.

(** The finding joins the group of its code. *)
Lemma updateGroup_existing l g x :
  GroupOf l (f_code x) g → GroupOf (l ++ [x]) (f_code x) (updateGroup x g).
Proof.
  intros (Hrule & Hcount & Hsev & Hfiles).
  unfold GroupOf. rewrite membersOf_snoc, decide_True by done. simpl.
  split_and!.
  - done.
  - rewrite Hcount, length_app. simpl. lia.
  - by apply mostSevere_snoc.
  - by apply recordFile_recorded.
Qed.

(** The finding is the first of the group of its code. *)
Lemma updateGroup_new l x :
  membersOf (f_code x) l = [] →
  GroupOf (l ++ [x]) (f_code x) (updateGroup x (newGroup x)).
Proof.
  intros Hnone.
  unfold GroupOf. rewrite membersOf_snoc, decide_True, Hnone by done. simpl.
  split_and!.
  - done.
  - done.
  - rewrite Z.ltb_irrefl. apply mostSevere_singleton.
  - apply (recordFile_recorded [] [] x), FilesRecorded_nil.
Qed.

Lemma GroupOf_other l c g x :
  f_code x ≠ c → GroupOf l c g → GroupOf (l ++ [x]) c g.
Proof.
  intros Hne. unfold GroupOf.
  by rewrite membersOf_snoc, decide_False, app_nil_r by done.
Qed.

Lemma addFinding_grouped l groupsMap x :
  Grouped l groupsMap → Grouped (l ++ [x]) (addFinding groupsMap x).
Proof.
  intros [Hnd Hgroups]. unfold addFinding, mapHas.
  pose proof (Hgroups (f_code x)) as Hx.
  destruct (mapGet (f_code x) groupsMap) as [g|] eqn:Hg; simpl.
  - rewrite Hg. split; [by apply mapSet_NoDup|].
    intros c. destruct (decide (f_code x = c)) as [<-|Hne].
    + rewrite mapGet_mapSet_eq. by apply updateGroup_existing.
    + rewrite mapGet_mapSet_ne by done. specialize (Hgroups c).
      destruct (mapGet c groupsMap).
      * by apply GroupOf_other.
      * by rewrite membersOf_snoc, decide_False, app_nil_r.
  - rewrite mapGet_mapSet_eq. split; [by do 2 apply mapSet_NoDup|].
    intros c. destruct (decide (f_code x = c)) as [<-|Hne].
    + rewrite mapGet_mapSet_eq. by apply updateGroup_new.
    + rewrite !mapGet_mapSet_ne by done. specialize (Hgroups c).
      destruct (mapGet c groupsMap).
      * by apply GroupOf_other.
      * by rewrite membersOf_snoc, decide_False, app_nil_r.
Qed.

Lemma groupFindings_grouped findings : Grouped findings (groupFindings findings).
Proof.
  unfold groupFindings.
  induction findings as [|x l IH] using rev_ind.
  - split; [constructor|done].
  - rewrite fold_left_app. simpl. by apply addFinding_grouped.
Qed.

(** ** The aggregator *)

Lemma SEVERITY_ORDER_inj a b : SEVERITY_ORDER a = SEVERITY_ORDER b → a = b.
Proof. by destruct a, b. Qed.

Lemma membersOf_nil c findings :
  membersOf c findings = [] ↔ c ∉ f_code <$> findings.
Proof.
  unfold membersOf. split.
  - intros Hnil (f & -> & Hf)%list_elem_of_fmap.
    assert (f ∈ filter (λ f', f_code f' = f_code f) findings) as Hin.
    { by apply list_elem_of_filter. }
    rewrite Hnil in Hin. by apply not_elem_of_nil in Hin.
  - intros Hc.
    destruct (filter (λ f, f_code f = c) findings) as [|f fs] eqn:Hfs; [done|].
    assert (f ∈ filter (λ f, f_code f = c) findings) as Hin.
    { rewrite Hfs. apply list_elem_of_here. }
    apply list_elem_of_filter in Hin as [<- Hin].
    exfalso. apply Hc, list_elem_of_fmap. by exists f.
Qed.

Lemma Grouped_elem findings groupsMap c g :
  Grouped findings groupsMap → (c, g) ∈ groupsMap → GroupOf findings c g.
Proof.
  intros [Hnd Hgroups] Hin. specialize (Hgroups c).
  by rewrite (elem_of_mapGet c g groupsMap Hnd Hin) in Hgroups.
Qed.

Lemma Grouped_keys findings groupsMap c :
  Grouped findings groupsMap →
  c ∈ fst <$> groupsMap ↔ c ∈ f_code <$> findings.
Proof.
  intros [Hnd Hgroups]. specialize (Hgroups c).
  destruct (mapGet c groupsMap) as [g|] eqn:Hg.
  - split; intros _.
    + destruct Hgroups as (_ & _ & [(f & Hf & _) _] & _).
      apply list_elem_of_filter in Hf as [<- Hf].
      apply list_elem_of_fmap. by exists f.
    + apply mapGet_elem_of in Hg. apply list_elem_of_fmap. by exists (c, g).
  - apply mapGet_None in Hg. apply membersOf_nil in Hgroups. done.
Qed.

Lemma StronglySorted_weaken {A : Type} (R R' : relation A) (l : list A) :
  (∀ a b, R a b → R' a b) → StronglySorted R l → StronglySorted R' l.
Proof.
  intros Himpl. induction 1 as [|x l Hl IH Hx]; constructor; [done|].
  eapply Forall_impl; [exact Hx|]. intros y. apply Himpl.
Qed.

Section AggregatorFacts.
Variable localeCompare : string → string → Z.
Hypothesis localeCompare_total :
  ∀ a b, 0 < localeCompare a b → localeCompare b a ≤ 0.
Hypothesis localeCompare_trans :
  ∀ a b c, localeCompare a b ≤ 0 → localeCompare b c ≤ 0 →
           localeCompare a c ≤ 0.

Lemma compareViolations_total a b :
  0 < compareViolations localeCompare a b →
  compareViolations localeCompare b a ≤ 0.
Proof.
  unfold compareViolations.
  destruct (SEVERITY_ORDER (rv_severity a) - SEVERITY_ORDER (rv_severity b) =? 0)
    eqn:Hab; simpl.
  - apply Z.eqb_eq in Hab.
    replace (SEVERITY_ORDER (rv_severity b) - SEVERITY_ORDER (rv_severity a))
      with 0 by lia.
    simpl. apply localeCompare_total.
  - apply Z.eqb_neq in Hab.
    destruct (SEVERITY_ORDER (rv_severity b) - SEVERITY_ORDER (rv_severity a) =? 0)
      eqn:Hba; simpl; [apply Z.eqb_eq in Hba|]; lia.
Qed.

Lemma compareViolations_le a b :
  compareViolations localeCompare a b ≤ 0 ↔ violationLe localeCompare a b.
Proof.
  unfold compareViolations, violationLe.
  destruct (SEVERITY_ORDER (rv_severity a) - SEVERITY_ORDER (rv_severity b) =? 0)
    eqn:Hab; simpl.
  - apply Z.eqb_eq in Hab. split.
    + intros Hle. right. split; [|done]. apply SEVERITY_ORDER_inj. lia.
    + intros [Hlt|[_ Hle]]; [lia|done].
  - apply Z.eqb_neq in Hab. split.
    + intros Hle. left. lia.
    + intros [Hlt|[Heq _]]; [lia|]. rewrite Heq in Hab. lia.
Qed.

Lemma compareViolations_trans a b c :
  compareViolations localeCompare a b ≤ 0 →
  compareViolations localeCompare b c ≤ 0 →
  compareViolations localeCompare a c ≤ 0.
Proof.
  rewrite !compareViolations_le. unfold violationLe.
  intros [Hab|[Hab Hab']] [Hbc|[Hbc Hbc']].
  - left. lia.
  - left. rewrite <-Hbc. done.
  - left. rewrite Hab. done.
  - right. split; [congruence|]. by eapply localeCompare_trans.
Qed.

Lemma toViolation_files_sorted group :
  StronglySorted (entryLe localeCompare)
    (rv_fileViolations (toViolation localeCompare group)).
Proof.
  simpl. apply (js_sort_sorted (compareFileEntries localeCompare)).
  - intros a b. apply localeCompare_total.
  - intros a b c. apply localeCompare_trans.
Qed.

(** C8, as the code has it. The aggregator makes one group per rule code.
    The groups are ordered by severity, error before warn before info,
    then by code. The severity of a group is the most severe level among
    its findings, and its count their number. The entries of a group are
    keyed by location, the file of a finding or [file:line] when the
    finding has a line, with one entry per location that a finding of the
    group names; they are ordered by key, and the count of an entry is the
    number of findings of the group at that location. Strings are ordered
    by the collation of the host. *)
Theorem aggregateByRule_groups (findings : list Finding) :
  let out := aggregateByRule localeCompare findings in
  NoDup (rv_rule <$> out) ∧
  (∀ c, c ∈ rv_rule <$> out ↔ c ∈ f_code <$> findings) ∧
  StronglySorted (violationLe localeCompare) out ∧
  ∀ g, g ∈ out →
    let members := membersOf (rv_rule g) findings in
    rv_count g = Z.of_nat (length members) ∧
    mostSevere (rv_severity g) members ∧
    StronglySorted (entryLe localeCompare) (rv_fileViolations g) ∧
    NoDup (fst <$> rv_fileViolations g) ∧
    (∀ k, k ∈ fst <$> rv_fileViolations g ↔ recordedUnder k members ≠ []) ∧
    (∀ k d, (k, d) ∈ rv_fileViolations g →
            fd_count d = Z.of_nat (length (recordedUnder k members))).
Proof.
  intros out.
  pose proof (groupFindings_grouped findings) as Hinv.
  set (groupsMap := groupFindings findings) in *.
  assert (out ≡ₚ toViolation localeCompare <$> (snd <$> groupsMap)) as Hperm.
  { apply js_sort_perm. }
  assert (rv_rule <$> (toViolation localeCompare <$> (snd <$> groupsMap))
          = fst <$> groupsMap) as Hrules.
  { rewrite <-!list_fmap_compose. apply list_fmap_ext.
    intros i [c g] Hi. simpl.
    apply list_elem_of_lookup_2 in Hi.
    by destruct (Grouped_elem _ _ _ _ Hinv Hi) as (-> & _). }
  split_and!.
  - rewrite Hperm, Hrules. apply Hinv.
  - intros c. rewrite Hperm, Hrules. by apply Grouped_keys.
  - apply (StronglySorted_weaken (cmpLe (compareViolations localeCompare))).
    + intros a b. apply compareViolations_le.
    + apply js_sort_sorted;
        [apply compareViolations_total|apply compareViolations_trans].
  - intros g Hg. rewrite Hperm in Hg.
    apply list_elem_of_fmap in Hg as (g0 & -> & Hg0).
    apply list_elem_of_fmap in Hg0 as ([c g1] & -> & Hin). simpl.
    destruct (Grouped_elem _ _ _ _ Hinv Hin)
      as (-> & Hcount & Hsev & Hnd & Hfiles).
    assert (∀ e, e ∈ js_sort (compareFileEntries localeCompare)
                       (rv_fileViolations g1)
                 ↔ e ∈ rv_fileViolations g1) as Hentries.
    { intros e. by rewrite js_sort_perm. }
    split_and!.
    + done.
    + done.
    + apply toViolation_files_sorted.
    + by rewrite js_sort_perm.
    + intros k. rewrite js_sort_perm. specialize (Hfiles k).
      destruct (mapGet k (rv_fileViolations g1)) as [d|] eqn:Hk.
      * split; [by intros _; apply Hfiles|]. intros _.
        apply mapGet_elem_of in Hk. apply list_elem_of_fmap. by exists (k, d).
      * apply mapGet_None in Hk. by rewrite Hfiles.
    + intros k d Hkd. apply Hentries in Hkd. specialize (Hfiles k).
      rewrite (elem_of_mapGet k d _ Hnd Hkd) in Hfiles. apply Hfiles.
Qed.
End AggregatorFacts.

Lemma ordinalCompare_le a b : ordinalCompare a b ≤ 0 ↔ String.le a b.
Proof.
  unfold ordinalCompare, String.le.
  destruct (String.eqb_spec a b) as [->|Hne].
  - split; [intros _|done]. by apply (reflexivity (R := String.le)).
  - destruct (String.leb a b); simpl; split; try done; lia.
Qed.

Lemma ordinalCompare_total a b :
  0 < ordinalCompare a b → ordinalCompare b a ≤ 0.
Proof.
  intros Hab. apply ordinalCompare_le.
  destruct (total String.le a b) as [Hle|Hle]; [|done].
  apply ordinalCompare_le in Hle. lia.
Qed.

Lemma ordinalCompare_trans a b c :
  ordinalCompare a b ≤ 0 → ordinalCompare b c ≤ 0 → ordinalCompare a c ≤ 0.
Proof.
  rewrite !ordinalCompare_le. apply (transitivity (R := String.le)).
Qed.

(** The theorem at two findings of one rule on two lines of a file, with
    strings compared by character codes. *)
Lemma aggregateByRule_witness :
  let out := aggregateByRule ordinalCompare twoLines in
  NoDup (rv_rule <$> out) ∧
  (∀ c, c ∈ rv_rule <$> out ↔ c ∈ f_code <$> twoLines) ∧
  StronglySorted (violationLe ordinalCompare) out ∧
  ∀ g, g ∈ out →
    let members := membersOf (rv_rule g) twoLines in
    rv_count g = Z.of_nat (length members) ∧
    mostSevere (rv_severity g) members ∧
    StronglySorted (entryLe ordinalCompare) (rv_fileViolations g) ∧
    NoDup (fst <$> rv_fileViolations g) ∧
    (∀ k, k ∈ fst <$> rv_fileViolations g ↔ recordedUnder k members ≠ []) ∧
    (∀ k d, (k, d) ∈ rv_fileViolations g →
            fd_count d = Z.of_nat (length (recordedUnder k members))).
Proof.
  exact (aggregateByRule_groups ordinalCompare ordinalCompare_total
           ordinalCompare_trans twoLines).
Defined.

(** C8 as stated fails on the entries of a group: two findings of one rule
    on lines 3 and 7 of a.ts give two entries, [a.ts:3] and [a.ts:7], each
    with count 1, and no entry for the file a.ts with count 2. *)
Lemma aggregateByRule_counts_per_location :
  ∃ g,
    aggregateByRule ordinalCompare twoLines = [g] ∧
    rv_fileViolations g =
      [("a.ts:3", mkFileData 1 [3]); ("a.ts:7", mkFileData 1 [7])] ∧
    length (filter (λ f, f_file f = "a.ts") (membersOf (rv_rule g) twoLines))
      = 2%nat ∧
    ¬ ∃ d, ("a.ts", d) ∈ rv_fileViolations g.
Proof.
  eexists. split; [by vm_compute|]. split; [done|]. split; [done|].
  intros (d & Hd). simpl in Hd.
  apply elem_of_cons in Hd as [[=]|Hd].
  apply list_elem_of_singleton in Hd. discriminate Hd.
Qed.

(** * Part III: further properties of the engine *)

(** ** The worker pool *)

(** The clamp at a whole number. *)
Lemma clamp_int (n : Z) :
  jsMax (Num 1) (jsMin (Num n) (Num 8)) = Num (Z.max 1 (Z.min n 8)).
Proof.
  change (Num 8) with (Num (inject_Z 8)).
  change (Num 1) with (Num (inject_Z 1)).
  unfold jsMin. rewrite jsLt_int.
  destruct (8 <? n) eqn:H8; [apply Z.ltb_lt in H8|apply Z.ltb_ge in H8];
    unfold jsMax; rewrite jsLt_int.
  - change (1 <? 8) with true. cbv iota. do 2 f_equal. lia.
  - destruct (1 <? n) eqn:H1; [apply Z.ltb_lt in H1|apply Z.ltb_ge in H1];
      do 2 f_equal; lia.
Qed.

(** X1. The number of workers [runValidation] uses is a number between 1
    and 8: a request within that range is honoured, a larger one gives 8,
    a smaller one other than 0 gives 1, and without a request (0 or [NaN])
    it is the number of processors less one, kept between 2 and 4. *)
Theorem maxWorkers_clamped (w : World) (options : RunOptions) :
  (∃ q, maxWorkersOf w options = Num q ∧ (1 <= q)%Q ∧ (q <= 8)%Q ∧
     (∀ x, opt_maxWorkers options = Num x → (1 <= x)%Q → (x <= 8)%Q →
           (q == x)%Q) ∧
     (∀ x, opt_maxWorkers options = Num x → (8 <= x)%Q → (q == 8)%Q) ∧
     (∀ x, opt_maxWorkers options = Num x → (x <= 1)%Q → ¬ (x == 0)%Q →
           (q == 1)%Q) ∧
     (opt_maxWorkers options = PosInf → (q == 8)%Q) ∧
     (opt_maxWorkers options = NegInf → (q == 1)%Q)) ∧
  (∀ n : Z, opt_maxWorkers options = Num n → 1 ≤ n ≤ 8 →
        maxWorkersOf w options = Num n) ∧
  (∀ n : Z, opt_maxWorkers options = Num n → 8 ≤ n →
        maxWorkersOf w options = Num 8) ∧
  (∀ n : Z, opt_maxWorkers options = Num n → n < 0 →
        maxWorkersOf w options = Num 1) ∧
  (opt_maxWorkers options = NaN
   ∨ (∃ x, opt_maxWorkers options = Num x ∧ (x == 0)%Q) →
   maxWorkersOf w options = Num (Z.min 4 (Z.max 2 (w_cpus w - 1)))).
Proof.
  assert (∀ x, ¬ (x == 0)%Q → truthyNum (Num x) = true) as Htruthy.
  { intros x Hx. simpl. destruct (Qeq_bool x 0) eqn:E; [|done].
    by apply Qeq_bool_iff in E. }
  assert (∀ n : Z, n ≠ 0 → truthyNum (Num n) = true) as Htruthy_int.
  { intros n Hn. apply Htruthy. intros Hq. apply Hn.
    by apply (inject_Z_injective n 0). }
  split; [|split_and!].
  - unfold maxWorkersOf.
    destruct (clamp_range _ (requested_not_NaN w options))
      as (q & Hq & H1 & H8 & Hin & Hhi & Hlo & Hpos & Hneg).
    exists q. split; [done|]. split; [done|]. split; [done|]. split_and!.
    + intros x Hx Hx1 Hx8. apply Hin; [|done..].
      rewrite Hx, Htruthy; [done|]. lra.
    + intros x Hx Hx8. apply (Hhi x); [|done].
      rewrite Hx, Htruthy; [done|]. lra.
    + intros x Hx Hx1 Hx0. rewrite (Hlo x); [reflexivity| |done].
      by rewrite Hx, Htruthy.
    + intros Hx. rewrite Hpos; [reflexivity|]. by rewrite Hx.
    + intros Hx. rewrite Hneg; [reflexivity|]. by rewrite Hx.
  - intros n Hn Hrange. unfold maxWorkersOf.
    rewrite Hn, Htruthy_int, clamp_int by lia. do 2 f_equal. lia.
  - intros n Hn Hrange. unfold maxWorkersOf.
    rewrite Hn, Htruthy_int, clamp_int by lia.
    change (Num 8) with (Num (inject_Z 8)). do 2 f_equal. lia.
  - intros n Hn Hrange. unfold maxWorkersOf.
    rewrite Hn, Htruthy_int, clamp_int by lia.
    change (Num 1) with (Num (inject_Z 1)). do 2 f_equal. lia.
  - intros Hx. unfold maxWorkersOf.
    assert (truthyNum (opt_maxWorkers options) = false) as ->.
    { destruct Hx as [->|(x & -> & Hx)]; [done|]. simpl.
      apply Qeq_bool_iff in Hx. by rewrite Hx. }
    rewrite clamp_int. do 2 f_equal. lia.
Qed.

Lemma hasWorker_Num (q : Q) : hasWorker (Num q) ↔ (0 < q)%Q.
Proof. apply jsLt_Num. Qed.

(** X2. Without a worker, that is unless [0 < maxWorkers] (so at 0, at a
    negative number and at [NaN]), [runParallel] never resolves when there
    is a task to run: no task is started and no callback is pending. *)
Theorem runParallel_without_worker_never_resolves {T : Type}
    (tasks : list (M T)) (maxWorkers : JSNum) (completion : list nat)
    (tr : list Event) :
  ¬ hasWorker maxWorkers → tasks ≠ [] →
  runParallel tasks maxWorkers completion tr = (None, tr).
Proof.
  intros Hmw Htasks. unfold runParallel.
  destruct tasks as [|t tasks]; [done|].
  cbn [length pump]. rewrite bind_run. cbn [startTasks length].
  change (jsLt (Num (Z.of_nat 0)) maxWorkers) with (jsLt (Num 0) maxWorkers).
  unfold hasWorker in Hmw. apply not_true_is_false in Hmw. rewrite Hmw.
  by rewrite ret_run.
Qed.

(** The theorem at one task and no worker. *)
Lemma runParallel_without_worker_witness :
  runParallel [wrappedTask quietContext (mkTaskSpec boomPlugin)] (Num 0) [] []
  = (None, [])
  ∧ runParallel [wrappedTask quietContext (mkTaskSpec boomPlugin)] NaN [] []
    = (None, []).
Proof.
  split.
  - apply (runParallel_without_worker_never_resolves
             [wrappedTask quietContext (mkTaskSpec boomPlugin)] (Num 0) [] []).
    + discriminate.
    + discriminate.
  - apply (runParallel_without_worker_never_resolves
             [wrappedTask quietContext (mkTaskSpec boomPlugin)] NaN [] []).
    + discriminate.
    + discriminate.
Defined.

(** X3. With a worker, that is when [0 < maxWorkers], [runParallel]
    resolves: it starts every task once, in queue order, and collects the
    result of every task once. An empty queue resolves at once, whatever
    the number of workers. *)
Theorem runParallel_runs_each_task_once (ctx : PluginContext)
    (tasks : list TaskSpec) (maxWorkers : JSNum) (completion : list nat) :
  (hasWorker maxWorkers ∨ tasks = []) →
  ∃ out,
    settles (runParallel (wrappedTask ctx <$> tasks) maxWorkers completion)
      out (startEvents tasks) ∧
    out ≡ₚ taskResult ctx <$> tasks.
Proof.
  intros [Hmw| ->].
  - destruct (runParallel_run ctx maxWorkers completion tasks Hmw)
      as (out & Hrun & Hout).
    by exists out.
  - exists []. split; [|done]. intros tr.
    unfold runParallel. simpl. by rewrite ret_run, app_nil_r.
Qed.

(** The theorem at two tasks and two workers, the second task completing
    first. *)
Lemma runParallel_runs_each_task_once_witness :
  ∃ out,
    settles (runParallel (wrappedTask quietContext <$> stage_tasks pairStage)
               (Num 2) [1%nat]) out (startEvents (stage_tasks pairStage)) ∧
    out ≡ₚ taskResult quietContext <$> stage_tasks pairStage.
Proof.
  apply (runParallel_runs_each_task_once quietContext (stage_tasks pairStage)
           (Num 2) [1%nat]).
  left. reflexivity.
Defined.

(** X4. A pool of one worker runs the tasks one after the other: the
    results are in queue order, whatever the completion choices. *)
Theorem runParallel_single_worker_in_order (ctx : PluginContext)
    (tasks : list TaskSpec) (completion : list nat) :
  settles (runParallel (wrappedTask ctx <$> tasks) (Num 1) completion)
    (taskResult ctx <$> tasks) (startEvents tasks).
Proof.
  unfold runParallel. rewrite length_fmap.
  assert (∀ steps completion' out,
            (length tasks ≤ steps)%nat →
            settles (pump steps (Num 1) completion' (wrappedTask ctx <$> tasks) [] out)
              (out ++ (taskResult ctx <$> tasks)) (startEvents tasks)) as Hpump.
  { clear completion. induction tasks as [|t tasks IH];
      intros steps completion out Hlen tr.
    - destruct steps; simpl; by rewrite ret_run, !app_nil_r.
    - destruct steps as [|steps]; [simpl in Hlen; lia|].
      rewrite fmap_cons. cbn [pump]. rewrite bind_run.
      cbn [startTasks length].
      change (jsLt (Num (Z.of_nat 0)) (Num 1)) with true. cbv iota.
      rewrite bind_run, wrappedTask_run.
      assert (startTasks (Num 1) (wrappedTask ctx <$> tasks)
                ([] ++ [taskResult ctx t]) (tr ++ [EvCheck (taskName t)])
              = (Some (wrappedTask ctx <$> tasks, [taskResult ctx t]),
                 tr ++ [EvCheck (taskName t)])) as ->.
      { destruct tasks; [done|]. by rewrite fmap_cons. }
      cbn [fst snd].
      assert (settleNext (hd 0%nat completion) [taskResult ctx t]
              = Some (taskResult ctx t, [])) as ->.
      { unfold settleNext. by destruct (hd 0%nat completion) as [|[|c]]. }
      rewrite IH by (simpl in Hlen; lia).
      unfold startEvents. rewrite !fmap_cons, <-!app_assoc. done. }
  intros tr. by rewrite Hpump.
Qed.

(** X5. The loop of [pump] that starts tasks takes them off the front of
    the queue. It starts a task only while the number of tasks in flight is
    below [maxWorkers], so when it has started one, the number in flight
    less one is below [maxWorkers]: for a whole number of workers it never
    lets the tasks in flight exceed that number (unless they already did),
    and for a fraction it goes one beyond the whole part (three tasks at
    2.5). It stops with tasks left in the queue only when the number in
    flight is not below [maxWorkers]. *)
Theorem startTasks_respects_worker_bound {T : Type} (maxWorkers : JSNum)
    (queue : list (M T)) (running : list T) (tr : list Event)
    (queue' : list (M T)) (running' : list T) (tr' : list Event) :
  startTasks maxWorkers queue running tr = (Some (queue', running'), tr') →
  (∃ started new,
     queue = started ++ queue' ∧ running' = running ++ new ∧
     length new = length started ∧
     (new ≠ [] →
      jsLt (Num (Z.of_nat (length running') - 1)%Z) maxWorkers = true)) ∧
  (∀ n : Z, maxWorkers = Num n →
     Z.of_nat (length running') ≤ Z.max n (Z.of_nat (length running))) ∧
  (queue' ≠ [] →
   jsLt (Num (Z.of_nat (length running'))) maxWorkers = false).
Proof.
  revert running tr. induction queue as [|fn queue IH]; intros running tr.
  - simpl. rewrite ret_run. intros Heq. simplify_eq.
    split; [|split; [lia|done]].
    exists [], []. by rewrite !app_nil_r.
  - cbn [startTasks].
    destruct (jsLt (Num (Z.of_nat (length running))) maxWorkers) eqn:Hfree.
    + rewrite bind_run.
      destruct (fn tr) as [[res|] tr1]; [|done].
      intros Hrun.
      destruct (IH _ _ Hrun)
        as ((started & new & -> & -> & Hlen & Hlast) & Hint & Hfull).
      clear IH. split; [|split].
      * exists (fn :: started), (res :: new). split; [done|].
        split; [by rewrite <-app_assoc|]. split; [simpl; lia|].
        intros _. destruct new as [|x new].
        -- rewrite app_nil_r, length_app. cbn [length].
           assert (Z.of_nat (length running + 1)%nat - 1
                   = Z.of_nat (length running)) as -> by lia.
           done.
        -- by apply Hlast.
      * intros n ->. specialize (Hint n eq_refl).
        rewrite jsLt_int in Hfree. apply Z.ltb_lt in Hfree.
        rewrite !length_app in Hint |- *. cbn [length] in *. lia.
      * done.
    + rewrite ret_run. intros Heq. simplify_eq.
      split; [|split].
      * exists [], []. by rewrite !app_nil_r.
      * lia.
      * done.
Qed.

(** The theorem at a pool of two and a half workers and three tasks: all
    three are started. *)
Lemma startTasks_respects_worker_bound_witness :
  (∃ started new,
     wrappedTask quietContext <$> threeTasks = started ++ [] ∧
     taskResult quietContext <$> threeTasks = [] ++ new ∧
     length new = length started ∧
     (new ≠ [] →
      jsLt (Num (Z.of_nat (length (taskResult quietContext <$> threeTasks)) - 1)%Z)
        (Num (5 # 2)) = true)) ∧
  (∀ n : Z, Num (5 # 2) = Num n →
     Z.of_nat (length (taskResult quietContext <$> threeTasks))
     ≤ Z.max n (Z.of_nat (length (@nil PluginResult)))) ∧
  (@nil (M PluginResult) ≠ [] →
   jsLt (Num (Z.of_nat (length (taskResult quietContext <$> threeTasks))))
     (Num (5 # 2)) = false).
Proof.
  exact (startTasks_respects_worker_bound (Num (5 # 2))
           (wrappedTask quietContext <$> threeTasks) [] []
           []
           (taskResult quietContext <$> threeTasks)
           (startEvents threeTasks) eq_refl).
Defined.

(** ** The result list *)

Lemma fmap_const_replicate {A B : Type} (f : A → B) (l : list A) (x : B) :
  (∀ a, a ∈ l → f a = x) → f <$> l = replicate (length l) x.
Proof.
  induction l as [|a l IH]; intros Hl; csimpl; [done|].
  rewrite IH, (Hl a).
  - done.
  - apply list_elem_of_here.
  - intros b Hb. apply Hl. by apply list_elem_of_further.
Qed.

Lemma stamps_of_stage w ctx maxWorkers idx stage :
  hasWorker maxWorkers →
  res_stage <$> stageRun w ctx maxWorkers idx stage
  = replicate (length (stage_tasks stage)) (Some (stage_name stage)).
Proof.
  intros Hmw.
  destruct (runStage_run w ctx maxWorkers idx stage [] Hmw) as (_ & Hperm & _).
  rewrite <-(stageRun_length w ctx maxWorkers idx stage Hmw).
  apply fmap_const_replicate. intros r Hr.
  rewrite Hperm in Hr. by apply elem_of_declaredResults in Hr as (t & _ & ->).
Qed.

Lemma durations_of_stage w ctx maxWorkers idx stage :
  hasWorker maxWorkers →
  Forall (λ r, is_Some (res_durationMs r)) (stageRun w ctx maxWorkers idx stage).
Proof.
  intros Hmw.
  destruct (runStage_run w ctx maxWorkers idx stage [] Hmw) as (_ & Hperm & _).
  rewrite Hperm. apply Forall_forall.
  intros r (t & _ & ->)%elem_of_declaredResults. unfold taskResult. simpl.
  by destruct (run_outcome _).
Qed.

Lemma results_by_stage (f : nat → StageSpec → list PluginResult) stages :
  (∀ i s, length (f i s) = length (stage_tasks s)
          ∧ res_stage <$> f i s
            = replicate (length (stage_tasks s)) (Some (stage_name s))
          ∧ Forall (λ r, is_Some (res_durationMs r)) (f i s)) →
  length (concat (imap f stages)) = length (checkNames stages)
  ∧ res_stage <$> concat (imap f stages) = stageStamps stages
  ∧ Forall (λ r, is_Some (res_durationMs r)) (concat (imap f stages)).
Proof.
  revert f. induction stages as [|s stages IH]; intros f Hf; [done|].
  destruct (IH (f ∘ S)) as (Hlen & Hst & Hdur).
  { intros i s'. apply Hf. }
  destruct (Hf 0%nat s) as (Hlen0 & Hst0 & Hdur0).
  unfold checkNames, stageStamps in *. rewrite !fmap_cons. cbn [imap concat].
  rewrite !length_app, fmap_app, Hlen, Hst, Hlen0, Hst0, length_fmap.
  split_and!; [done|done|]. by apply Forall_app.
Qed.

(** X6. Where the git commands of the context can be spawned, the list
    [runValidation] returns holds one result per check of the stages it
    ran, a prefix of the configured stages that is all of them when [ok] is
    true; the results are grouped by stage in configuration order, each
    stamped with the name of its stage, and each carries a duration. *)
Theorem runValidation_results_by_stage (w : World) (config : ValidatorConfig)
    (options : RunOptions) :
  contextSpawns w options →
  ∃ ok rs evs n,
    settles (runValidation w config options) (ok, rs) evs ∧
    (n ≤ length (cfg_stages config))%nat ∧
    (ok = true → n = length (cfg_stages config)) ∧
    (ok = false → (0 < n)%nat) ∧
    length rs = length (checkNames (take n (cfg_stages config))) ∧
    res_stage <$> rs = stageStamps (take n (cfg_stages config)) ∧
    Forall (λ r, is_Some (res_durationMs r)) rs.
Proof.
  intros Hspawn.
  destruct (runValidation_run w config options Hspawn)
    as (ok & n & Hrun & Hcase).
  pose proof (maxWorkersOf_hasWorker w options) as Hmw.
  eexists ok, _, _, n. split; [exact Hrun|].
  assert ((n ≤ length (cfg_stages config))%nat
          ∧ (ok = true → n = length (cfg_stages config))
          ∧ (ok = false → (0 < n)%nat)) as (Hn & Hok & Hfail).
  { destruct Hcase as [(-> & -> & _)|(-> & i & s & -> & Hs & _)].
    - by split_and!.
    - apply lookup_lt_Some in Hs. split_and!; [lia|done|lia]. }
  split_and!; try done; apply results_by_stage; intros i s; split_and!;
    auto using stageRun_length, stamps_of_stage, durations_of_stage.
Qed.

(** The theorem at a pipeline of two stages of which the first fails: the
    list holds the two results of the first stage. *)
Lemma runValidation_results_by_stage_witness :
  ∃ ok rs evs n,
    settles (runValidation quietWorld abortingConfig fullOptions) (ok, rs) evs ∧
    (n ≤ length (cfg_stages abortingConfig))%nat ∧
    (ok = true → n = length (cfg_stages abortingConfig)) ∧
    (ok = false → (0 < n)%nat) ∧
    length rs = length (checkNames (take n (cfg_stages abortingConfig))) ∧
    res_stage <$> rs = stageStamps (take n (cfg_stages abortingConfig)) ∧
    Forall (λ r, is_Some (res_durationMs r)) rs.
Proof.
  apply (runValidation_results_by_stage quietWorld abortingConfig fullOptions).
  reflexivity.
Defined.

(** X7. A stage that is not parallel runs its checks one after the other
    in declaration order and returns their results in that order; the
    number of workers and the order of completion play no part. *)
Theorem sequential_stage_in_declaration_order (w : World) (ctx : PluginContext)
    (maxWorkers : JSNum) (idx : nat) (stage : StageSpec) :
  truthyFlag (stage_parallel stage) = false →
  settles (runStage w ctx maxWorkers idx stage) (declaredResults ctx stage)
    (startEvents (stage_tasks stage)).
Proof.
  intros Hseq tr. unfold runStage, declaredResults.
  by rewrite Hseq, bind_run, runSequential_run, ret_run.
Qed.

(** The theorem at a sequential stage of two checks, without a worker. *)
Lemma sequential_stage_witness :
  settles (runStage youngestFirst quietContext (Num 0) 0 errorStage)
    (declaredResults quietContext errorStage)
    (startEvents (stage_tasks errorStage)).
Proof.
  apply (sequential_stage_in_declaration_order youngestFirst quietContext
           (Num 0) 0 errorStage).
  reflexivity.
Defined.

(** ** Lines of git output *)

Lemma isLF_eqb c : isLF c = Ascii.eqb c lineFeed.
Proof. by destruct c as [[] [] [] [] [] [] [] []]. Qed.

Lemma isCR_isSpace c : isCR c = true → isSpace c = true.
Proof. by destruct c as [[] [] [] [] [] [] [] []]. Qed.

Lemma trimStart_length s : (String.length (trimStart s) ≤ String.length s)%nat.
Proof.
  induction s as [|c s IH]; simpl; [done|].
  destruct (isSpace c); simpl; lia.
Qed.

Lemma trimEnd_length s : (String.length (trimEnd s) ≤ String.length s)%nat.
Proof.
  induction s as [|c s IH]; [done|]. rewrite trimEnd_cons.
  destruct (isSpace c && negb (truthyString (trimEnd s))); simpl; lia.
Qed.

Lemma headSpace_trimStart s : headSpace (trimStart s) = false.
Proof.
  induction s as [|c s IH]; simpl; [done|].
  by destruct (isSpace c) eqn:Hc; simpl.
Qed.

Lemma trimStart_fixed s : headSpace s = false → trimStart s = s.
Proof. destruct s as [|c s]; simpl; [done|]. by intros ->. Qed.

Lemma headSpace_trimEnd s : headSpace s = false → headSpace (trimEnd s) = false.
Proof.
  destruct s as [|c s]; [done|]. rewrite trimEnd_cons. simpl. intros Hc.
  rewrite Hc. simpl. exact Hc.
Qed.

Lemma trimEnd_idemp s : trimEnd (trimEnd s) = trimEnd s.
Proof.
  induction s as [|c s IH]; [done|]. rewrite trimEnd_cons.
  destruct (isSpace c && negb (truthyString (trimEnd s))) eqn:Hc; [done|].
  by rewrite trimEnd_cons, IH, Hc.
Qed.

Lemma trim_idemp s : trim (trim s) = trim s.
Proof.
  unfold trim.
  rewrite (trimStart_fixed (trimEnd (trimStart s))).
  - apply trimEnd_idemp.
  - apply headSpace_trimEnd, headSpace_trimStart.
Qed.

Lemma trim_fixed s : trim s = s → trimStart s = s ∧ trimEnd s = s.
Proof.
  unfold trim. intros Hs.
  assert (trimStart s = s) as Hstart; [|by rewrite Hstart in Hs].
  destruct s as [|c s]; simpl in *; [done|].
  destruct (isSpace c); [|done]. exfalso.
  pose proof (trimEnd_length (trimStart s)) as H1.
  pose proof (trimStart_length s) as H2.
  rewrite Hs in H1. simpl in H1. lia.
Qed.

Lemma trimEnd_fixed_tail c s : trimEnd (String c s) = String c s → trimEnd s = s.
Proof.
  rewrite trimEnd_cons.
  destruct (isSpace c && negb (truthyString (trimEnd s))); [done|].
  by intros [= ->].
Qed.

Lemma includesChar_trimStart c s :
  includesChar c s = false → includesChar c (trimStart s) = false.
Proof.
  induction s as [|x s IH]; simpl; [done|].
  intros [Hx Hs]%orb_false_iff.
  destruct (isSpace x); [by apply IH|]. simpl. by rewrite Hx, Hs.
Qed.

Lemma includesChar_trimEnd c s :
  includesChar c s = false → includesChar c (trimEnd s) = false.
Proof.
  induction s as [|x s IH]; [done|]. rewrite trimEnd_cons. simpl.
  intros [Hx Hs]%orb_false_iff.
  destruct (isSpace x && negb (truthyString (trimEnd s))); [done|].
  simpl. by rewrite Hx, IH.
Qed.

Lemma splitLines_no_line_feed s l :
  l ∈ splitLines s → includesChar lineFeed l = false.
Proof.
  revert l. induction s as [|c s IH]; intros l; simpl.
  - by intros ->%list_elem_of_singleton.
  - destruct (isLF c) eqn:Hc.
    { intros [->|Hl]%elem_of_cons; [done|by apply IH]. }
    destruct (isCR c && startsWithLF s); [apply IH|].
    destruct (splitLines s) as [|l0 ls].
    { intros ->%list_elem_of_singleton. simpl.
      by rewrite <-isLF_eqb, Hc. }
    intros [->|Hl]%elem_of_cons.
    + simpl. rewrite <-isLF_eqb, Hc. apply IH. left.
    + apply IH. by right.
Qed.

Lemma splitLines_line f rest :
  includesChar lineFeed f = false → trimEnd f = f →
  splitLines (String.append f (String.append LF rest)) = f :: splitLines rest.
Proof.
  induction f as [|c f IH]; intros Hlf Hend.
  - by str_simpl.
  - simpl in Hlf. apply orb_false_iff in Hlf as [Hc Hf].
    str_simpl. cbn [splitLines]. rewrite isLF_eqb, Hc.
    assert (isCR c && startsWithLF (String.append f (String.append LF rest))
            = false) as ->.
    { destruct f as [|d f]; str_simpl; simpl.
      - simpl in Hend.
        destruct (isSpace c) eqn:Hs; [done|].
        destruct (isCR c) eqn:Hcr; [|done].
        apply isCR_isSpace in Hcr. congruence.
      - simpl in Hf. apply orb_false_iff in Hf as [Hd _].
        rewrite isLF_eqb, Hd. apply andb_false_r. }
    by rewrite IH by eauto using trimEnd_fixed_tail.
Qed.

(** X8. Every entry of a file list read from git output is a clean line:
    it is not empty, has no white space around it and no line feed in it. *)
Theorem outputLines_clean (stdout l : string) :
  l ∈ outputLines stdout → cleanLine l.
Proof.
  unfold outputLines. intros Hl. apply list_elem_of_In in Hl.
  apply filter_In in Hl as [Hl Htruthy].
  apply list_elem_of_In, list_elem_of_fmap in Hl as (x & -> & Hx).
  split_and!.
  - by apply truthyString_true.
  - apply trim_idemp.
  - apply includesChar_trimEnd, includesChar_trimStart.
    by apply (splitLines_no_line_feed stdout).
Qed.

(** The theorem at a listing with blank lines and a carriage return. *)
Lemma outputLines_clean_witness : cleanLine "src/a.ts".
Proof.
  apply (outputLines_clean
           (String.append "  src/a.ts " (String.append LF (String.append LF "b.ts")))).
  vm_compute. left.
Defined.

(** X9. Reading back what git prints for clean paths, one per line, gives
    exactly those paths, in order. *)
Theorem outputLines_round_trip (files : list string) :
  Forall cleanLine files → outputLines (printedLines files) = files.
Proof.
  induction 1 as [|f files (Hne & Htrim & Hlf) _ IH]; [done|].
  cbn [printedLines foldr]. fold (printedLines files).
  unfold outputLines in *.
  rewrite splitLines_line by (done || by apply trim_fixed).
  rewrite fmap_cons, Htrim. cbn [List.filter].
  apply truthyString_true in Hne. by rewrite Hne, IH.
Qed.

(** The theorem at two paths. *)
Lemma outputLines_round_trip_witness :
  outputLines (printedLines ["src/a.ts"; "docs/read me.md"])
  = ["src/a.ts"; "docs/read me.md"].
Proof.
  apply outputLines_round_trip.
  repeat constructor; done.
Defined.

(** ** The command line *)

Lemma splitOn_whole sep s : includesChar sep s = false → splitOn sep s = [s].
Proof.
  induction s as [|c s IH]; simpl; [done|].
  intros [-> Hs]%orb_false_iff. by rewrite IH.
Qed.

Lemma splitOn_first sep k rest :
  includesChar sep k = false →
  splitOn sep (String.append k (String sep rest)) = k :: splitOn sep rest.
Proof.
  induction k as [|c k IH]; str_simpl; simpl.
  - by rewrite Ascii.eqb_refl.
  - intros [-> Hk]%orb_false_iff. by rewrite IH.
Qed.

Lemma includesChar_append c a b :
  includesChar c (String.append a b) = includesChar c a || includesChar c b.
Proof.
  induction a as [|x a IH]; str_simpl; simpl; [done|].
  by rewrite IH, orb_assoc.
Qed.

Lemma includesChar_assignment k v :
  includesChar equalsSign (assignment k v) = true.
Proof.
  unfold assignment. rewrite includesChar_append. cbn [includesChar].
  by rewrite Ascii.eqb_refl, orb_true_r.
Qed.

(** X10. An argument [k=v] is read as the key [k] and the value [v], and
    what follows a second equals sign is dropped; an argument without an
    equals sign is a key with the value [true]. *)
Theorem keyValue_of_assignment (k v : string) :
  includesChar equalsSign k = false → includesChar equalsSign v = false →
  keyValue k = (k, "true") ∧
  keyValue (assignment k v) = (k, v) ∧
  ∀ rest, keyValue (assignment k (assignment v rest)) = (k, v).
Proof.
  intros Hk Hv. unfold keyValue. split_and!.
  - by rewrite Hk.
  - rewrite includesChar_assignment. unfold assignment.
    by rewrite splitOn_first, splitOn_whole.
  - intros rest. rewrite includesChar_assignment. unfold assignment.
    by rewrite !splitOn_first.
Qed.

(** The theorem at [--paths] and [a]. *)
Lemma keyValue_of_assignment_witness :
  keyValue "--paths" = ("--paths", "true") ∧
  keyValue "--paths=a" = ("--paths", "a") ∧
  ∀ rest, keyValue (assignment "--paths" (assignment "a" rest)) = ("--paths", "a").
Proof.
  apply (keyValue_of_assignment "--paths" "a"); reflexivity.
Defined.

Lemma help_flag_sets_help h argv a :
  a ∈ drop 2 argv → helpFlag a → cli_help (cliFlags h argv) = Some true.
Proof.
  intros Ha Hflag. unfold cliFlags, parseArgs. cbn [snd].
  apply (fold_parseArg_sticky cli_help (Some true) helpFlag).
  - intros opts b. apply parseArg_frame.
  - intros opts b. apply parseArg_help.
  - right. by exists a.
Qed.

(** X11. A help or version flag makes the driver print one text and do
    nothing else, whatever the command and the other flags are: the help
    text when a help flag ([--help] or [-h], with or without a value)
    occurs anywhere on the command line, and else the version of the
    package. *)
Theorem help_and_version_flags (w : World) (h : Host) (argv : list string)
    (a : string) :
  a ∈ drop 2 argv → helpFlag a ∨ versionFlag a →
  ∃ text,
    settles (main w h argv) tt [EvStdout text] ∧
    ((∃ b, b ∈ drop 2 argv ∧ helpFlag b) → text = helpText) ∧
    ((∀ b, b ∈ drop 2 argv → ¬ helpFlag b) →
     text = String.append (h_pkgVersion h) LF).
Proof.
  intros Ha Hflag.
  assert (∀ b, Decision (helpFlag b)) as Hdec.
  { intros b. unfold helpFlag. apply _. }
  destruct (decide (Exists helpFlag (drop 2 argv))) as [Hhelp|Hnohelp].
  - apply Exists_exists in Hhelp as (b & Hb & Hflagb).
    pose proof (help_flag_sets_help h argv b Hb Hflagb) as Hset.
    exists helpText. split_and!; [|done|].
    + intros tr. unfold main, mainBody. unfold cliFlags in Hset.
      destruct (parseArgs h argv) as [cmd opts]. simpl in Hset.
      by rewrite Hset.
    + intros Hnone. by destruct (Hnone b Hb).
  - assert (∀ b, b ∈ drop 2 argv → ¬ helpFlag b) as Hnone.
    { intros b Hb Hflagb. apply Hnohelp, Exists_exists. by exists b. }
    destruct Hflag as [Hflag|Hflag]; [by destruct (Hnone a Ha)|].
    assert (cli_help (cliFlags h argv) = None) as Hhelp.
    { unfold cliFlags, parseArgs. cbn [snd].
      rewrite (fold_parseArg_unchanged cli_help helpFlag); [done| |done].
      intros opts b. apply parseArg_frame. }
    assert (cli_version (cliFlags h argv) = Some true) as Hver.
    { unfold cliFlags, parseArgs. cbn [snd].
      apply (fold_parseArg_sticky cli_version (Some true) versionFlag).
      - intros opts b. apply parseArg_frame.
      - intros opts b. apply parseArg_version.
      - right. by exists a. }
    exists (String.append (h_pkgVersion h) LF). split_and!; [| |done].
    + intros tr. unfold main, mainBody. unfold cliFlags in Hhelp, Hver.
      destruct (parseArgs h argv) as [cmd opts]. simpl in Hhelp, Hver.
      by rewrite Hhelp, Hver.
    + intros (b & Hb & Hflagb). by destruct (Hnone b Hb).
Qed.

(** The theorem at [hex-validate init -v --help=false]. *)
Lemma help_and_version_witness :
  ∃ text,
    settles
      (main quietWorld plainHost
         ["node"; "hex-validate"; "init"; "-v"; "--help=false"])
      tt [EvStdout text] ∧
    ((∃ b, b ∈ ["init"; "-v"; "--help=false"] ∧ helpFlag b) → text = helpText) ∧
    ((∀ b, b ∈ ["init"; "-v"; "--help=false"] → ¬ helpFlag b) →
     text = String.append "1.0.0" LF).
Proof.
  apply (help_and_version_flags quietWorld plainHost
           ["node"; "hex-validate"; "init"; "-v"; "--help=false"] "-v").
  - vm_compute. right. left.
  - right. right. reflexivity.
Defined.

(** X12. When the configuration cannot be loaded the driver writes the
    error as text, [String(err)], on standard error and exits with code 1:
    no git command is run, no check is started and no report is
    written. *)
Theorem config_failure_is_fatal (w : World) (h : Host) (argv : list string)
    (err : Thrown) :
  runsPipeline h argv →
  h_loadUserConfig h (cliCwd w h argv) = Rejected err →
  settles (main w h argv) tt
    [EvLoadConfig (cliCwd w h argv);
     EvStderr (String.append (stringOfThrown err) LF);
     EvExit 1].
Proof.
  intros Hruns Hrej tr. by rewrite main_pipeline_run, Hrej.
Qed.


(** The theorem at [hex-validate full] with a configuration that does not
    load. *)
Lemma config_failure_witness :
  settles (main quietWorld brokenHost fullRun) tt
    [EvLoadConfig "/repo";
     EvStderr (String.append "TypeError: Invalid validator config" LF);
     EvExit 1].
Proof.
  apply (config_failure_is_fatal quietWorld brokenHost fullRun
           (ThrownError "TypeError" "Invalid validator config" None)).
  - split_and!; [reflexivity|reflexivity|by vm_compute].
  - reflexivity.
Defined.





(** X15. Of several [--report] flags the last one with a valid value
    decides the reporter; flags with other values, before or after it, do
    not count. *)
Theorem last_valid_report_wins (h : Host) (argv before after : list string)
    (a : string) (r : Report) :
  drop 2 argv = before ++ a :: after →
  argKey a = "--report" → reportOfString (argValue a) = Some r →
  (∀ b, b ∈ after → reportOfString (argValue b) = None) →
  cli_report (cliFlags h argv) = Some r.
Proof.
  intros Hargv Hk Hv Hafter. unfold cliFlags, parseArgs. cbn [snd].
  rewrite Hargv, fold_left_app. cbn [fold_left].
  rewrite (fold_parseArg_unchanged cli_report
             (λ b, reportOfString (argValue b) ≠ None)).
  - by apply parseArg_report.
  - intros opts b Hb. apply parseArg_report_invalid.
    destruct (reportOfString (argValue b)); [|done]. by destruct Hb.
  - intros b Hb. rewrite (Hafter b Hb). by intros [].
Qed.

(** The theorem at [--report=junit --report=json --report=xml --quiet]. *)
Lemma last_valid_report_witness :
  cli_report
    (cliFlags plainHost
       ["node"; "hex-validate"; "--report=junit"; "--report=json";
        "--report=xml"; "--quiet"])
  = Some ReportJson.
Proof.
  apply (last_valid_report_wins plainHost _ ["--report=junit"] ["--report=xml"; "--quiet"]
           "--report=json" ReportJson).
  - reflexivity.
  - reflexivity.
  - reflexivity.
  - intros b Hb.
    repeat (apply elem_of_cons in Hb as [->|Hb]; [reflexivity|]).
    by apply elem_of_nil in Hb.
Defined.

(** ** The tool cache *)

Lemma cacheKey_inj c1 d1 c2 d2 :
  includesChar colon c1 = false → includesChar colon c2 = false →
  cacheKey c1 d1 = cacheKey c2 d2 → c1 = c2 ∧ d1 = d2.
Proof.
  unfold cacheKey. revert c2.
  induction c1 as [|x c1 IH]; intros [|y c2]; str_simpl; simpl.
  - by intros _ _ [= ->].
  - intros _ [Hy _]%orb_false_iff [= <- _]. done.
  - intros [Hx _]%orb_false_iff _ [= -> _]. done.
  - intros [_ H1]%orb_false_iff [_ H2]%orb_false_iff [= -> Heq].
    by destruct (IH c2 H1 H2 Heq) as [-> ->].
Qed.

(** X16. The tool cache memoizes: once a tool was looked up in a
    directory, every later lookup of it there returns the same answer
    without probing, also when the world has changed in between (a tool
    found missing stays missing), and leaves the cache as it is. The first
    lookup adds at most its own entry. *)
Theorem getCachedToolInfo_memoizes (w w' : World)
    (toolCache : gmap string ToolInfo) (command : string)
    (cwd cwd' : option string) :
  default (w_cwd w) cwd = default (w_cwd w') cwd' →
  let first := getCachedToolInfo w toolCache command cwd in
  getCachedToolInfo w' first.2 command cwd' = first ∧
  first.2 !! cacheKey command (default (w_cwd w) cwd) = Some first.1 ∧
  ∀ k, k ≠ cacheKey command (default (w_cwd w) cwd) →
       first.2 !! k = toolCache !! k.
Proof.
  intros Hcwd. unfold getCachedToolInfo, cacheKey. rewrite <-Hcwd.
  set (key := String.append command (String.append ":" (default (w_cwd w) cwd))).
  destruct (toolCache !! key) as [cached|] eqn:Hkey; cbn [fst snd].
  - by rewrite Hkey.
  - rewrite lookup_insert_eq. split_and!; [done|done|].
    intros k Hk. by rewrite lookup_insert_ne.
Qed.

(** The theorem at a tool that is installed after it was found missing. *)
Lemma getCachedToolInfo_memoizes_witness :
  let first := getCachedToolInfo bareWorld ∅ "gitleaks" None in
  getCachedToolInfo versionWorld first.2 "gitleaks" (Some "/repo") = first ∧
  first.2 !! cacheKey "gitleaks" "/repo" = Some first.1 ∧
  ∀ k, k ≠ cacheKey "gitleaks" "/repo" → first.2 !! k = (∅ : gmap string ToolInfo) !! k.
Proof.
  apply (getCachedToolInfo_memoizes bareWorld versionWorld ∅ "gitleaks" None
           (Some "/repo")).
  reflexivity.
Defined.

(** X17. Entries of the tool cache do not interfere: looking a tool up
    does not change what a lookup of another tool, or of the same tool in
    another directory, returns (for tool names without a colon). *)
Theorem tool_cache_entries_independent (w : World)
    (toolCache : gmap string ToolInfo) (c1 c2 : string) (d1 d2 : string) :
  includesChar colon c1 = false → includesChar colon c2 = false →
  (c1, d1) ≠ (c2, d2) →
  (getCachedToolInfo w (getCachedToolInfo w toolCache c1 (Some d1)).2
     c2 (Some d2)).1
  = (getCachedToolInfo w toolCache c2 (Some d2)).1.
Proof.
  intros H1 H2 Hne.
  assert (cacheKey c1 d1 ≠ cacheKey c2 d2) as Hkey.
  { intros Heq. by destruct (cacheKey_inj c1 d1 c2 d2 H1 H2 Heq) as [-> ->]. }
  unfold getCachedToolInfo, cacheKey in *.
  change (default (w_cwd w) (Some d1)) with d1.
  change (default (w_cwd w) (Some d2)) with d2.
  set (k1 := String.append c1 (String.append ":" d1)) in *.
  set (k2 := String.append c2 (String.append ":" d2)) in *.
  destruct (toolCache !! k1) as [cached|]; cbn [fst snd]; [done|].
  rewrite lookup_insert_ne by done. by destruct (toolCache !! k2).
Qed.

(** The theorem at two tools in one directory. *)
Lemma tool_cache_entries_independent_witness :
  (getCachedToolInfo versionWorld
     (getCachedToolInfo versionWorld ∅ "gitleaks" (Some "/repo")).2
     "vitest" (Some "/repo")).1
  = (getCachedToolInfo versionWorld ∅ "vitest" (Some "/repo")).1.
Proof.
  apply (tool_cache_entries_independent versionWorld ∅ "gitleaks" "vitest");
    [reflexivity|reflexivity|discriminate].
Defined.

(** ** The aggregator: what the groups keep of the findings *)

Lemma totalCount_perm l1 l2 : l1 ≡ₚ l2 → totalCount l1 = totalCount l2.
Proof. unfold totalCount. induction 1; simpl; lia. Qed.

Lemma totalCount_toViolation localeCompare l :
  totalCount (toViolation localeCompare <$> l) = totalCount l.
Proof. induction l as [|g l IH]; csimpl; [done|]. by rewrite IH. Qed.

Lemma totalCount_mapSet k v (groupsMap : list (string * RuleViolation)) :
  totalCount (snd <$> mapSet k v groupsMap) =
  totalCount (snd <$> groupsMap) + rv_count v
  - match mapGet k groupsMap with Some g => rv_count g | None => 0 end.
Proof.
  induction groupsMap as [|[k' g'] groupsMap IH]; csimpl; [lia|].
  destruct (String.eqb k k'); csimpl; lia.
Qed.

Lemma totalCount_addFinding groupsMap x :
  totalCount (snd <$> addFinding groupsMap x)
  = totalCount (snd <$> groupsMap) + 1.
Proof.
  unfold addFinding, mapHas.
  destruct (mapGet (f_code x) groupsMap) as [g|] eqn:Hg; cbn [negb].
  - rewrite Hg, totalCount_mapSet, Hg. simpl. lia.
  - rewrite mapGet_mapSet_eq, !totalCount_mapSet, mapGet_mapSet_eq, Hg.
    simpl. lia.
Qed.

Lemma totalCount_fold findings groupsMap :
  totalCount (snd <$> fold_left addFinding findings groupsMap)
  = totalCount (snd <$> groupsMap) + Z.of_nat (length findings).
Proof.
  revert groupsMap. induction findings as [|x l IH]; intros groupsMap.
  - simpl. lia.
  - cbn [fold_left length]. rewrite IH, totalCount_addFinding. lia.
Qed.

(** X18. The aggregation loses no finding and counts none twice: the
    counts of the groups add up to the number of findings. *)
Theorem aggregateByRule_conserves_count (localeCompare : string → string → Z)
    (findings : list Finding) :
  totalCount (aggregateByRule localeCompare findings)
  = Z.of_nat (length findings).
Proof.
  unfold aggregateByRule.
  rewrite (totalCount_perm _ _ (js_sort_perm _ _)), totalCount_toViolation.
  unfold groupFindings. by rewrite totalCount_fold.
Qed.

Lemma addFinding_lookup groupsMap x c :
  mapGet c (addFinding groupsMap x) =
  if decide (f_code x = c)
  then Some (updateGroup x (default (newGroup x) (mapGet c groupsMap)))
  else mapGet c groupsMap.
Proof.
  unfold addFinding, mapHas.
  destruct (mapGet (f_code x) groupsMap) as [g|] eqn:Hg; cbn [negb].
  - rewrite Hg. destruct (decide (f_code x = c)) as [<-|Hne].
    + by rewrite mapGet_mapSet_eq, Hg.
    + by rewrite mapGet_mapSet_ne.
  - rewrite mapGet_mapSet_eq. destruct (decide (f_code x = c)) as [<-|Hne].
    + by rewrite mapGet_mapSet_eq, Hg.
    + by rewrite !mapGet_mapSet_ne.
Qed.

Lemma firstSuggestion_truthy ms s :
  firstSuggestion ms = Some s → truthyString s = true.
Proof.
  unfold firstSuggestion.
  induction ms as [|f ms IH]; csimpl; [done|].
  unfold suggestionOf at 1.
  destruct (f_suggestion f) as [t|]; simpl; [|done].
  destruct (truthyString t) eqn:Ht; simpl; [|done]. by intros [= <-].
Qed.

Lemma firstSuggestion_snoc ms x :
  firstSuggestion (ms ++ [x]) =
  match firstSuggestion ms with
  | Some s => Some s
  | None => suggestionOf x
  end.
Proof.
  unfold firstSuggestion. rewrite omap_app.
  destruct (omap suggestionOf ms); csimpl; [|done].
  by destruct (suggestionOf x).
Qed.

(** What the loop keeps of the suggestions of the findings seen so far. *)
Lemma groupFindings_suggestion findings c g :
  mapGet c (groupFindings findings) = Some g →
  rv_suggestion g = firstSuggestion (membersOf c findings).
Proof.
  unfold groupFindings. revert g.
  induction findings as [|x l IH] using rev_ind; intros g; [done|].
  rewrite fold_left_app. cbn [fold_left]. rewrite addFinding_lookup.
  rewrite membersOf_snoc.
  destruct (decide (f_code x = c)) as [Hc|Hc]; [|rewrite app_nil_r; apply IH].
  intros [= <-]. rewrite firstSuggestion_snoc.
  pose proof (groupFindings_grouped l) as [_ Hgroups]. specialize (Hgroups c).
  unfold groupFindings in Hgroups.
  destruct (mapGet c (fold_left addFinding l [])) as [g0|];
    cbn [from_option]; unfold id.
  - rewrite <-(IH g0 eq_refl). cbn [updateGroup rv_suggestion].
    destruct (rv_suggestion g0) as [s|] eqn:Hs.
    + rewrite (IH g0 eq_refl) in Hs. apply firstSuggestion_truthy in Hs.
      simpl. by rewrite Hs.
    + unfold suggestionOf. simpl. by destruct (truthyOptString (f_suggestion x)).
  - rewrite Hgroups. cbn. unfold suggestionOf.
    destruct (f_suggestion x) as [t|]; simpl; [|done].
    by destruct (truthyString t) eqn:Ht; simpl; rewrite ?Ht.
Qed.

(** X19. The suggestion of a group is the first non-empty suggestion among
    its findings, in the order of the input; a group none of whose findings
    has one has none. *)
Theorem aggregateByRule_first_suggestion (localeCompare : string → string → Z)
    (findings : list Finding) (g : RuleViolation) :
  g ∈ aggregateByRule localeCompare findings →
  rv_suggestion g = firstSuggestion (membersOf (rv_rule g) findings).
Proof.
  unfold aggregateByRule. rewrite elem_of_js_sort.
  intros (g0 & -> & Hg0)%list_elem_of_fmap.
  apply list_elem_of_fmap in Hg0 as ([c g1] & -> & Hin). cbn [snd].
  pose proof (groupFindings_grouped findings) as Hinv.
  destruct (Grouped_elem _ _ _ _ Hinv Hin) as (Hrule & _).
  apply (elem_of_mapGet c g1 _ (proj1 Hinv)) in Hin.
  apply groupFindings_suggestion in Hin.
  cbn [toViolation rv_rule rv_suggestion]. rewrite Hrule, Hin.
  destruct (firstSuggestion (membersOf c findings)) as [s|] eqn:Hs; [|done].
  apply firstSuggestion_truthy in Hs. simpl. by rewrite Hs.
Qed.

(** The theorem at the rule [x/y] of three findings, whose first finding has
    no suggestion. *)
Lemma aggregateByRule_first_suggestion_witness :
  Some "Rename it" = firstSuggestion (membersOf "x/y" mixedFindings).
Proof.
  apply (aggregateByRule_first_suggestion ordinalCompare mixedFindings
           (mkRuleViolation "x/y" LevelWarn 2
              [("a.ts:3", mkFileData 2 [3; 3])] (Some "Rename it"))).
  vm_compute. right. left.
Defined.

Lemma linesOf_snoc ms x :
  linesOf (ms ++ [x]) =
  linesOf ms ++ match truthyLine (f_line x) with Some n => [n] | None => [] end.
Proof.
  unfold linesOf. rewrite omap_app. csimpl.
  by destruct (truthyLine (f_line x)).
Qed.

Lemma recordFile_lines ms fv x :
  FilesRecorded ms fv →
  (∀ k d, mapGet k fv = Some d → fd_lines d = linesOf (recordedUnder k ms)) →
  ∀ k d, mapGet k (recordFile x fv) = Some d →
         fd_lines d = linesOf (recordedUnder k (ms ++ [x])).
Proof.
  intros [_ Hfv] Hlines k d. unfold recordFile. rewrite recordedUnder_snoc.
  destruct (truthyString (f_file x)) eqn:Hfile.
  - apply truthyString_true in Hfile.
    destruct (decide (fileKey x = k)) as [<-|Hne].
    + rewrite mapGet_mapSet_eq. intros [= <-]. cbn [fd_lines].
      rewrite decide_True by done. rewrite linesOf_snoc.
      specialize (Hfv (fileKey x)). specialize (Hlines (fileKey x)).
      destruct (mapGet (fileKey x) fv) as [d0|]; cbn [from_option]; unfold id.
      * rewrite <-(Hlines d0 eq_refl).
        by destruct (truthyLine (f_line x)); rewrite ?app_nil_r.
      * rewrite Hfv. cbn. by destruct (truthyLine (f_line x)).
    + rewrite mapGet_mapSet_ne by done.
      rewrite decide_False by (by intros [_ ?]). rewrite app_nil_r.
      apply Hlines.
  - apply truthyString_false in Hfile.
    rewrite decide_False by (by intros [? _]). rewrite app_nil_r.
    apply Hlines.
Qed.

(** What the loop keeps of the lines of the findings seen so far. *)
Lemma groupFindings_lines findings c g :
  mapGet c (groupFindings findings) = Some g →
  ∀ k d, mapGet k (rv_fileViolations g) = Some d →
         fd_lines d = linesOf (recordedUnder k (membersOf c findings)).
Proof.
  unfold groupFindings. revert g.
  induction findings as [|x l IH] using rev_ind; intros g; [done|].
  rewrite fold_left_app. cbn [fold_left]. rewrite addFinding_lookup.
  rewrite membersOf_snoc.
  destruct (decide (f_code x = c)) as [Hc|Hc]; [|rewrite app_nil_r; apply IH].
  intros [= <-]. cbn [updateGroup rv_fileViolations].
  pose proof (groupFindings_grouped l) as [_ Hgroups]. specialize (Hgroups c).
  unfold groupFindings in Hgroups.
  destruct (mapGet c (fold_left addFinding l [])) as [g0|];
    cbn [from_option]; unfold id.
  - apply recordFile_lines; [apply Hgroups|by apply IH].
  - rewrite Hgroups. apply recordFile_lines; [apply FilesRecorded_nil|done].
Qed.

(** X20. The lines of an entry are the lines of the findings of the group
    at that location, one per finding that has a line, in the order of the
    input. *)
Theorem aggregateByRule_lines (localeCompare : string → string → Z)
    (findings : list Finding) (g : RuleViolation) (k : string) (d : FileData) :
  g ∈ aggregateByRule localeCompare findings →
  (k, d) ∈ rv_fileViolations g →
  fd_lines d = linesOf (recordedUnder k (membersOf (rv_rule g) findings)).
Proof.
  unfold aggregateByRule. rewrite elem_of_js_sort.
  intros (g0 & -> & Hg0)%list_elem_of_fmap.
  apply list_elem_of_fmap in Hg0 as ([c g1] & -> & Hin). cbn [snd].
  cbn [toViolation rv_rule rv_fileViolations]. rewrite elem_of_js_sort.
  intros Hkd.
  pose proof (groupFindings_grouped findings) as Hinv.
  destruct (Grouped_elem _ _ _ _ Hinv Hin) as (Hrule & _ & _ & Hnd & _).
  apply (elem_of_mapGet c g1 _ (proj1 Hinv)) in Hin.
  apply (elem_of_mapGet k d _ Hnd) in Hkd. rewrite Hrule.
  by apply (groupFindings_lines findings c g1).
Qed.

(** The theorem at the entry [a.ts:3] of the rule [x/y]. *)
Lemma aggregateByRule_lines_witness :
  [3; 3] = linesOf (recordedUnder "a.ts:3" (membersOf "x/y" mixedFindings)).
Proof.
  apply (aggregateByRule_lines ordinalCompare mixedFindings
           (mkRuleViolation "x/y" LevelWarn 2
              [("a.ts:3", mkFileData 2 [3; 3])] (Some "Rename it"))
           "a.ts:3" (mkFileData 2 [3; 3])).
  - vm_compute. right. left.
  - left.
Defined.

(** ** Canonical messages *)

Lemma buildCanonicalMessages_fold violations messages :
  fold_left (λ messages violation, messages ++ [canonicalMessage violation])
    violations messages
  = messages ++ (canonicalMessage <$> violations).
Proof.
  revert messages. induction violations as [|v vs IH]; intros messages; csimpl.
  - by rewrite app_nil_r.
  - by rewrite IH, <-app_assoc.
Qed.

Lemma buildCanonicalMessages_map violations :
  buildCanonicalMessages violations = canonicalMessage <$> violations.
Proof. apply (buildCanonicalMessages_fold violations []). Qed.

Lemma SEVERITY_ORDER_error lv : SEVERITY_ORDER lv ≤ 0 → lv = LevelError.
Proof. by destruct lv. Qed.

Lemma StronglySorted_fmap {A B : Type} (f : A → B) (R : relation A)
    (R' : relation B) (l : list A) :
  (∀ a b, R a b → R' (f a) (f b)) →
  StronglySorted R l → StronglySorted R' (f <$> l).
Proof.
  intros Himpl. induction 1 as [|x l Hl IH Hx]; csimpl; constructor; [done|].
  apply Forall_fmap. eapply Forall_impl; [exact Hx|]. intros y. apply Himpl.
Qed.

(** X21. The canonical messages of aggregated findings: one message per
    rule code, the most severe first, each with the level of the most
    severe finding of its rule. So every level of a message is the level of
    a finding, and findings with an error give a message with an error. The
    order needs the collation of the host to be a total preorder. *)
Theorem canonical_messages_by_severity (localeCompare : string → string → Z)
    (findings : list Finding) :
  (∀ a b, 0 < localeCompare a b → localeCompare b a ≤ 0) →
  (∀ a b c, localeCompare a b ≤ 0 → localeCompare b c ≤ 0 →
            localeCompare a c ≤ 0) →
  let messages :=
    buildCanonicalMessages (aggregateByRule localeCompare findings) in
  length messages = length (remove_dups (f_code <$> findings)) ∧
  StronglySorted levelLe messages ∧
  (∀ m, m ∈ messages → ∃ f, f ∈ findings ∧ f_level f = msg_level m) ∧
  (∀ f, f ∈ findings → f_level f = LevelError →
        ∃ m, m ∈ messages ∧ msg_level m = LevelError).
Proof.
  intros Htotal Htrans messages. unfold messages.
  rewrite buildCanonicalMessages_map.
  pose proof (groupFindings_grouped findings) as Hinv.
  assert (aggregateByRule localeCompare findings
          ≡ₚ toViolation localeCompare <$> (snd <$> groupFindings findings))
    as Hperm by apply js_sort_perm.
  assert (rv_rule <$> (toViolation localeCompare <$> (snd <$> groupFindings findings))
          = fst <$> groupFindings findings) as Hrules.
  { rewrite <-!list_fmap_compose. apply list_fmap_ext.
    intros i [c g] Hi. simpl.
    apply list_elem_of_lookup_2 in Hi.
    by destruct (Grouped_elem _ _ _ _ Hinv Hi) as (-> & _). }
  split_and!.
  - rewrite length_fmap, <-(length_fmap rv_rule), Hperm, Hrules.
    apply Permutation_length, NoDup_Permutation.
    + apply Hinv.
    + apply NoDup_remove_dups.
    + intros c. rewrite elem_of_remove_dups. by apply Grouped_keys.
  - apply (StronglySorted_fmap _ (cmpLe (compareViolations localeCompare))).
    + intros a b Hab. apply compareViolations_le in Hab. unfold levelLe. simpl.
      destruct Hab as [Hlt|[-> _]]; lia.
    + apply js_sort_sorted;
        [by apply compareViolations_total|by apply compareViolations_trans].
  - intros m (g & -> & Hg)%list_elem_of_fmap. rewrite Hperm in Hg.
    apply list_elem_of_fmap in Hg as (g0 & -> & Hg0).
    apply list_elem_of_fmap in Hg0 as ([c g1] & -> & Hin). simpl.
    destruct (Grouped_elem _ _ _ _ Hinv Hin) as (_ & _ & [(f & Hf & Hlv) _] & _).
    apply list_elem_of_filter in Hf as [_ Hf]. by exists f.
  - intros f Hf Herr.
    destruct Hinv as [Hnd Hgroups]. specialize (Hgroups (f_code f)).
    assert (f ∈ membersOf (f_code f) findings) as Hmem.
    { by apply list_elem_of_filter. }
    destruct (mapGet (f_code f) (groupFindings findings)) as [g|] eqn:Hg.
    + exists (canonicalMessage (toViolation localeCompare g)). split.
      * apply list_elem_of_fmap. eexists. split; [done|]. rewrite Hperm.
        apply list_elem_of_fmap. eexists. split; [done|].
        apply list_elem_of_fmap. exists (f_code f, g).
        split; [done|]. by apply mapGet_elem_of.
      * simpl. apply SEVERITY_ORDER_error.
        destruct Hgroups as (_ & _ & [_ Hmin] & _).
        specialize (Hmin f Hmem). by rewrite Herr in Hmin.
    + rewrite Hgroups in Hmem. by apply elem_of_nil in Hmem.
Qed.

(** The theorem at three findings of two rules, with the ordinal collation. *)
Lemma canonical_messages_witness :
  let messages :=
    buildCanonicalMessages (aggregateByRule ordinalCompare mixedFindings) in
  length messages = length (remove_dups (f_code <$> mixedFindings)) ∧
  StronglySorted levelLe messages ∧
  (∀ m, m ∈ messages → ∃ f, f ∈ mixedFindings ∧ f_level f = msg_level m) ∧
  (∀ f, f ∈ mixedFindings → f_level f = LevelError →
        ∃ m, m ∈ messages ∧ msg_level m = LevelError).
Proof.
  apply (canonical_messages_by_severity ordinalCompare mixedFindings).
  - apply ordinalCompare_total.
  - apply ordinalCompare_trans.
Defined.

(** ** The JUnit reporter *)

Lemma junit_fold results st :
  fold_left junitStep results st =
  mkJunitState
    (junit_failures st
     + Z.of_nat (length (List.filter (statusIs StatusFail) results)))
    (junit_tests st + Z.of_nat (length results))
    (junit_testcases st ++ (testcase <$> results)).
Proof.
  revert st. induction results as [|r results IH]; intros [f t cs].
  - simpl. by rewrite !Z.add_0_r, app_nil_r.
  - cbn [fold_left]. rewrite IH. unfold junitStep, statusIs. csimpl.
    rewrite <-app_assoc. f_equal; [|lia].
    case_bool_decide; simpl; lia.
Qed.

(** X22. The document the JUnit reporter writes has one test case per
    result, in the order of the results; its [tests] attribute is the number
    of results and its [failures] attribute the number of failed ones
    (warned ones do not count). *)
Theorem junitXml_counts (results : list PluginResult) :
  junitXml results =
  junitDocument
    (mkJunitState
       (Z.of_nat (length (List.filter (statusIs StatusFail) results)))
       (Z.of_nat (length results))
       (testcase <$> results)).
Proof. unfold junitXml. by rewrite junit_fold. Qed.

Lemma includesChar_escChar c x :
  includesChar c (escChar x) =
  if Ascii.eqb x lessThan then includesChar c "&lt;"
  else if Ascii.eqb x greaterThan then includesChar c "&gt;"
  else if Ascii.eqb x ampersand then includesChar c "&amp;"
  else Ascii.eqb x c.
Proof.
  unfold escChar.
  destruct (Ascii.eqb x lessThan); [done|].
  destruct (Ascii.eqb x greaterThan); [done|].
  destruct (Ascii.eqb x ampersand); [done|].
  simpl. apply orb_false_r.
Qed.

Lemma esc_no_angle s :
  includesChar lessThan (esc s) = false ∧
  includesChar greaterThan (esc s) = false.
Proof.
  induction s as [|x s [IH1 IH2]]; [done|].
  cbn [esc]. rewrite !includesChar_append, !includesChar_escChar, IH1, IH2.
  rewrite !orb_false_r.
  destruct (Ascii.eqb x lessThan) eqn:H1; [done|].
  destruct (Ascii.eqb x greaterThan) eqn:H2; [done|].
  by destruct (Ascii.eqb x ampersand).
Qed.

Lemma esc_keeps_quote s :
  includesChar (ascii_of_nat 34) (esc s) = includesChar (ascii_of_nat 34) s.
Proof.
  induction s as [|x s IH]; [done|].
  cbn [esc includesChar]. rewrite includesChar_append, includesChar_escChar, IH.
  f_equal.
  destruct (Ascii.eqb x lessThan) eqn:H1.
  { apply Ascii.eqb_eq in H1 as ->. done. }
  destruct (Ascii.eqb x greaterThan) eqn:H2.
  { apply Ascii.eqb_eq in H2 as ->. done. }
  destruct (Ascii.eqb x ampersand) eqn:H3; [|done].
  apply Ascii.eqb_eq in H3 as ->. done.
Qed.

Lemma esc_length s : (String.length s ≤ String.length (esc s))%nat.
Proof.
  induction s as [|x s IH]; [done|].
  cbn [esc]. rewrite length_append. unfold escChar.
  destruct (Ascii.eqb x lessThan); [simpl; lia|].
  destruct (Ascii.eqb x greaterThan); [simpl; lia|].
  destruct (Ascii.eqb x ampersand); simpl; lia.
Qed.

Lemma esc_plain s : plainText s → esc s = s.
Proof.
  unfold plainText. induction s as [|x s IH]; [done|]. simpl.
  rewrite !orb_false_iff. intros ((H1 & Hs1) & (H2 & Hs2) & (H3 & Hs3)).
  unfold escChar. rewrite H1, H2, H3. str_simpl. by rewrite IH.
Qed.

Lemma esc_fixed s : esc s = s → plainText s.
Proof.
  unfold plainText. induction s as [|x s IH]; [done|]. cbn [esc includesChar].
  unfold escChar. intros Heq.
  pose proof (esc_length s) as Hlen.
  destruct (Ascii.eqb x lessThan) eqn:H1.
  { apply (f_equal String.length) in Heq. rewrite length_append in Heq.
    simpl in Heq. lia. }
  destruct (Ascii.eqb x greaterThan) eqn:H2.
  { apply (f_equal String.length) in Heq. rewrite length_append in Heq.
    simpl in Heq. lia. }
  destruct (Ascii.eqb x ampersand) eqn:H3.
  { apply (f_equal String.length) in Heq. rewrite length_append in Heq.
    simpl in Heq. lia. }
  revert Heq. str_simpl. intros [= Heq]. simpl. by apply IH.
Qed.

(** X23. Escaped text has no angle bracket left, so the end mark of a
    CDATA section occurs nowhere in it; text is left as it is exactly when
    it has none of the three characters escaped; and a double quote, which
    is not one of them, is kept. *)
Theorem esc_escapes (s : string) :
  includesChar lessThan (esc s) = false ∧
  includesChar greaterThan (esc s) = false ∧
  (∀ i, ¬ startsAt "]]>" (esc s) i) ∧
  (esc s = s ↔ plainText s) ∧
  includesChar (ascii_of_nat 34) (esc s) = includesChar (ascii_of_nat 34) s.
Proof.
  destruct (esc_no_angle s) as [Hlt Hgt]. split_and!; [done|done| | |].
  - intros i (pre & post & Heq & _).
    rewrite Heq, !includesChar_append in Hgt.
    apply orb_false_iff in Hgt as [_ Hgt].
    by apply orb_false_iff in Hgt as [Hgt _].
  - split; [apply esc_fixed|apply esc_plain].
  - apply esc_keeps_quote.
Qed.

(** ** The terminal reporter *)

Lemma status_partition (results : list PluginResult) :
  (length (List.filter (statusIs StatusPass) results)
   + length (List.filter (statusIs StatusSkipped) results)
   + length (List.filter (statusIs StatusWarn) results)
   + length (List.filter (statusIs StatusFail) results)
   = length results)%nat.
Proof.
  unfold statusIs. induction results as [|r results IH]; [done|].
  cbn [List.filter]. destruct (res_status r); simpl; lia.
Qed.

Lemma filter_status_nil s (results : list PluginResult) :
  (∀ r, r ∈ results → res_status r ≠ s) →
  List.filter (statusIs s) results = [].
Proof.
  induction results as [|r results IH]; intros Hall; [done|].
  cbn [List.filter]. unfold statusIs at 1.
  rewrite bool_decide_eq_false_2 by (apply Hall; left).
  apply IH. intros r' Hr'. apply Hall. by right.
Qed.

(** X24. The counts of the summary add up: every task is counted once, as
    passed, skipped, warned or failed. With [summaryOnly], or when no check
    failed or warned, the summary is all that is written. *)
Theorem terminalReporter_summary (results : list PluginResult)
    (summaryOnly : option bool) :
  (length (List.filter (statusIs StatusPass) results)
   + length (List.filter (statusIs StatusSkipped) results)
   + length (List.filter (statusIs StatusWarn) results)
   + length (List.filter (statusIs StatusFail) results)
   = length results)%nat ∧
  (truthyFlag summaryOnly = true
   ∨ (∀ r, r ∈ results → res_status r ≠ StatusFail ∧ res_status r ≠ StatusWarn) →
   terminalReporter results summaryOnly = summaryWrites results) ∧
  (truthyFlag summaryOnly = false →
   ∀ r, r ∈ results → res_status r = StatusFail ∨ res_status r = StatusWarn →
   ∃ details,
     terminalReporter results summaryOnly
     = summaryWrites results ++ details ++ [LF] ∧
     (LF +:+ ((if bool_decide (res_status r = StatusFail) then "[FAIL]"
               else "[WARN]") +:+ " " +:+ res_name r) +:+ LF) ∈ details).
Proof.
  split_and!.
  - apply status_partition.
  - unfold terminalReporter. intros [->|Hnone]; [by rewrite app_nil_r|].
    rewrite !filter_status_nil by (intros r Hr; by apply Hnone).
    rewrite app_nil_r. by destruct (truthyFlag summaryOnly).
  - intros Hso r Hr Hstatus. unfold terminalReporter. rewrite Hso.
    set (reportPlugins := List.filter (statusIs StatusFail) results
                          ++ List.filter (statusIs StatusWarn) results).
    assert (r ∈ reportPlugins) as Hin.
    { unfold reportPlugins. apply elem_of_app.
      destruct Hstatus as [Hs|Hs]; [left|right];
        apply list_elem_of_In, filter_In;
        (split; [by apply list_elem_of_In|]);
        unfold statusIs; by rewrite bool_decide_eq_true_2. }
    destruct (length reportPlugins =? 0)%nat eqn:Hlen.
    { apply Nat.eqb_eq, nil_length_inv in Hlen. rewrite Hlen in Hin.
      by apply elem_of_nil in Hin. }
    eexists. split; [reflexivity|]. apply list_elem_of_In, in_concat.
    exists (resultWrites r). split.
    + apply list_elem_of_In, list_elem_of_fmap. by exists r.
    + unfold resultWrites. apply list_elem_of_In, elem_of_app. left.
      apply list_elem_of_here.
Qed.

Lemma groupMessage_lookup groups msg k :
  mapGet k (groupMessage groups msg) =
  if decide (messageKey msg = k)
  then Some (default [] (mapGet k groups) ++ [msg])
  else mapGet k groups.
Proof.
  unfold groupMessage, mapHas. fold (messageKey msg).
  destruct (mapGet (messageKey msg) groups) as [ms|] eqn:Hg; cbn [negb].
  - rewrite Hg. destruct (decide (messageKey msg = k)) as [<-|Hne].
    + by rewrite mapGet_mapSet_eq, Hg.
    + by rewrite mapGet_mapSet_ne.
  - rewrite mapGet_mapSet_eq. destruct (decide (messageKey msg = k)) as [<-|Hne].
    + by rewrite mapGet_mapSet_eq, Hg.
    + by rewrite !mapGet_mapSet_ne.
Qed.

Lemma groupMessage_NoDup groups msg :
  NoDup (fst <$> groups) → NoDup (fst <$> groupMessage groups msg).
Proof.
  intros Hnd. unfold groupMessage, mapHas.
  destruct (mapGet (default noCodeKey (msg_code msg)) groups) eqn:Hg; cbn [negb].
  - rewrite Hg. by apply mapSet_NoDup.
  - rewrite mapGet_mapSet_eq. by do 2 apply mapSet_NoDup.
Qed.

(** The invariant of the loop of [groupMessages]. *)
Lemma groupMessages_invariant messages :
  NoDup (fst <$> groupMessages messages) ∧
  ∀ k, match mapGet k (groupMessages messages) with
       | Some msgs => msgs = filter (λ m, messageKey m = k) messages ∧ msgs ≠ []
       | None => filter (λ m, messageKey m = k) messages = []
       end.
Proof.
  unfold groupMessages.
  induction messages as [|x l [IHnd IH]] using rev_ind.
  { split; [constructor|done]. }
  rewrite fold_left_app. cbn [fold_left].
  split; [by apply groupMessage_NoDup|].
  intros k. rewrite groupMessage_lookup, filter_app. specialize (IH k).
  destruct (decide (messageKey x = k)) as [Hk|Hk].
  - rewrite (filter_cons_True _ x []) by done.
    destruct (mapGet k (fold_left groupMessage l [])) as [ms|]; cbn.
    + destruct IH as [-> _]. split; [done|]. by destruct (filter _ l).
    + by rewrite IH.
  - rewrite (filter_cons_False _ x []) by done. rewrite filter_nil, app_nil_r.
    done.
Qed.

(** X25. Grouping the messages of a result loses none and splits none:
    there is one group per code that occurs (messages without a code form
    the group [general/no-code]), no group is empty, and the messages of a
    group are those of its code, in the order they came in. *)
Theorem groupMessages_groups (messages : list Message) :
  let groups := groupMessages messages in
  NoDup (fst <$> groups) ∧
  (∀ k, k ∈ fst <$> groups ↔ k ∈ messageKey <$> messages) ∧
  (∀ k msgs, (k, msgs) ∈ groups →
             msgs ≠ [] ∧ msgs = filter (λ m, messageKey m = k) messages).
Proof.
  intros groups. destruct (groupMessages_invariant messages) as [Hnd Hinv].
  fold groups in Hnd, Hinv. split_and!; [done| |].
  - intros k. specialize (Hinv k).
    destruct (mapGet k groups) as [ms|] eqn:Hk.
    + destruct Hinv as [-> Hne]. split; intros _.
      * destruct (filter _ messages) as [|m ms] eqn:Hf; [done|].
        assert (m ∈ filter (λ m, messageKey m = k) messages) as Hm.
        { rewrite Hf. left. }
        apply list_elem_of_filter in Hm as [<- Hm].
        apply list_elem_of_fmap. by exists m.
      * apply mapGet_elem_of in Hk. apply list_elem_of_fmap. by eexists (k, _).
    + apply mapGet_None in Hk. split; [done|].
      intros (m & -> & Hm)%list_elem_of_fmap.
      assert (m ∈ filter (λ m', messageKey m' = messageKey m) messages) as Hin.
      { by apply list_elem_of_filter. }
      rewrite Hinv in Hin. by apply elem_of_nil in Hin.
  - intros k msgs Hin. specialize (Hinv k).
    rewrite (elem_of_mapGet k msgs groups Hnd Hin) in Hinv.
    by destruct Hinv.
Qed.

Lemma setOf_fold (lines seen : list Z) :
  NoDup seen →
  let out := fold_left
               (λ seen x, if bool_decide (x ∈ seen) then seen else seen ++ [x])
               lines seen in
  NoDup out ∧ ∀ x, x ∈ out ↔ x ∈ seen ∨ x ∈ lines.
Proof.
  revert seen. induction lines as [|y lines IH]; intros seen Hnd; cbn.
  - split; [done|]. intros x. rewrite elem_of_nil. tauto.
  - case_bool_decide as Hy.
    + destruct (IH seen Hnd) as [Hout Hiff]. split; [done|].
      intros x. rewrite Hiff, elem_of_cons.
      split; [tauto|]. intros [?|[->|?]]; tauto.
    + assert (NoDup (seen ++ [y])) as Hnd'.
      { apply NoDup_app. split_and!; [done| |apply NoDup_singleton].
        by intros x Hx ->%list_elem_of_singleton. }
      destruct (IH _ Hnd') as [Hout Hiff]. split; [done|].
      intros x. rewrite Hiff, elem_of_app, list_elem_of_singleton, elem_of_cons.
      tauto.
Qed.

Lemma StronglySorted_strict (l : list Z) :
  NoDup l → StronglySorted (cmpLe (λ a b : Z, a - b)) l → StronglySorted Z.lt l.
Proof.
  intros Hnd. induction 1 as [|x l Hl IH Hx]; [constructor|].
  apply NoDup_cons in Hnd as [Hx' Hnd]. constructor; [by apply IH|].
  apply Forall_forall. intros y Hy.
  rewrite Forall_forall in Hx. specialize (Hx y Hy). unfold cmpLe in Hx.
  assert (x ≠ y) by (by intros ->). lia.
Qed.

(** X26. The lines listed for a file are the lines of its messages, each
    once and in increasing order. *)
Theorem sortedLines_sorted (lines : list Z) :
  StronglySorted Z.lt (sortedLines lines) ∧
  ∀ x, x ∈ sortedLines lines ↔ x ∈ lines.
Proof.
  unfold sortedLines, setOf.
  destruct (setOf_fold lines [] (NoDup_nil_2)) as [Hnd Hiff]. cbv zeta in *.
  split.
  - apply StronglySorted_strict.
    + by rewrite js_sort_perm.
    + apply js_sort_sorted; intros; lia.
  - intros x. rewrite elem_of_js_sort, Hiff, elem_of_nil. tauto.
Qed.

(** ** Checks that retry *)

Lemma maxCount_value : maxCount = 9007199254740992.
Proof. reflexivity. Qed.

Lemma jsIncr_attemptAt n : jsIncr (attemptAt n) = attemptAt (S n).
Proof.
  unfold jsIncr, attemptAt. rewrite maxCount_value.
  destruct (Z.min (Z.of_nat n) 9007199254740992 <? 9007199254740992) eqn:Hlt;
    [apply Z.ltb_lt in Hlt|apply Z.ltb_ge in Hlt]; lia.
Qed.

(** The loop from the run number [n] on, when it is to end with the run
    number [i]. *)
Lemma retryLoop_stops run retries fuel n i :
  stopsAt run retries i → (n ≤ i)%nat → (i - n ≤ fuel)%nat →
  retryLoop run retries fuel (attemptAt n) n (procResult (run n))
  = Some (i, procResult (run i)).
Proof.
  intros [Hend Hbefore]. revert n.
  induction fuel as [|fuel IH]; intros n Hn Hfuel.
  - assert (n = i) as -> by lia. cbn [retryLoop procResult fst].
    fold (canRetry retries i).
    destruct Hend as [-> | ->]; [done|]. by rewrite andb_false_r.
  - cbn [retryLoop]. cbn [procResult fst]. fold (canRetry retries n).
    destruct (decide (n = i)) as [->|Hne].
    + destruct Hend as [-> | ->]; [done|]. by rewrite andb_false_r.
    + destruct (Hbefore n) as [Hcode ->]; [lia|].
      apply Z.eqb_neq in Hcode. rewrite Hcode. cbn [negb andb].
      rewrite jsIncr_attemptAt. apply IH; lia.
Qed.

(** The loop from the run number [n] on, when it ends. *)
Lemma retryLoop_result run retries fuel n i res :
  (∀ j, (j < n)%nat → runCode run j ≠ 0 ∧ canRetry retries j = true) →
  retryLoop run retries fuel (attemptAt n) n (procResult (run n)) = Some (i, res) →
  stopsAt run retries i ∧ res = procResult (run i) ∧ (i ≤ n + fuel)%nat.
Proof.
  revert n. induction fuel as [|fuel IH]; intros n Hbefore;
    cbn [retryLoop]; cbn [procResult fst]; fold (canRetry retries n);
    destruct (negb (default 1 (close_code (run n)) =? 0) && canRetry retries n)
      eqn:Hgo.
  - done.
  - intros [= <- <-]. split_and!; [|done|lia]. split; [|done].
    apply andb_false_iff in Hgo as [Hcode|Hretry]; [left|by right].
    by apply negb_false_iff, Z.eqb_eq in Hcode.
  - intros Hrun. rewrite jsIncr_attemptAt in Hrun.
    apply IH in Hrun as (Hstop & Hres & Hi); [split_and!; [done|done|lia]|].
    intros j Hj. destruct (decide (j = n)) as [->|Hne]; [|apply Hbefore; lia].
    apply andb_true_iff in Hgo as [Hcode Hretry]. split; [|done].
    by apply negb_true_iff, Z.eqb_neq in Hcode.
  - intros [= <- <-]. split_and!; [|done|lia]. split; [|done].
    apply andb_false_iff in Hgo as [Hcode|Hretry]; [left|by right].
    by apply negb_false_iff, Z.eqb_eq in Hcode.
Qed.

Lemma runWithRetries_stops run retries fuel i :
  stopsAt run retries i → (i ≤ fuel)%nat →
  runWithRetries run retries fuel = Some (i, procResult (run i)).
Proof.
  intros Hstop Hfuel. unfold runWithRetries.
  apply (retryLoop_stops run retries fuel 0 i); [done|lia|lia].
Qed.

Lemma runWithRetries_Some run retries fuel i res :
  runWithRetries run retries fuel = Some (i, res) →
  stopsAt run retries i ∧ res = procResult (run i) ∧ (i ≤ fuel)%nat.
Proof.
  intros Hrun. apply (retryLoop_result run retries fuel 0); [|done].
  intros j Hj. lia.
Qed.

(** The loop ends in success exactly when a run within the retries allowed
    exits with code 0. *)
Lemma stopsAt_success run retries i :
  stopsAt run retries i →
  runCode run i = 0 ↔ ∃ j, reachable retries j ∧ runCode run j = 0.
Proof.
  intros [Hend Hbefore]. split.
  - intros Hcode. exists i. split; [|done]. intros j Hj. by apply Hbefore.
  - intros (j & Hreach & Hcode).
    destruct (Nat.lt_trichotomy j i) as [Hlt|[->|Hgt]]; [|done|].
    + by destruct (Hbefore j Hlt).
    + destruct Hend as [Hzero|Hretry]; [done|].
      rewrite (Hreach i Hgt) in Hretry. done.
Qed.

(** Up to the run number [n] the loop has ended, or every run has failed
    with a retry allowed. *)
Lemma stopsAt_before run retries n :
  (∃ i, (i < n)%nat ∧ stopsAt run retries i)
  ∨ ∀ j, (j < n)%nat → runCode run j ≠ 0 ∧ canRetry retries j = true.
Proof.
  induction n as [|n [(i & Hi & Hstop)|Hall]].
  - right. intros j Hj. lia.
  - left. exists i. split; [lia|done].
  - destruct (decide (runCode run n = 0)) as [Hcode|Hcode].
    { left. exists n. split; [lia|]. split; [by left|done]. }
    destruct (canRetry retries n) eqn:Hretry.
    + right. intros j Hj. destruct (decide (j = n)) as [->|Hne]; [done|].
      apply Hall. lia.
    + left. exists n. split; [lia|]. split; [by right|done].
Qed.

Lemma stopsAt_bounded run retries n :
  canRetry retries n = false → ∃ i, (i ≤ n)%nat ∧ stopsAt run retries i.
Proof.
  intros Hretry. destruct (stopsAt_before run retries n) as [(i & Hi & Hstop)|Hall].
  - exists i. split; [lia|done].
  - exists n. split; [done|]. split; [by right|done].
Qed.

(** How many retries a number allows. *)
Lemma canRetry_finite (q : Q) n :
  (q <= inject_Z maxCount)%Q →
  canRetry (Num q) n = true ↔ (inject_Z (Z.of_nat n) < q)%Q.
Proof.
  intros Hq. unfold canRetry, attemptAt. rewrite jsLt_Num.
  destruct (Z.le_ge_cases (Z.of_nat n) maxCount) as [Hn|Hn].
  - by rewrite Z.min_l.
  - rewrite Z.min_r by done. rewrite Zle_Qle in Hn. split; intros Hlt; lra.
Qed.

Lemma canRetry_unbounded retries n :
  retries = PosInf ∨ (∃ q, retries = Num q ∧ (inject_Z maxCount < q)%Q) →
  canRetry retries n = true.
Proof.
  intros [->|(q & -> & Hq)]; [done|].
  unfold canRetry, attemptAt. apply jsLt_Num.
  apply Qle_lt_trans with (y := inject_Z maxCount); [|done].
  rewrite <-Zle_Qle. lia.
Qed.

Lemma canRetry_none retries n :
  retries = NaN ∨ retries = NegInf ∨ (∃ q, retries = Num q ∧ (q <= 0)%Q) →
  canRetry retries n = false.
Proof.
  intros [->|[->|(q & -> & Hq)]]; [done|done|].
  unfold canRetry, attemptAt. apply jsLt_Num_false.
  apply Qle_trans with (y := 0%Q); [done|].
  change 0%Q with (inject_Z 0). rewrite <-Zle_Qle, maxCount_value. lia.
Qed.

(** X27. The retry loop runs the command again while the last run failed
    and the counter of retries is below [retries]. It ends with the first
    run that exits with code 0 or after which no retry is allowed, and
    leaves the outcome of that run: a success exactly when a run within the
    retries allowed exits with code 0. It does not end when there is no
    such run: with [retries] infinite (or beyond 2^53, where the counter
    stops growing) and a command that fails every time. A number of
    retries up to 2^53 allows a further run while the number of retries
    made is below it: for a whole number at most that many further runs,
    for a fraction one more than its whole part (two at 1.5), and none for
    0, a negative number or [NaN]. *)
Theorem runWithRetries_result (run : nat → ProcClose) (retries : JSNum) :
  (∀ i, stopsAt run retries i →
     ∀ fuel, (i ≤ fuel)%nat →
       runWithRetries run retries fuel = Some (i, procResult (run i))) ∧
  (∀ fuel i res,
     runWithRetries run retries fuel = Some (i, res) →
     stopsAt run retries i ∧ res = procResult (run i) ∧
     (res.1.1 = 0 ↔ ∃ j, reachable retries j ∧ runCode run j = 0)) ∧
  ((∀ i, ¬ stopsAt run retries i) →
     ∀ fuel, runWithRetries run retries fuel = None) ∧
  (∀ q, retries = Num q → (q <= inject_Z maxCount)%Q →
     (∀ n, canRetry retries n = true ↔ (inject_Z (Z.of_nat n) < q)%Q) ∧
     ∃ i, stopsAt run retries i ∧
          (i = 0%nat ∨ (inject_Z (Z.of_nat i - 1) < q)%Q)) ∧
  (retries = NaN ∨ retries = NegInf ∨ (∃ q, retries = Num q ∧ (q <= 0)%Q) →
     stopsAt run retries 0) ∧
  (retries = PosInf ∨ (∃ q, retries = Num q ∧ (inject_Z maxCount < q)%Q) →
     (∀ i, stopsAt run retries i ↔
           runCode run i = 0 ∧ ∀ j, (j < i)%nat → runCode run j ≠ 0) ∧
     ((∀ i, runCode run i ≠ 0) →
        ∀ fuel, runWithRetries run retries fuel = None)).
Proof.
  assert ((∀ i, ¬ stopsAt run retries i) →
          ∀ fuel, runWithRetries run retries fuel = None) as Hnone.
  { intros Hnever fuel.
    destruct (runWithRetries run retries fuel) as [[i res]|] eqn:Hrun; [|done].
    apply runWithRetries_Some in Hrun as (Hstop & _). by destruct (Hnever i). }
  split_and!.
  - intros i Hstop fuel Hfuel. by apply runWithRetries_stops.
  - intros fuel i res Hrun.
    apply runWithRetries_Some in Hrun as (Hstop & -> & _).
    split_and!; [done|done|]. by apply stopsAt_success.
  - done.
  - intros q -> Hq. split; [intros n; by apply canRetry_finite|].
    destruct (Qlt_le_dec 0 q) as [Hpos|Hneg].
    2: { exists 0%nat. split; [|by left]. split; [|intros j Hj; lia].
         right. apply canRetry_none. right. right. by exists q. }
    assert (∃ n, canRetry (Num q) n = false) as [n Hn].
    { exists (Z.to_nat maxCount). apply not_true_is_false.
      rewrite canRetry_finite by done. rewrite Z2Nat.id by by rewrite maxCount_value.
      lra. }
    destruct (stopsAt_bounded run (Num q) n Hn) as (i & _ & Hstop).
    exists i. split; [done|].
    destruct i as [|i]; [by left|]. right.
    destruct Hstop as [_ Hbefore]. destruct (Hbefore i) as [_ Hretry]; [lia|].
    apply canRetry_finite in Hretry; [|done].
    replace (Z.of_nat (S i) - 1) with (Z.of_nat i) by lia. done.
  - intros Hretries. split; [|intros j Hj; lia].
    right. by apply canRetry_none.
  - intros Hretries.
    assert (∀ i, stopsAt run retries i ↔
                 runCode run i = 0 ∧ ∀ j, (j < i)%nat → runCode run j ≠ 0)
      as Hstops.
    { intros i. unfold stopsAt. fold (runCode run i). split.
      - intros [[Hcode|Hretry] Hbefore].
        + split; [done|]. intros j Hj. by destruct (Hbefore j Hj).
        + by rewrite canRetry_unbounded in Hretry.
      - intros [Hcode Hbefore]. split; [by left|].
        intros j Hj. split; [by apply Hbefore|by apply canRetry_unbounded]. }
    split; [done|]. intros Hfail. apply Hnone.
    intros i [Hcode _]%Hstops. by destruct (Hfail i).
Qed.

(** ** The end-to-end check *)

Lemma afterPrefix_append p r : afterPrefix p (p +:+ r) = Some r.
Proof.
  induction p as [|a p IH]; str_simpl; [by destruct r|].
  simpl. by rewrite Ascii.eqb_refl.
Qed.

Lemma afterPrefix_Some p s r : afterPrefix p s = Some r → s = p +:+ r.
Proof.
  revert s. induction p as [|a p IH]; intros s; str_simpl.
  - destruct s; simpl; by intros [= ->].
  - destruct s as [|b s]; simpl; [done|].
    destruct (Ascii.eqb a b) eqn:Hab; [|done].
    apply Ascii.eqb_eq in Hab as ->. by intros ->%IH.
Qed.

Lemma startsWith_true p s : startsWith p s = true ↔ ∃ r, s = p +:+ r.
Proof.
  unfold startsWith. split.
  - destruct (afterPrefix p s) as [r|] eqn:Hr; [|done].
    intros _. exists r. by apply afterPrefix_Some.
  - intros [r ->]. by rewrite afterPrefix_append.
Qed.

Lemma afterSegment_split s :
  ∃ name, includesChar slash name = false ∧ s = name +:+ afterSegment s.
Proof.
  induction s as [|c s (name & Hname & Hs)]; [by exists EmptyString|].
  simpl. destruct (Ascii.eqb c slash) eqn:Hc.
  - by exists EmptyString.
  - exists (String c name). simpl. rewrite Hc, Hname. split; [done|].
    str_simpl. by rewrite <-Hs.
Qed.

Lemma afterSegment_append name rest :
  includesChar slash name = false →
  afterSegment (name +:+ String slash rest) = String slash rest.
Proof.
  induction name as [|c name IH]; str_simpl; simpl.
  - by rewrite ?Ascii.eqb_refl.
  - intros [Hc Hname]%orb_false_iff. rewrite Hc. by apply IH.
Qed.

Lemma startsWith_slash c s : startsWith "/" (String c s) = Ascii.eqb c slash.
Proof.
  unfold startsWith. cbn [afterPrefix]. rewrite Ascii.eqb_sym.
  change (Ascii.eqb c "/") with (Ascii.eqb c slash).
  by destruct (Ascii.eqb c slash).
Qed.

Lemma modulesPattern_true f :
  modulesPattern f = true ↔
  ∃ name rest, name ≠ EmptyString ∧ includesChar slash name = false
    ∧ (f = "src/modules/" +:+ name +:+ "/ui/" +:+ rest
       ∨ f = "src/modules/" +:+ name +:+ "/server/" +:+ rest).
Proof.
  unfold modulesPattern. split.
  - destruct (afterPrefix "src/modules/" f) as [rest0|] eqn:Hf; [|done].
    apply afterPrefix_Some in Hf as ->.
    intros [Hhead Htail]%andb_true_iff.
    destruct (afterSegment_split rest0) as (name & Hname & Hsplit).
    assert (name ≠ EmptyString) as Hne.
    { intros ->. revert Hsplit. str_simpl. intros Hsplit.
      rewrite <-Hsplit in Htail.
      apply negb_true_iff in Hhead.
      apply orb_true_iff in Htail as [Ht|Ht];
        apply startsWith_true in Ht as [r ->]; by vm_compute in Hhead. }
    apply orb_true_iff in Htail as [Ht|Ht];
      apply startsWith_true in Ht as [r Hr]; rewrite Hr in Hsplit;
      exists name, r; (split; [done|]); (split; [done|]);
      [left|right]; by rewrite Hsplit at 1.
  - intros (name & rest & Hne & Hname & [-> | ->]);
      rewrite afterPrefix_append;
      (apply andb_true_iff; split;
       [destruct name as [|c name]; [done|];
        simpl in Hname; apply orb_false_iff in Hname as [Hc _];
        str_simpl; by rewrite startsWith_slash, Hc
       |]).
    + change ("/ui/" +:+ rest) with (String slash ("ui/" +:+ rest)).
      rewrite afterSegment_append by done.
      apply orb_true_iff. left. apply startsWith_true. by exists rest.
    + change ("/server/" +:+ rest) with (String slash ("server/" +:+ rest)).
      rewrite afterSegment_append by done.
      apply orb_true_iff. right. apply startsWith_true. by exists rest.
Qed.

Lemma e2ePatterns_true f :
  existsb (λ re, re f) e2ePatterns = true ↔ e2eFile f.
Proof.
  unfold e2ePatterns, e2eFile. cbn [existsb].
  rewrite !orb_true_iff, !startsWith_true, modulesPattern_true, !String.eqb_eq.
  split.
  - intros [?|[?|[?|[<-|[<-|[?|?]]]]]]; try done; tauto.
  - intros [?|[?|[?|[->|[->|?]]]]]; tauto.
Qed.

Lemma anyMatch_false files :
  (∀ f, f ∈ files → ¬ e2eFile f) → anyMatch files e2ePatterns = false.
Proof.
  unfold anyMatch. induction files as [|f files IH]; intros Hall; [done|].
  cbn [existsb]. rewrite IH by (intros g Hg; apply Hall; by right).
  rewrite orb_false_r. apply not_true_is_false. intros Hf.
  apply e2ePatterns_true in Hf. by apply (Hall f); [left|].
Qed.

Lemma anyMatch_true files f :
  f ∈ files → e2eFile f → anyMatch files e2ePatterns = true.
Proof.
  unfold anyMatch. intros Hin Hf. apply existsb_exists.
  exists f. split; [by apply list_elem_of_In|]. by apply e2ePatterns_true.
Qed.

Lemma shouldRunE2E_true ctx :
  shouldRunE2E ctx (default E2EAuto (cv_e2e (ctx_config ctx))) = true
  ↔ e2eWanted ctx.
Proof.
  unfold e2eWanted, shouldRunE2E. fold (filesInScope ctx).
  destruct (default E2EAuto (cv_e2e (ctx_config ctx))).
  - split.
    + intros Hany. right. split; [done|].
      unfold anyMatch in Hany. apply existsb_exists in Hany as (f & Hf & Hre).
      exists f. split; [by apply list_elem_of_In|]. by apply e2ePatterns_true.
    + intros [?|[_ (f & Hf & He)]]; [done|]. by apply (anyMatch_true _ f).
  - split; [by left|done].
  - split; [done|]. by intros [?|[? _]].
Qed.

(** X28. The end-to-end check never returns a warning. It is skipped
    exactly when the tests are not called for (the mode is [off], or it is
    [auto] and no file in scope is one of the end-to-end files) or the tool
    is missing, and then it returns at once. Otherwise it runs the test
    command with the retries of [VALIDATOR_RETRIES]: it returns when the
    retry loop ends, and passes exactly when a run within the retries
    allowed exits with code 0; it does not return when the loop does not
    end. The number of retries is never [NaN]: it is 0 when the variable
    is not set or reads as 0 or [NaN]. *)
Theorem playwrightRun_outcome (w : World) (Number : string → JSNum)
    (toolCache : gmap string ToolInfo) (runs : list string → nat → ProcClose)
    (ctx : PluginContext) :
  let available :=
    tool_available
      (getCachedToolInfo w toolCache "playwright" (Some (ctx_cwd ctx))).1 = true in
  let args := if ctx_ci ctx then ["run"; "test:e2e:ci"]
              else ["run"; "test:e2e"] in
  let retries := envNumber Number (w_env w) "VALIDATOR_RETRIES" in
  (∀ fuel r,
     playwrightRun w Number toolCache runs fuel ctx = Some r →
     res_name r = playwrightName ∧
     res_status r ≠ StatusWarn ∧
     (res_status r = StatusSkipped ↔ ¬ (e2eWanted ctx ∧ available)) ∧
     (res_status r = StatusPass ↔
        e2eWanted ctx ∧ available ∧
        ∃ i, reachable retries i ∧ runCode (runs args) i = 0)) ∧
  (¬ (e2eWanted ctx ∧ available) →
     ∀ fuel, is_Some (playwrightRun w Number toolCache runs fuel ctx)) ∧
  (∀ i, stopsAt (runs args) retries i →
     ∀ fuel, (i ≤ fuel)%nat →
       is_Some (playwrightRun w Number toolCache runs fuel ctx)) ∧
  (e2eWanted ctx → available → (∀ i, ¬ stopsAt (runs args) retries i) →
     ∀ fuel, playwrightRun w Number toolCache runs fuel ctx = None) ∧
  retries ≠ NaN ∧
  (truthyNum (default (Num 0)
                (Number <$> mapGet "VALIDATOR_RETRIES" (w_env w))) = false →
   retries = Num 0).
Proof.
  intros available args retries.
  pose proof (shouldRunE2E_true ctx) as Hwanted.
  split_and!.
  - intros fuel r. unfold playwrightRun. fold args retries.
    destruct (shouldRunE2E ctx (default E2EAuto (cv_e2e (ctx_config ctx))));
      cbn [negb].
    2: { intros [= <-]. cbn [res_name res_status].
         split_and!; [done|done| |].
         - split; [|done]. intros _ [Hw _]. by apply Hwanted in Hw.
         - split; [done|]. intros (Hw & _). by apply Hwanted in Hw. }
    assert (e2eWanted ctx) as Hw by by apply Hwanted.
    unfold available.
    destruct (tool_available _) eqn:Htool; cbn [negb].
    2: { intros [= <-]. cbn [res_name res_status].
         split_and!; [done|done| |].
         - split; [|done]. by intros _ [_ ?].
         - split; [done|]. by intros (_ & ? & _). }
    destruct (runWithRetries (runs args) retries fuel) as [[i res]|] eqn:Hrun;
      [|done].
    apply runWithRetries_Some in Hrun as (Hstop & -> & _).
    pose proof (stopsAt_success _ _ _ Hstop) as Hsuccess.
    intros [= <-]. cbn [res_name res_status]. cbn [procResult fst].
    fold (runCode (runs args) i).
    case_bool_decide as Hcode.
    + split_and!; [done|done| |].
      * split; [done|]. by intros [].
      * split; [|done]. intros _. split_and!; [done|done|]. by apply Hsuccess.
    + split_and!; [done|done| |].
      * split; [done|]. by intros [].
      * split; [done|]. intros (_ & _ & Hex). by apply Hsuccess in Hex.
  - intros Hnot fuel. unfold playwrightRun.
    destruct (shouldRunE2E ctx (default E2EAuto (cv_e2e (ctx_config ctx))));
      cbn [negb]; [|done].
    unfold available in Hnot.
    destruct (tool_available _); cbn [negb]; [|done].
    destruct Hnot. split; [by apply Hwanted|done].
  - intros i Hstop fuel Hfuel. unfold playwrightRun. fold args retries.
    destruct (shouldRunE2E ctx (default E2EAuto (cv_e2e (ctx_config ctx))));
      cbn [negb]; [|done].
    destruct (tool_available _); cbn [negb]; [|done].
    by rewrite (runWithRetries_stops _ _ _ _ Hstop Hfuel).
  - intros Hw Havailable Hnever fuel. unfold playwrightRun. fold args retries.
    apply Hwanted in Hw. rewrite Hw. cbn [negb].
    unfold available in Havailable. rewrite Havailable. cbn [negb].
    destruct (runWithRetries (runs args) retries fuel) as [[i res]|] eqn:Hrun;
      [|done].
    apply runWithRetries_Some in Hrun as (Hstop & _). by destruct (Hnever i).
  - unfold retries, envNumber.
    by destruct (mapGet _ _) as [text|]; [destruct (Number text) as [| | |q]|];
      simpl; try destruct (Qeq_bool _ _).
  - unfold retries, envNumber.
    destruct (mapGet _ _) as [text|]; simpl; [by intros ->|done].
Qed.

(** ** Walking up the directories *)

Lemma dirname_joinPath dir name : dirname (joinPath dir name) = dir.
Proof. apply removelast_last. Qed.

Lemma dirname_prefix p : dirname p `prefix_of` p.
Proof.
  unfold dirname. destruct (decide (p = [])) as [->|Hne]; [done|].
  exists [List.last p EmptyString]. by apply app_removelast_last.
Qed.

Lemma dirname_length p : length (dirname p) = pred (length p).
Proof.
  unfold dirname. destruct (decide (p = [])) as [->|Hne]; [done|].
  rewrite (app_removelast_last EmptyString Hne) at 2.
  rewrite length_app. simpl. lia.
Qed.

Lemma dirname_fixed p : dirname p = p → p = [].
Proof.
  intros Heq. apply (f_equal length) in Heq. rewrite dirname_length in Heq.
  destruct p; [done|]. simpl in Heq. lia.
Qed.

Lemma prefix_same_length (d1 d2 s : Path) :
  d1 `prefix_of` s → d2 `prefix_of` s → length d1 = length d2 → d1 = d2.
Proof.
  intros [k1 ->] [k2 Heq] Hlen. by apply app_inj_1 in Heq as [-> _].
Qed.

Lemma findUpwardsFrom_nearest existsSync filename start fuel current :
  current `prefix_of` start → (length current ≤ fuel)%nat →
  (∀ d, d `prefix_of` start → (length current < length d)%nat →
        ¬ holds existsSync filename d) →
  ∃ r, findUpwardsFrom existsSync fuel current filename = Some r ∧
       match r with
       | Some found =>
           ∃ dir, found = joinPath dir filename
                  ∧ nearestHolder existsSync start filename dir
       | None => ∀ d, d `prefix_of` start → ¬ holds existsSync filename d
       end.
Proof.
  revert current. induction fuel as [|fuel IH]; intros current Hpre Hfuel Habove;
    cbn [findUpwardsFrom];
    destruct (existsSync (joinPath current filename)) eqn:Hhere.
  1,3: eexists; split; [done|]; exists current; split; [done|];
       split_and!; [done|done|];
       intros d Hd Hholds; destruct (decide (length d ≤ length current)%nat);
       [done|]; destruct (Habove d Hd); [lia|done].
  - assert (current = []) as -> by (destruct current; [done|simpl in Hfuel; lia]).
    rewrite bool_decide_eq_true_2 by done. eexists. split; [done|].
    intros d Hd Hholds. destruct d as [|x d].
    + unfold holds in Hholds. congruence.
    + apply (Habove (x :: d)); [done|simpl; lia|done].
  - case_bool_decide as Hroot.
    + apply dirname_fixed in Hroot as ->. eexists. split; [done|].
      intros d Hd Hholds. destruct d as [|x d].
      * unfold holds in Hholds. congruence.
      * apply (Habove (x :: d)); [done|simpl; lia|done].
    + assert (current ≠ []) as Hne by (by intros ->).
      apply IH.
      * by transitivity current; [apply dirname_prefix|].
      * rewrite dirname_length. lia.
      * intros d Hd Hlen Hholds. rewrite dirname_length in Hlen.
        destruct (decide (length d = length current)) as [Heq|Hneq].
        -- rewrite (prefix_same_length d current start Hd Hpre Heq) in Hholds.
           unfold holds in Hholds. congruence.
        -- apply (Habove d); [done| |done].
           destruct current; [done|]. simpl in *. lia.
Qed.

Lemma findUpwards_result existsSync start filename :
  ∃ r, findUpwards existsSync start filename = Some r ∧
       match r with
       | Some found =>
           ∃ dir, found = joinPath dir filename
                  ∧ nearestHolder existsSync start filename dir
       | None => ∀ d, d `prefix_of` start → ¬ holds existsSync filename d
       end.
Proof.
  apply findUpwardsFrom_nearest; [done|done|].
  intros d Hd Hlen. apply prefix_length in Hd. lia.
Qed.

Lemma nearestHolder_unique existsSync start filename d1 d2 :
  nearestHolder existsSync start filename d1 →
  nearestHolder existsSync start filename d2 → d1 = d2.
Proof.
  intros (Hp1 & Hh1 & Hn1) (Hp2 & Hh2 & Hn2).
  apply (prefix_same_length d1 d2 start Hp1 Hp2).
  specialize (Hn1 d2 Hp2 Hh2). specialize (Hn2 d1 Hp1 Hh1). lia.
Qed.

(** X29. The walk up the directories ends. It finds the file in the nearest
    directory that holds it, among the start directory and those above it,
    and finds nothing only when none of them holds it. *)
Theorem findUpwards_nearest (existsSync : Path → bool) (start : Path)
    (filename : string) :
  (∀ dir, nearestHolder existsSync start filename dir →
          findUpwards existsSync start filename
          = Some (Some (joinPath dir filename))) ∧
  ((∀ d, d `prefix_of` start → ¬ holds existsSync filename d) →
   findUpwards existsSync start filename = Some None) ∧
  is_Some (findUpwards existsSync start filename).
Proof.
  destruct (findUpwards_result existsSync start filename) as (r & Hrun & Hr).
  rewrite Hrun. split_and!; [| |done].
  - intros dir Hdir. destruct r as [found|].
    + destruct Hr as (dir' & -> & Hdir').
      by rewrite (nearestHolder_unique _ _ _ _ _ Hdir Hdir').
    + destruct Hdir as (Hp & Hh & _). by destruct (Hr dir Hp).
  - intros Hnone. destruct r as [found|]; [|done].
    destruct Hr as (dir & _ & Hp & Hh & _). by destruct (Hnone dir Hp).
Qed.

(** X30. The workspace root is a directory from the working directory
    upwards: the nearest one that holds [pnpm-workspace.yaml], also when a
    [package.json] is nearer; without any, the nearest one that holds a
    [package.json]; and without that either, the working directory. *)
Theorem resolveWorkspaceRoot_prefers_workspace (existsSync : Path → bool)
    (cwd : Path) :
  ∃ root,
    resolveWorkspaceRoot existsSync cwd = Some root ∧
    root `prefix_of` cwd ∧
    (∀ dir, nearestHolder existsSync cwd "pnpm-workspace.yaml" dir → root = dir) ∧
    ((∀ d, d `prefix_of` cwd → ¬ holds existsSync "pnpm-workspace.yaml" d) →
     (∀ dir, nearestHolder existsSync cwd "package.json" dir → root = dir) ∧
     ((∀ d, d `prefix_of` cwd → ¬ holds existsSync "package.json" d) →
      root = cwd)).
Proof.
  unfold resolveWorkspaceRoot.
  destruct (findUpwards_result existsSync cwd "pnpm-workspace.yaml")
    as ([found|] & -> & Hws); cbn.
  - destruct Hws as (dir & -> & Hdir). rewrite dirname_joinPath.
    exists dir. split_and!; [done|apply Hdir| |].
    + intros dir' Hdir'. by apply (nearestHolder_unique _ _ _ _ _ Hdir Hdir').
    + intros Hnone. destruct Hdir as (Hp & Hh & _). by destruct (Hnone dir Hp).
  - destruct (findUpwards_result existsSync cwd "package.json")
      as ([found|] & -> & Hpkg); cbn.
    + destruct Hpkg as (dir & -> & Hdir). rewrite dirname_joinPath.
      exists dir. split_and!; [done|apply Hdir| |].
      * intros dir' (Hp & Hh & _). by destruct (Hws dir' Hp).
      * intros _. split.
        -- intros dir' Hdir'. by apply (nearestHolder_unique _ _ _ _ _ Hdir Hdir').
        -- intros Hnone. destruct Hdir as (Hp & Hh & _). by destruct (Hnone dir Hp).
    + exists cwd. split_and!; [done|done| |].
      * intros dir' (Hp & Hh & _). by destruct (Hws dir' Hp).
      * intros _. split; [|done].
        intros dir' (Hp & Hh & _). by destruct (Hpkg dir' Hp).
Qed.
